(** * pypuf: the reliability-based CMA-ES learner

    A shallow embedding of [pypuf/learner/evolution_strategies/cmaes.py].

    Number model.
    - numpy integer arrays ([int8] response bits, their row sums) are lists
      of [Z]; the [int8] cast is written out with its wrap-around.  Row sums
      are accumulated in 64 bits by numpy; they stay far below that bound
      and are not wrapped.
    - the reliabilities of the PUF are half-integers [|R/2 - s|]; binary64
      represents them exactly, so they are modelled as rationals [Q].
    - everything that runs through tensorflow ([reliabilities_model],
      [tf_pearsonr], [objective]) is modelled on Rocq's primitive binary64
      floats, so that NaN, infinities and signed zeros behave as in the
      code.  Sums are taken from left to right.
    - chain weight vectors handled by [learn] are lists of [Q]: every finite
      double is a rational, and the only operations [learn] itself applies
      to them (negation, comparison with 0) are exact on doubles.
    - the optimizer ([cma]), [scipy.stats.pearsonr] and the LTF array are
      outside the module; [learn] takes them as parameters. *)

From Stdlib Require Import List ZArith QArith Qabs Bool Lia Permutation.
From Stdlib Require Import Floats.
From Stdlib Require String.
Import ListNotations.

Set Implicit Arguments.

Close Scope Q_scope.

(** ** numpy helpers *)

Module Np.

(** [np.array(x, dtype=np.int8)] on one entry: two's complement wrap-around. *)
Definition int8 (z : Z) : Z := ((z + 128) mod 256 - 128)%Z.

(** A two-dimensional integer array.  [ncols] is [shape[1]]; it is kept
    apart from the rows so that an array of shape (0, R) can be written. *)
Record ndarray2 : Type := mk_ndarray2 {
  ncols : nat;
  rows : list (list Z)
}.

(** Every row has [shape[1]] entries. *)
Definition well_shaped (m : ndarray2) : Prop :=
  Forall (fun r => length r = ncols m) (rows m).

(** Elementwise map, the shape is kept. *)
Definition amap (f : Z -> Z) (m : ndarray2) : ndarray2 :=
  mk_ndarray2 (ncols m) (map (map f) (rows m)).

Definition astype_int8 (m : ndarray2) : ndarray2 := amap int8 m.

(** [v in m] *)
Definition contains (v : Z) (m : ndarray2) : bool :=
  existsb (existsb (Z.eqb v)) (rows m).

(** [np.sum(row)] *)
Definition sum (row : list Z) : Z := fold_right Z.add 0%Z row.

(** [np.sum(m, axis=1)] *)
Definition sum_axis1 (m : ndarray2) : list Z := map sum (rows m).

(** Every entry of the array satisfies [P]. *)
Definition entries (P : Z -> Prop) (m : ndarray2) : Prop :=
  Forall (Forall P) (rows m).

End Np.

Import Np.

(** The two values of a signed response bit. *)
Definition pm1 (z : Z) : Prop := z = 1%Z \/ z = (-1)%Z.

(** Number of entries of a row equal to [v]. *)
Definition count (v : Z) (row : list Z) : Z :=
  Z.of_nat (count_occ Z.eq_dec row v).

(** ** Reliability of the PUF ([reliabilities_puf]) *)

Section ReliabilityPuf.

(** [pypuf.tools.transform_challenge_11_to_01] is imported by the module but
    its definition is not part of the sources at hand.  It is taken as a
    parameter: an elementwise recoding [to01] of the signed bits -1/+1 as
    the bits 0/1.  Which of the two signed bits becomes 1 is left open. *)
Variable to01 : Z -> Z.

Definition recodes_bits : Prop :=
  (to01 1 = 1 /\ to01 (-1) = 0)%Z \/ (to01 1 = 0 /\ to01 (-1) = 1)%Z.

Definition transform_challenge_11_to_01 (m : ndarray2) : ndarray2 :=
  amap to01 m.

(** [np.abs(shape[1]/2 - s)] for one row sum [s]. *)
Definition half_distance (R : nat) (s : Z) : Q :=
  Qabs (inject_Z (Z.of_nat R) / 2 - inject_Z s)%Q.

(** [reliabilities_puf(response_bits)] *)
Definition reliabilities_puf (response_bits : ndarray2) : list Q :=
  let response_bits := astype_int8 response_bits in
  let response_bits :=
    if contains (-1) response_bits
    then transform_challenge_11_to_01 response_bits
    else response_bits in
  map (half_distance (ncols response_bits)) (sum_axis1 response_bits).

End ReliabilityPuf.

(** The value the specification gives for one row:
    [|R/2 - count_of(+1 in row)|]. *)
Definition spec_reliability (R : nat) (row : list Z) : Q :=
  Qabs (inject_Z (Z.of_nat R) / 2 - inject_Z (count 1 row))%Q.

(** The 0/1 encoding of a signed response matrix in which +1 is written 1
    and -1 is written 0. *)
Definition encode01 (m : ndarray2) : ndarray2 :=
  amap (fun z => if Z.eqb z 1 then 1%Z else 0%Z) m.

(** Reordering of the measurements: column [i] of the result is column
    [nth i p] of the argument, the same for every row. *)
Definition reorder_row (p : list nat) (row : list Z) : list Z :=
  map (fun i => nth i row 0%Z) p.

Definition reorder (p : list nat) (m : ndarray2) : ndarray2 :=
  mk_ndarray2 (ncols m) (map (reorder_row p) (rows m)).

(** The two recodings of signed bits; other values are left as they are. *)
Definition plus_is_one (z : Z) : Z :=
  if Z.eqb z 1 then 1%Z else if Z.eqb z (-1) then 0%Z else z.

Definition minus_is_one (z : Z) : Z :=
  if Z.eqb z 1 then 0%Z else if Z.eqb z (-1) then 1%Z else z.

Definition test_responses : ndarray2 :=
  mk_ndarray2 4 [[1; 1; 1; 1]; [1; 1; 1; -1]; [1; 1; -1; -1]; [1; -1; -1; -1]]%Z.

(** ** Errors

    The exceptions the modelled code can raise: an index out of range
    ([w[0]], [pool[0]], [state[:, -1]] on an empty axis) and an operation on
    arrays or tensors whose shapes do not fit. *)

Inductive exn : Type := IndexError | ShapeError.

Inductive result (A : Type) : Type :=
| Ok (a : A)
| Raise (e : exn).

Arguments Ok {A} a.
Arguments Raise {A} e.

Definition bind {A B : Type} (r : result A) (f : A -> result B) : result B :=
  match r with
  | Ok a => f a
  | Raise e => Raise e
  end.

Notation "x <- r ;; k" := (bind r (fun x => k))
  (at level 61, r at next level, right associativity).

Fixpoint mapM {A B : Type} (f : A -> result B) (l : list A) : result (list B) :=
  match l with
  | [] => Ok []
  | a :: l' => b <- f a ;; bs <- mapM f l' ;; Ok (b :: bs)
  end.

(** ** tensorflow helpers, on binary64 *)

Module Tf.

Local Open Scope float_scope.

(** The number of reduced entries as a double. *)
Definition of_nat (n : nat) : float :=
  PrimFloat.of_uint63 (Uint63.of_Z (Z.of_nat n)).

Definition reduce_sum (v : list float) : float :=
  fold_left PrimFloat.add v 0.

Definition reduce_mean (v : list float) : float :=
  reduce_sum v / of_nat (length v).

(** [tf.math.greater(a, b)]: false as soon as one side is NaN. *)
Definition greater (a b : float) : bool := PrimFloat.ltb b a.

(** [tf.cast(b, tf.double)] *)
Definition cast_double (b : bool) : float := if b then 1 else 0.

Definition square (a : float) : float := a * a.

(** Contraction of two vectors: [tf.tensordot(a, b, axes=1)], and one entry
    of [tf.linalg.matmul]. *)
Definition tensordot (a b : list float) : result float :=
  if Nat.eqb (length a) (length b)
  then Ok (reduce_sum (map (fun p => fst p * snd p) (combine a b)))
  else Raise ShapeError.

End Tf.

(** ** Reliability of the model and the objective

    The population axis is carried pointwise by every tensor operation of
    [reliabilities_model], [tf_pearsonr] and [objective]: column [j] of each
    intermediate tensor depends on candidate [j] alone.  The embedding
    therefore computes one candidate at a time and [objective] maps over the
    population. *)

Section Objective.

Local Open Scope float_scope.

(** [reliabilities_model(delay_diffs, epsilon)] for one candidate:
    [delay_diffs] has one entry per challenge. *)
Definition reliabilities_model (delay_diffs : list float) (epsilon : float)
  : list float :=
  map (fun d => Tf.cast_double (Tf.greater (abs d) epsilon)) delay_diffs.

Definition center (v : list float) : list float :=
  let m := Tf.reduce_mean v in map (fun a => a - m) v.

(** [tf_pearsonr(x, y)] for one column [x]. *)
Definition tf_pearsonr (x y : list float) : result float :=
  let centered_x := center x in
  let centered_y := center y in
  cov_xy <- Tf.tensordot centered_y centered_x ;;
  let auto_cov :=
    sqrt (Tf.reduce_sum (map Tf.square centered_x)
          * Tf.reduce_sum (map Tf.square centered_y)) in
  Ok (cov_xy / auto_cov).

(** The fields of [self] read by [objective]. *)
Variable n : nat.
Variable current_challenges : list (list float).
Variable puf_reliabilities : list float.

(** [state[j, -1]] *)
Definition last_entry (candidate : list float) : result float :=
  match candidate with
  | [] => Raise IndexError
  | _ => Ok (last candidate 0)
  end.

(** Row [j] of [tf.linalg.matmul(weights, current_challenges.T)]. *)
Definition delay_diffs (weights : list float) : result (list float) :=
  mapM (fun c => Tf.tensordot weights c) current_challenges.

(** The modelled reliabilities of a weight vector, for a given epsilon. *)
Definition chain_reliabilities (weights : list float) (epsilon : float)
  : result (list float) :=
  d <- delay_diffs weights ;;
  Ok (reliabilities_model d epsilon).

(** The modelled reliabilities of one candidate. *)
Definition model_reliabilities (candidate : list float) : result (list float) :=
  let weights := firstn n candidate in
  epsilon <- last_entry candidate ;;
  chain_reliabilities weights epsilon.

Definition objective1 (candidate : list float) : result float :=
  x <- model_reliabilities candidate ;;
  corr <- tf_pearsonr x puf_reliabilities ;;
  Ok (abs (1 - corr)).

(** [objective(state)]: one value per candidate of the population. *)
Definition objective (state : list (list float)) : result (list float) :=
  mapM objective1 state.

End Objective.

(** Two floats are opposite, or are both zeros (of any signs). *)
Definition mirror_sf (a b : spec_float) : Prop :=
  a = SFopp b
  \/ (match a with S754_zero _ => True | _ => False end
      /\ match b with S754_zero _ => True | _ => False end).

Definition mirror (a b : float) : Prop := mirror_sf (Prim2SF a) (Prim2SF b).

(** A float is a zero of either sign, or NaN. *)
Definition zero_or_nan (f : float) : Prop :=
  match Prim2SF f with
  | S754_zero _ | S754_nan => True
  | _ => False
  end.

(** Which entries of a result of [objective] are NaN, and which are equal
    to 1. *)
Definition nan_flags (r : result (list float)) : list bool :=
  match r with
  | Ok out => map PrimFloat.is_nan out
  | Raise _ => []
  end.

Definition fallback_flags (r : result (list float)) : list bool :=
  match r with
  | Ok out => map (fun v => PrimFloat.eqb v 1) out
  | Raise _ => []
  end.

(** ** Majority vote and accuracy ([test_model]) *)

(** The order in which [scipy.stats.mode] prefers values of a row: a value
    wins over another when it occurs more often, or as often and is the
    smaller of the two. *)
Definition preferred (row : list Z) (v b : Z) : bool :=
  (count b row <? count v row)%Z
  || ((count v row =? count b row)%Z && (v <? b)%Z).

(** [scipy.stats.mode] of one row, after its documentation: the most common
    value, and the smallest of them when several are equally common.  Rows
    are not empty (R >= 1); the value 0 on an empty row is a placeholder. *)
Definition mode (row : list Z) : Z :=
  match row with
  | [] => 0%Z
  | h :: t => fold_left (fun b v => if preferred row v b then v else b) t h
  end.

(** [mode(responses, axis=1)[0].T], one entry per challenge. *)
Definition mode_axis1 (m : ndarray2) : list Z := map mode (rows m).

(** Entry by entry comparison of two arrays of one length. *)
Definition eq_bits (a b : list Z) : list bool :=
  map (fun p => Z.eqb (fst p) (snd p)) (combine a b).

(** [a == b] on two one-dimensional arrays, with numpy's broadcasting of an
    array of length 1. *)
Definition eq_broadcast (a b : list Z) : result (list bool) :=
  if Nat.eqb (length a) (length b)
  then Ok (eq_bits a b)
  else match a, b with
       | [x], _ => Ok (map (fun y => Z.eqb x y) b)
       | _, [y] => Ok (map (fun x => Z.eqb x y) a)
       | _, _ => Raise ShapeError
       end.

(** The value of [np.mean] on a boolean array: a ratio of two counts, or NaN
    on an empty array.  The ratio [a/N] is compared with 0.5 only; rounding
    to binary64 cannot change the outcome of that comparison (for N below
    2^53), so the ratio is kept exact. *)
Inductive mean_value : Type :=
| Ratio (q : Q)
| MeanNaN.

Definition count_true (l : list bool) : nat := length (filter (fun b => b) l).

Definition mean_bool (l : list bool) : mean_value :=
  match l with
  | [] => MeanNaN
  | _ => Ratio (inject_Z (Z.of_nat (count_true l))
                / inject_Z (Z.of_nat (length l)))%Q
  end.

Definition Qltb (a b : Q) : bool := negb (Qle_bool b a).

(** [acc < 0.5]; a comparison with NaN is false. *)
Definition lt_half (acc : mean_value) : bool :=
  match acc with
  | Ratio q => Qltb q (1 # 2)%Q
  | MeanNaN => false
  end.

(** Agreement of two response vectors: [np.mean(y_true == y_test)]. *)
Definition agreement (y_true y_test : list Z) : result mean_value :=
  agree <- eq_broadcast y_true y_test ;; Ok (mean_bool agree).

(** ** Chains *)

(** A chain weight vector. *)
Definition chain : Type := list Q.

(** [-w] *)
Definition neg (w : chain) : chain := map Qopp w.

(** [-w if w[0] < 0 else w] *)
Definition canonical_sign (w : chain) : result chain :=
  match w with
  | [] => Raise IndexError
  | w0 :: _ => Ok (if Qltb w0 0%Q then neg w else w)
  end.

(** [pool[0] = - pool[0]] *)
Definition flip_first (pool : list chain) : result (list chain) :=
  match pool with
  | [] => Raise IndexError
  | c :: rest => Ok (neg c :: rest)
  end.

(** The bookkeeping of [learn]: per target chain index, the indices of the
    pool members that caused a discard and the generation counts. *)
Record meta_data : Type := mk_meta {
  discard_count : list (list nat);
  iteration_count : list (list nat)
}.

(** [d[i].append(x)] on a dict with the keys [0 .. k-1]. *)
Fixpoint append_at (i x : nat) (d : list (list nat)) : list (list nat) :=
  match d, i with
  | [], _ => []
  | l :: d', O => (l ++ [x]) :: d'
  | l :: d', S i' => l :: append_at i' x d'
  end.

(** The state of the [while] loop of [learn].  [attempts] counts the searches
    run so far: it stands for the state of [self.prng], which is advanced by
    every attempt. *)
Record loop_state : Type := mk_state {
  attempts : nat;
  n_chain : nat;
  pool : list chain;
  meta : meta_data
}.

(** The fixed duplicate threshold of [learn]. *)
Definition duplicate_threshold : float := 0.5%float.

(** ** The learner *)

Section Learner.

(** [self.k] *)
Variable k : nat.

(** One run of [CMA(...).search()]: for the attempt number and the index of
    the chain being learned, the best state found (weights followed by
    epsilon) and [cma.generation].  The optimizer is a library and its
    sampling is random; the oracle fixes one run of it. *)
Variable search : nat -> nat -> list Q * nat.

(** [scipy.stats.pearsonr(w, v)[0]], a double (NaN for a constant vector).
    scipy refuses two vectors of different lengths, or of fewer than two
    entries, with a value error; the oracle stands for the coefficient of
    the vectors scipy accepts, and the statements about runs that come to
    an end are made for chains of at least two weights. *)
Variable pearsonr : chain -> chain -> float.

(** [LTFArray(np.array(pool), self.transform, self.combiner).eval(challenges)]:
    the class is not part of the sources at hand; the responses of the model
    built from a pool are taken as a parameter. *)
Variable ltf_eval : list chain -> list (list Z) -> list Z.

(** [self.training_set] *)
Variable challenges : list (list Z).
Variable responses : ndarray2.

(** [test_model(model)] *)
Definition test_model (model : list chain) : result mean_value :=
  let y_true := mode_axis1 responses in
  let y_test := ltf_eval model challenges in
  agreement y_true y_test.

(** [tf.abs(pearsonr(w, v)[0]) > 0.5] *)
Definition correlated (w v : chain) : bool :=
  Tf.greater (abs (pearsonr w v)) duplicate_threshold.

(** The [for i, v in enumerate(pool)] loop: the index at which it breaks,
    or [None] when it runs into its [else] branch. *)
Fixpoint first_correlated (w : chain) (members : list chain) (i : nat)
  : option nat :=
  match members with
  | [] => None
  | v :: rest =>
      if correlated w v then Some i else first_correlated w rest (S i)
  end.

Definition initial_state : loop_state :=
  mk_state 0 0 []
    (mk_meta (repeat [] k) (repeat [] k)).

(** One iteration of the [while] loop. *)
Definition attempt (st : loop_state) : result loop_state :=
  let '(w, generation) := search (attempts st) (n_chain st) in
  let md := mk_meta (discard_count (meta st))
              (append_at (n_chain st) generation (iteration_count (meta st))) in
  let w := removelast w in
  w <- canonical_sign w ;;
  match first_correlated w (pool st) 0 with
  | Some i =>
      Ok (mk_state (S (attempts st)) (n_chain st) (pool st)
            (mk_meta (append_at (n_chain st) i (discard_count md))
               (iteration_count md)))
  | None =>
      Ok (mk_state (S (attempts st)) (S (n_chain st)) (pool st ++ [w]) md)
  end.

(** [while n_chain < self.k]; the loop has no bound of its own, [None] is
    the answer of a run that needs more than [fuel] attempts. *)
Fixpoint learn_loop (fuel : nat) (st : loop_state) : option (result loop_state) :=
  if Nat.ltb (n_chain st) k
  then match fuel with
       | O => None
       | S fuel' =>
           match attempt st with
           | Ok st' => learn_loop fuel' st'
           | Raise e => Some (Raise e)
           end
       end
  else Some (Ok st).

(** The states the loop goes through. *)
Inductive reachable : loop_state -> Prop :=
| reach_init : reachable initial_state
| reach_step : forall st st',
    reachable st -> n_chain st < k -> attempt st = Ok st' -> reachable st'.

(** The end of [learn]: the model is its weight array, a copy of the pool. *)
Definition resolve_polarity (pool : list chain) : result (list chain) :=
  let model := pool in
  acc <- test_model model ;;
  if lt_half acc
  then flip_first pool
  else Ok model.

(** [learn()] *)
Definition learn (fuel : nat) : option (result (list chain * meta_data)) :=
  match learn_loop fuel initial_state with
  | None => None
  | Some r =>
      Some (st <- r ;;
            model <- resolve_polarity (pool st) ;;
            Ok (model, meta st))
  end.

(** No later chain of the pool is correlated with an earlier one. *)
Definition no_duplicates (p : list chain) : Prop :=
  forall i j v w,
    i < j -> nth_error p i = Some v -> nth_error p j = Some w ->
    correlated w v = false.

End Learner.

(** ** Construction of the learner ([__init__]) *)

Record TrainingSet : Type := mk_training_set {
  ts_challenges : list (list Z);
  ts_responses : ndarray2
}.

(** The attributes set by [__init__] ([transform], [combiner] and [logger]
    are references that are stored as they come). *)
Record ReliabilityBasedCMAES : Type := mk_learner {
  self_training_set : TrainingSet;
  self_k : nat;
  self_n : nat;
  self_abort_delta : Q;
  self_current_challenges : option (list (list float));
  self_prng : Z;
  self_chains_learned : list (list Q);
  self_num_iterations : nat;
  self_stops : String.string;
  self_puf_reliabilities : list Q;
  self_linearized_challenges : list (list (list Z))
}.

Section Init.

Variable to01 : Z -> Z.

(** [self.transform(challenges, k=k)]: a function handed to the learner; it
    sees the challenges and [k], never the responses. *)
Variable transform : list (list Z) -> nat -> result (list (list (list Z))).

(** [ReliabilityBasedCMAES.__init__] *)
Definition init (training_set : TrainingSet) (k n : nat) (abort_delta : Q)
    (random_seed : Z) : result ReliabilityBasedCMAES :=
  let puf_reliabilities := reliabilities_puf to01 (ts_responses training_set) in
  linearized <- transform (ts_challenges training_set) k ;;
  Ok (mk_learner training_set k n abort_delta None random_seed
        (repeat (repeat 0%Q n) k) 0 String.EmptyString puf_reliabilities
        linearized).

End Init.

(** The identity transform: every one of the [k] chains sees the challenge
    itself; the result has shape (N, k, n). *)
Definition transform_id (challenges : list (list Z)) (k : nat)
  : result (list (list (list Z))) :=
  Ok (map (fun c => repeat c k) challenges).

(** ** The LTF array with the XOR combiner *)

(** Modelled from the spec: the class [LTFArray] (module
    [pypuf.simulation.arbiter_based.ltfarray]) is missing from the sources.
    The spec describes its evaluation as "a deterministic transform + linear
    threshold + combiner" over real weight vectors, k chains combining "via
    XOR" into a signed response.  This is the linear form of one chain on a
    challenge, under the identity transform. *)
Definition linear_form (w : chain) (c : list Z) : Q :=
  fold_right Qplus 0%Q
    (map (fun p => (fst p * inject_Z (snd p))%Q) (combine w c)).

(** Modelled from the spec: the threshold of [LTFArray], missing from the
    sources; the "signed response" of a chain is the sign of its linear
    form. *)
Definition threshold (q : Q) : Z := Z.sgn (Qnum q).

(** Modelled from the spec: the XOR combiner of [LTFArray], missing from the
    sources; XOR of signed bits is their product. *)
Definition combiner_xor (bits : list Z) : Z := fold_right Z.mul 1%Z bits.

(** Modelled from the spec: [LTFArray(weights, transform_id,
    combiner_xor).eval(challenges)], missing from the sources: one signed
    response per challenge. *)
Definition ltfarray_eval_xor (weights : list chain) (challenges : list (list Z))
  : list Z :=
  map (fun c => combiner_xor (map (fun w => threshold (linear_form w c)) weights))
      challenges.

(** ** A reference Pearson coefficient, to run [learn] on examples *)

Definition Z2float (z : Z) : float :=
  if (z <? 0)%Z
  then (- PrimFloat.of_uint63 (Uint63.of_Z (- z)))%float
  else PrimFloat.of_uint63 (Uint63.of_Z z).

Definition Q2float (q : Q) : float :=
  (Z2float (Qnum q) / Z2float (Zpos (Qden q)))%float.

(** The textbook coefficient on doubles; it stands for scipy's [pearsonr]
    in the examples. *)
Definition pearsonr_ref (w v : chain) : float :=
  let xm := center (map Q2float w) in
  let ym := center (map Q2float v) in
  (Tf.reduce_sum (map (fun p => fst p * snd p) (combine xm ym))
   / sqrt (Tf.reduce_sum (map Tf.square xm) * Tf.reduce_sum (map Tf.square ym)))%float.

(** ** Example data *)

Module Examples.

(** Four challenges of two bits, as doubles. *)
Definition challenges4 : list (list float) :=
  [[1; 1]; [1; -1]; [-1; 1]; [-1; -1]]%float.

(** Measured reliabilities of [test_responses]. *)
Definition rels4 : list float := [2; 1; 0; 1]%float.

(** A candidate with zero weights and epsilon 2: no delay exceeds epsilon. *)
Definition all_unreliable : list float := [0; 0; 2]%float.

(** A candidate whose delays all exceed its epsilon. *)
Definition all_reliable : list float := [1; 0; 0.5]%float.

(** A candidate with a modelled reliability that varies. *)
Definition varied : list float := [3; 1; 2]%float.

(** The duplicated weight vector of the spec's assembler scenario, in tenths. *)
Definition dup_chain : chain :=
  map (fun z => (z # 10)%Q)
      [1; 2; 3; 4; 5; 6; 7; 8; -1; -2; -3; -4; -5; -6; -7; -8]%Z.

(** Another chain, negative in its first component. *)
Definition other_chain : chain :=
  map (fun z => (z # 10)%Q)
      [-1; 2; -3; 4; -5; 6; -7; 8; 1; -2; 3; -4; 5; -6; 7; -8]%Z.

(** A search that returns [dup_chain] twice and then [other_chain], each
    followed by epsilon 2, after 7 generations. *)
Definition search3 (attempt chain_index : nat) : list Q * nat :=
  match attempt with
  | 0 | 1 => (dup_chain ++ [2%Q], 7)
  | _ => (other_chain ++ [2%Q], 7)
  end.

(** Two chains on two bits and three challenges. *)
Definition pool2 : list chain := [[1; 2]; [3; -1]]%Q.

Definition challenges3 : list (list Z) := [[1; 1]; [1; -1]; [-1; 1]]%Z.

(** One chain whose linear form vanishes on the challenge [1; 1]. *)
Definition pool_zero : list chain := [[1; -1]]%Q.

Definition challenges1 : list (list Z) := [[1; 1]]%Z.

(** A training set with two challenges and one row of responses. *)
Definition mismatched : TrainingSet :=
  mk_training_set [[1; 1]; [1; -1]]%Z (mk_ndarray2 4 [[1; 1; 1; -1]]%Z).

(** The state in which the loop of [learn] ends on [search3] with k = 2:
    three attempts, the second one discarded against pool member 0. *)
Definition final3 : loop_state :=
  mk_state 3 2 [dup_chain; neg other_chain]
    (mk_meta [[]; [0]] [[7]; [7; 7]]).

(** One measurement for each of three challenges. *)
Definition responses3 : ndarray2 := mk_ndarray2 1 [[1]; [1]; [-1]]%Z.

(** A model that answers 0 on every challenge. *)
Definition eval_zero (p : list chain) (cs : list (list Z)) : list Z :=
  map (fun _ => 0%Z) cs.

End Examples.

(** ** Further notions used by the properties of the learner *)

(** The two values of a response bit in the 0/1 encoding. *)
Definition bit01 (z : Z) : Prop := z = 0%Z \/ z = 1%Z.

(** The responses with the polarity of some challenges inverted: row [i] is
    negated when [flips] says so at [i]. *)
Definition flip_rows (flips : list bool) (m : ndarray2) : ndarray2 :=
  mk_ndarray2 (ncols m)
    (map (fun p : bool * list Z =>
            if fst p then map Z.opp (snd p) else snd p)
         (combine flips (rows m))).

(** A chain in canonical sign: it has a first weight, which is not
    negative. *)
Definition canonical (c : chain) : Prop :=
  match c with
  | [] => False
  | c0 :: _ => (0 <= c0)%Q
  end.

(** The number of entries recorded in one of the dicts of [meta_data]. *)
Definition total_entries (d : list (list nat)) : nat := length (concat d).

(** What [meta_data] records, in a state of the loop for [k] chains. *)
Definition bookkeeping (k : nat) (st : loop_state) : Prop :=
  length (discard_count (meta st)) = k
  /\ length (iteration_count (meta st)) = k
  /\ total_entries (iteration_count (meta st)) = attempts st
  /\ total_entries (discard_count (meta st)) + n_chain st = attempts st
  /\ forall i di ii,
       nth_error (discard_count (meta st)) i = Some di ->
       nth_error (iteration_count (meta st)) i = Some ii ->
       Forall (fun j => j < i) di
       /\ length ii = length di + (if Nat.ltb i (n_chain st) then 1 else 0)
       /\ (n_chain st < i -> di = []).

(** The candidate chain of attempt [a] in a run without discards, where
    attempt [a] learns chain [a]. *)
Definition candidate (search : nat -> nat -> list Q * nat) (a : nat)
  : result chain :=
  canonical_sign (removelast (fst (search a a))).

(** ** The accuracy as a double *)

(** [np.mean] of a boolean array as numpy returns it: the number of true
    entries (a sum of doubles that is exact below 2^53) divided in binary64
    by the number of entries; 0/0, which is NaN, on an empty array. *)
Definition np_mean (l : list bool) : float :=
  (Tf.of_nat (count_true l) / Tf.of_nat (length l))%float.

(** [np.mean(y_true == y_test)], the double that [test_model] returns. *)
Definition agreement64 (y_true y_test : list Z) : result float :=
  agree <- eq_broadcast y_true y_test ;; Ok (np_mean agree).

(** ** The XOR array for any threshold *)

(** Modelled from the spec: [LTFArray] is missing from the sources, and the
    spec, which speaks of signed responses, does not say what the response
    of a chain is when its linear form is 0.  The threshold is therefore a
    parameter here; [ltfarray_eval_xor] is the instance [threshold]. *)
Definition xor_eval (sgn : Q -> Z) (weights : list chain)
    (challenges : list (list Z)) : list Z :=
  map (fun c => combiner_xor (map (fun w => sgn (linear_form w c)) weights))
      challenges.

(** What is asked of a threshold: it depends on the value of the linear
    form only, and away from 0 it is odd. *)
Definition odd_threshold (sgn : Q -> Z) : Prop :=
  (forall p q, (p == q)%Q -> sgn p = sgn q)
  /\ (forall q, ~ (q == 0)%Q -> sgn (- q)%Q = (- sgn q)%Z).

(** A threshold with two values: +1 from 0 on, -1 below. *)
Definition sign_bit (q : Q) : Z := if Qle_bool 0 q then 1%Z else (-1)%Z.

Module MoreExamples.

(** A search that always comes back with the same weights. *)
Definition search_dup (attempt chain_index : nat) : list Q * nat :=
  (Examples.dup_chain ++ [2%Q], 7).

(** A search whose result has no weights, only epsilon (n = 0). *)
Definition search_no_weights (attempt chain_index : nat) : list Q * nat :=
  ([2%Q], 1).

(** A coefficient that never reaches the threshold. *)
Definition pearsonr_small (w v : chain) : float := 0.25%float.

(** A search that always comes back with the constant weights 1, 1, 1 and
    epsilon 2. *)
Definition search_constant (attempt chain_index : nat) : list Q * nat :=
  ([1; 1; 1; 2]%Q, 7).

(** A search that returns the weights 3, 1, 0 and then 1, 3, 0, each with
    epsilon 3. *)
Definition search_twins (attempt chain_index : nat) : list Q * nat :=
  match attempt with
  | 0 => ([3; 1; 0; 3]%Q, 7)
  | _ => ([1; 3; 0; 3]%Q, 7)
  end.

(** The eight challenges of three bits, as doubles. *)
Definition challenges8 : list (list float) :=
  [[1; 1; 1]; [1; 1; -1]; [1; -1; 1]; [1; -1; -1];
   [-1; 1; 1]; [-1; 1; -1]; [-1; -1; 1]; [-1; -1; -1]]%float.

(** A coefficient that is exactly the threshold. *)
Definition pearsonr_half (w v : chain) : float := 0.5%float.

(** The state after the first two attempts on [Examples.search3]: the
    duplicated vector is in the pool, its second copy was discarded. *)
Definition state2 : loop_state :=
  mk_state 2 1 [Examples.dup_chain] (mk_meta [[]; [0]] [[7]; [7]]).

End MoreExamples.

Module PolarityExample.

(** One measurement of +1 for each of three challenges. *)
Definition responses_plus : ndarray2 := mk_ndarray2 1 [[1]; [1]; [1]]%Z.

(** A model that tells the sign of its first chain: on the first challenge
    it answers +1 when the first weight of the first chain is negative and
    -1 otherwise; on every other challenge it answers -1. *)
Definition eval_first (p : list chain) (cs : list (list Z)) : list Z :=
  match cs with
  | [] => []
  | _ :: cs' =>
      match p with
      | (w0 :: _) :: _ => if Qltb w0 0 then 1%Z else (-1)%Z
      | _ => (-1)%Z
      end :: map (fun _ => (-1)%Z) cs'
  end.

(** [Examples.dup_chain] with every weight negated. *)
Definition dup_chain_negated : chain :=
  map (fun z => (z # 10)%Q)
      [-1; -2; -3; -4; -5; -6; -7; -8; 1; 2; 3; 4; 5; 6; 7; 8]%Z.

(** One measurement for each of three challenges; the XOR array of
    [Examples.pool2] answers the opposite on each of them. *)
Definition responses_opposite : ndarray2 :=
  mk_ndarray2 1 [[-1]; [1]; [1]]%Z.

End PolarityExample.

(** * The experiment on challenge-response pairs read from a file

    [ExperimentLogisticRegressionFromFile] of
    [pypuf/experiments/experiment/logistic_regression.py]: its nested class
    [TrainingSet] and its method [approx_distance].  The random draws of
    [numpy.random.RandomState.choice] are a parameter; the model handed to
    the experiment is represented by its [eval]. *)

Module FromFile.

(** The exceptions of this part of the code. *)
Inductive exception : Type :=
| AssertionError
| ValueError
| IndexError
| ShapeMismatch
| ZeroDivisionError.

Inductive outcome (A : Type) : Type :=
| Return (a : A)
| Throw (e : exception).

Arguments Return {A} a.
Arguments Throw {A} e.

Definition and_then {A B : Type} (r : outcome A) (f : A -> outcome B)
  : outcome B :=
  match r with
  | Return a => f a
  | Throw e => Throw e
  end.

Notation "x <~ r ;; k" := (and_then r (fun x => k))
  (at level 61, r at next level, right associativity).

(** [l[indices]] with an array of indices: one entry per index, an index
    error when an index is out of bounds. *)
Fixpoint take {A : Type} (l : list A) (indices : list nat) : outcome (list A) :=
  match indices with
  | [] => Return []
  | i :: rest =>
      match nth_error l i with
      | Some x => out <~ take l rest ;; Return (x :: out)
      | None => Throw IndexError
      end
  end.

(** [i in indices] *)
Definition among (indices : list nat) (i : nat) : bool :=
  existsb (Nat.eqb i) indices.

(** [numpy.delete(arr, indices)]: the entries of [arr] at the positions that
    are not listed, in their order; an index error when a listed position
    does not exist. *)
Definition np_delete {A : Type} (arr : list A) (indices : list nat)
  : outcome (list A) :=
  if forallb (fun i => Nat.ltb i (length arr)) indices
  then Return (map snd
                 (filter (fun p : nat * A => negb (among indices (fst p)))
                         (combine (seq 0 (length arr)) arr)))
  else Throw IndexError.

(** Whether [asarray(range(n))] is an array of integers: the empty range
    gives an array of doubles, the dtype numpy chooses when no entry decides
    it; [numpy.delete] keeps the dtype of its first argument. *)
Definition range_is_integer (n : nat) : bool := negb (Nat.eqb n 0).

(** [l[indices]] for an index array of integers, or of doubles, which numpy
    refuses as an index. *)
Definition take_as {A : Type} (integer : bool) (l : list A)
    (indices : list nat) : outcome (list A) :=
  if integer then take l indices else Throw IndexError.

(** The attributes of a [TrainingSet]. *)
Record TrainingSet : Type := mk_training_set {
  challenges : list (list Z);
  test_challenges : list (list Z);
  responses : list Z;
  test_responses : list Z;
  N : nat
}.

Section Experiment.

(** [RandomState(seed).choice(a, size, replace=replace)]: [size] numbers
    below [a], or [None] when numpy refuses the draw with a value error (a
    sample larger than the population without replacement, an empty
    population). *)
Variable choice : Z -> nat -> nat -> bool -> option (list nat).

(** What numpy guarantees of a draw that succeeds. *)
Definition draw_ok (a size : nat) (replace : bool) (indices : list nat)
  : Prop :=
  length indices = size
  /\ Forall (fun i => i < a) indices
  /\ (replace = false -> NoDup indices).

Definition draw (seed : Z) (a size : nat) (replace : bool)
  : outcome (list nat) :=
  match choice seed a size replace with
  | Some indices => Return indices
  | None => Throw ValueError
  end.

(** [TrainingSet.__init__(challenges, responses, N, random_seed)] *)
Definition TrainingSet_init (challenges : list (list Z)) (responses : list Z)
    (N : nat) (random_seed : Z) : outcome TrainingSet :=
  let challenge_count := length challenges in
  if negb (Nat.eqb challenge_count (length responses))
  then Throw AssertionError
  else
    indices <~ draw random_seed challenge_count N false ;;
    not_indices <~ np_delete (seq 0 challenge_count) indices ;;
    let integer := range_is_integer challenge_count in
    chs <~ take challenges indices ;;
    test_chs <~ take_as integer challenges not_indices ;;
    rs <~ take responses indices ;;
    test_rs <~ take_as integer responses not_indices ;;
    Return (mk_training_set chs test_chs rs test_rs N).

(** Whether [numpy.count_nonzero] returns a Python int, as numpy 1 does, or
    a numpy integer, as numpy 2 does. *)
Variable python_int_count : bool.

(** [self.model.eval] *)
Variable eval : list (list Z) -> list Z.

(** [model_responses == test_responses[indices]], with numpy's
    broadcasting. *)
Definition compare (a b : list Z) : outcome (list bool) :=
  match eq_broadcast a b with
  | Ok bits => Return bits
  | Raise _ => Throw ShapeMismatch
  end.

(** [approx_distance(self)], on the training set and the seed of [self].
    The arithmetic of the returned value is kept exact.  With [num = 0] the
    quotient is one of Python ints, which raises, or one with a numpy
    integer, which is NaN. *)
Definition approx_distance (traning_set : TrainingSet) (seed_chl_distance : Z)
  : outcome mean_value :=
  let challenge_count := length (test_challenges traning_set) in
  indices <~ draw seed_chl_distance challenge_count challenge_count true ;;
  chs <~ take (test_challenges traning_set) indices ;;
  let model_responses := eval chs in
  let num := length model_responses in
  rs <~ take (test_responses traning_set) indices ;;
  bits <~ compare model_responses rs ;;
  if Nat.eqb num 0
  then (if python_int_count then Throw ZeroDivisionError else Return MeanNaN)
  else Return (Ratio (1 - inject_Z (Z.of_nat num - Z.of_nat (count_true bits))
                          / inject_Z (Z.of_nat num)))%Q.

End Experiment.

(** The entries of [l] at the listed positions that exist. *)
Definition gather {A : Type} (l : list A) (indices : list nat) : list A :=
  flat_map (fun i => match nth_error l i with Some x => [x] | None => [] end)
           indices.

End FromFile.

Module FileExamples.

(** Four pairs of a challenge and a response. *)
Definition file_challenges : list (list Z) :=
  [[1; 1]; [1; -1]; [-1; 1]; [-1; -1]]%Z.

Definition file_responses : list Z := [1; -1; -1; 1]%Z.

(** A generator that draws the numbers below [a] from the top, [size] of
    them, and refuses to draw more than there are. *)
Definition choice_top (seed : Z) (a size : nat) (replace : bool)
  : option (list nat) :=
  if Nat.leb size a
  then Some (map (fun i => a - 1 - i) (seq 0 size))
  else None.

(** A model that answers 1 to every challenge. *)
Definition eval_one (cs : list (list Z)) : list Z := map (fun _ => 1%Z) cs.

End FileExamples.

(** * Properties *)

(** ** Rows of signed bits *)

Ltac split_eq_dec :=
  repeat match goal with
         | |- context [Z.eq_dec ?a ?b] => destruct (Z.eq_dec a b)
         end.

Lemma int8_small (z : Z) : (-128 <= z < 128)%Z -> int8 z = z.
Proof.
  intros H. unfold int8.
  rewrite Z.mod_small by lia. lia.
Qed.

Lemma int8_pm1 (row : list Z) : Forall pm1 row -> map int8 row = row.
Proof.
  induction 1 as [|z row Hz _ IH]; simpl; [reflexivity|].
  rewrite IH. f_equal. apply int8_small. destruct Hz; subst; lia.
Qed.

Lemma count_cons (v z : Z) (row : list Z) :
  count v (z :: row) = ((if Z.eq_dec z v then 1 else 0) + count v row)%Z.
Proof.
  unfold count. simpl. destruct (Z.eq_dec z v); lia.
Qed.

Lemma count_nonneg (v : Z) (row : list Z) : (0 <= count v row)%Z.
Proof. unfold count. lia. Qed.

Lemma count_pm1 (row : list Z) :
  Forall pm1 row -> (count 1 row + count (-1) row = Z.of_nat (length row))%Z.
Proof.
  induction 1 as [|z row Hz _ IH].
  - reflexivity.
  - rewrite !count_cons. cbn [length].
    destruct Hz; subst; split_eq_dec; lia.
Qed.

Lemma sum_recoded (to01 : Z -> Z) (row : list Z) :
  Forall pm1 row ->
  Np.sum (map to01 row) = (to01 1 * count 1 row + to01 (-1) * count (-1) row)%Z.
Proof.
  induction 1 as [|z row Hz _ IH].
  - unfold count. simpl. lia.
  - cbn [map Np.sum fold_right]. fold (Np.sum (map to01 row)).
    rewrite IH, !count_cons. destruct Hz; subst; split_eq_dec; lia.
Qed.

Lemma sum_all_ones (row : list Z) :
  Forall pm1 row -> existsb (Z.eqb (-1)) row = false -> Np.sum row = count 1 row.
Proof.
  induction 1 as [|z row Hz _ IH]; intros Hno.
  - reflexivity.
  - cbn [existsb] in Hno. apply orb_false_iff in Hno as [Hz' Hno].
    cbn [Np.sum fold_right]. fold (Np.sum row).
    rewrite IH, count_cons by assumption.
    destruct Hz; subst; [split_eq_dec; lia | discriminate].
Qed.

Lemma half_distance_mirror (R : nat) (a b : Z) :
  (a + b = Z.of_nat R)%Z -> (half_distance R b == half_distance R a)%Q.
Proof.
  intros H. unfold half_distance.
  rewrite <- (Qabs_opp (inject_Z (Z.of_nat R) / 2 - inject_Z a)).
  apply Qabs_wd. rewrite <- H, inject_Z_plus. field.
Qed.

(** The row sum the code computes from a row of signed bits gives the
    value of the specification, whichever recoding is in use and whether
    the recoding is applied or not. *)
Lemma half_distance_recoded (to01 : Z -> Z) (row : list Z) :
  recodes_bits to01 -> Forall pm1 row ->
  (half_distance (length row) (Np.sum (map to01 row))
   == spec_reliability (length row) row)%Q.
Proof.
  intros Hrec Hrow. rewrite sum_recoded by assumption.
  pose proof (count_pm1 Hrow) as Hc.
  destruct Hrec as [[-> ->] | [-> ->]].
  - replace (1 * count 1 row + 0 * count (-1) row)%Z with (count 1 row) by lia.
    reflexivity.
  - replace (0 * count 1 row + 1 * count (-1) row)%Z with (count (-1) row) by lia.
    apply half_distance_mirror. exact Hc.
Qed.

Lemma contains_false_row (v : Z) (m : ndarray2) (row : list Z) :
  contains v m = false -> In row (rows m) -> existsb (Z.eqb v) row = false.
Proof.
  unfold contains. intros H Hin.
  destruct (existsb (Z.eqb v) row) eqn:E; [|reflexivity].
  rewrite <- H. symmetry. apply existsb_exists. exists row. auto.
Qed.

Lemma astype_int8_pm1 (m : ndarray2) : entries pm1 m -> astype_int8 m = m.
Proof.
  destruct m as [R rs]. unfold entries, astype_int8, amap. simpl.
  intros H. f_equal.
  induction H as [|r rs Hr _ IH]; simpl; [reflexivity|].
  rewrite IH, int8_pm1 by assumption. reflexivity.
Qed.

(** What [reliabilities_puf] computes for row [i] of a signed matrix. *)
Lemma reliabilities_puf_row (to01 : Z -> Z) (m : ndarray2) (i : nat) (row : list Z) :
  recodes_bits to01 -> well_shaped m -> entries pm1 m ->
  nth_error (rows m) i = Some row ->
  exists r, nth_error (reliabilities_puf to01 m) i = Some r
            /\ (r == spec_reliability (ncols m) row)%Q.
Proof.
  intros Hrec Hshape Hent Hi.
  assert (Hin : In row (rows m)) by (eapply nth_error_In; eauto).
  assert (Hlen : length row = ncols m).
  { unfold well_shaped in Hshape. rewrite Forall_forall in Hshape. auto. }
  assert (Hrow : Forall pm1 row).
  { unfold entries in Hent. rewrite Forall_forall in Hent. auto. }
  unfold reliabilities_puf. rewrite (astype_int8_pm1 Hent).
  destruct (contains (-1) m) eqn:Hc.
  - unfold transform_challenge_11_to_01, sum_axis1, amap. cbn [rows ncols].
    rewrite !map_map.
    eexists. split.
    + rewrite nth_error_map, Hi. reflexivity.
    + rewrite <- Hlen. apply half_distance_recoded; assumption.
  - unfold sum_axis1. rewrite map_map.
    eexists. split.
    + rewrite nth_error_map, Hi. reflexivity.
    + rewrite (sum_all_ones Hrow (contains_false_row _ _ _ Hc Hin)).
      reflexivity.
Qed.

Lemma reliabilities_puf_length (to01 : Z -> Z) (m : ndarray2) :
  length (reliabilities_puf to01 m) = length (rows m).
Proof.
  unfold reliabilities_puf, sum_axis1.
  destruct (contains (-1) (astype_int8 m));
    unfold transform_challenge_11_to_01, astype_int8, amap; cbn [rows ncols];
    now rewrite ?length_map.
Qed.

(** ** Reordering the measurements *)

Lemma map_nth_seq (row : list Z) :
  map (fun i => nth i row 0%Z) (seq 0 (length row)) = row.
Proof.
  induction row as [|z row IH]; [reflexivity|].
  cbn [length seq map nth]. f_equal.
  rewrite <- seq_shift, map_map. exact IH.
Qed.

Lemma reorder_row_perm (p : list nat) (row : list Z) :
  Permutation p (seq 0 (length row)) -> Permutation (reorder_row p row) row.
Proof.
  intros Hp. unfold reorder_row.
  eapply perm_trans; [apply Permutation_map; exact Hp|].
  rewrite map_nth_seq. apply Permutation_refl.
Qed.

Lemma sum_perm (a b : list Z) : Permutation a b -> Np.sum a = Np.sum b.
Proof.
  unfold Np.sum. induction 1; simpl; lia.
Qed.

Lemma existsb_perm (f : Z -> bool) (a b : list Z) :
  Permutation a b -> existsb f a = existsb f b.
Proof.
  induction 1; simpl.
  - reflexivity.
  - now rewrite IHPermutation.
  - now rewrite !orb_assoc, (orb_comm (f y)).
  - congruence.
Qed.

Lemma contains_reorder (f : Z -> Z) (v : Z) (p : list nat) (m : ndarray2) :
  well_shaped m -> Permutation p (seq 0 (ncols m)) ->
  contains v (amap f (reorder p m)) = contains v (amap f m).
Proof.
  destruct m as [R rs]. unfold well_shaped, contains, amap, reorder.
  cbn [rows ncols]. intros Hshape Hp.
  induction Hshape as [|row rs Hlen _ IH]; [reflexivity|].
  cbn [map existsb]. rewrite IH. f_equal.
  apply existsb_perm, Permutation_map, reorder_row_perm. now rewrite Hlen.
Qed.

Lemma sums_reorder (f : Z -> Z) (p : list nat) (m : ndarray2) :
  well_shaped m -> Permutation p (seq 0 (ncols m)) ->
  sum_axis1 (amap f (reorder p m)) = sum_axis1 (amap f m).
Proof.
  destruct m as [R rs]. unfold well_shaped, sum_axis1, amap, reorder.
  cbn [rows ncols]. intros Hshape Hp.
  induction Hshape as [|row rs Hlen _ IH]; [reflexivity|].
  cbn [map]. rewrite IH. f_equal.
  apply sum_perm, Permutation_map, reorder_row_perm. now rewrite Hlen.
Qed.

Lemma amap_amap (f g : Z -> Z) (m : ndarray2) :
  amap f (amap g m) = amap (fun z => f (g z)) m.
Proof.
  unfold amap. cbn [rows ncols]. f_equal.
  rewrite map_map. apply map_ext. intros row. apply map_map.
Qed.

Lemma reliabilities_puf_reorder (to01 : Z -> Z) (p : list nat) (m : ndarray2) :
  well_shaped m -> Permutation p (seq 0 (ncols m)) ->
  reliabilities_puf to01 (reorder p m) = reliabilities_puf to01 m.
Proof.
  intros Hshape Hp. unfold reliabilities_puf, astype_int8.
  rewrite (contains_reorder int8 (-1) Hshape Hp).
  destruct (contains (-1) (amap int8 m)).
  - unfold transform_challenge_11_to_01. rewrite !amap_amap.
    now rewrite (sums_reorder _ Hshape Hp).
  - now rewrite (sums_reorder _ Hshape Hp).
Qed.

(** ** Values of the reliability on particular rows *)

Lemma count_all (v : Z) (row : list Z) :
  Forall (eq v) row -> count v row = Z.of_nat (length row).
Proof.
  induction 1 as [|z row Hz _ IH].
  - reflexivity.
  - rewrite count_cons, IH. subst z. cbn [length]. split_eq_dec; lia.
Qed.

Lemma count_none (v u : Z) (row : list Z) :
  u <> v -> Forall (eq u) row -> count v row = 0%Z.
Proof.
  intros Hne. induction 1 as [|z row Hz _ IH].
  - reflexivity.
  - rewrite count_cons, IH. subst z. split_eq_dec; lia.
Qed.

Lemma Qhalf_of_double (c : Z) : (inject_Z (c + c) / 2 == inject_Z c)%Q.
Proof. rewrite inject_Z_plus. field. Qed.

Lemma spec_reliability_unanimous (row : list Z) :
  Forall (eq 1%Z) row \/ Forall (eq (-1)%Z) row ->
  (spec_reliability (length row) row == inject_Z (Z.of_nat (length row)) / 2)%Q.
Proof.
  unfold spec_reliability. intros [H | H].
  - rewrite (count_all H).
    setoid_replace (inject_Z (Z.of_nat (length row)) / 2
                    - inject_Z (Z.of_nat (length row)))%Q
      with (- (inject_Z (Z.of_nat (length row)) / 2))%Q by field.
    rewrite Qabs_opp. apply Qabs_pos.
    apply Qle_shift_div_l; [reflexivity|].
    rewrite Qmult_0_l. rewrite <- (Zle_Qle 0). lia.
  - rewrite (@count_none 1 (-1) row) by (assumption || lia).
    setoid_replace (inject_Z (Z.of_nat (length row)) / 2 - inject_Z 0)%Q
      with (inject_Z (Z.of_nat (length row)) / 2)%Q by field.
    apply Qabs_pos.
    apply Qle_shift_div_l; [reflexivity|].
    rewrite Qmult_0_l. rewrite <- (Zle_Qle 0). lia.
Qed.

Lemma spec_reliability_split (row : list Z) :
  Forall pm1 row -> count 1 row = count (-1) row ->
  (spec_reliability (length row) row == 0)%Q.
Proof.
  intros Hrow Heq. unfold spec_reliability.
  rewrite <- (count_pm1 Hrow), <- Heq, Qhalf_of_double.
  setoid_replace (inject_Z (count 1 row) - inject_Z (count 1 row))%Q with 0%Q
    by ring.
  reflexivity.
Qed.

(** C3: on a response matrix of shape (N, R) with entries -1/+1,
    [reliabilities_puf] returns one value per row, equal to
    |R/2 - (number of +1 entries of the row)|; that value is not negative,
    it is R/2 on a unanimous row and 0 on a row split half and half, and the
    whole result is unchanged when the R measurements are reordered in the
    same way in every row. *)
Theorem reliabilities_puf_spec (to01 : Z -> Z) (m : ndarray2) :
  recodes_bits to01 -> well_shaped m -> entries pm1 m ->
  length (reliabilities_puf to01 m) = length (rows m)
  /\ (forall i row, nth_error (rows m) i = Some row ->
        exists r, nth_error (reliabilities_puf to01 m) i = Some r
          /\ (r == spec_reliability (ncols m) row)%Q
          /\ (0 <= r)%Q
          /\ (Forall (eq 1%Z) row \/ Forall (eq (-1)%Z) row ->
              (r == inject_Z (Z.of_nat (ncols m)) / 2)%Q)
          /\ (count 1 row = count (-1) row -> (r == 0)%Q))
  /\ (forall p, Permutation p (seq 0 (ncols m)) ->
        reliabilities_puf to01 (reorder p m) = reliabilities_puf to01 m).
Proof.
  intros Hrec Hshape Hent. split; [apply reliabilities_puf_length|]. split.
  - intros i row Hi.
    destruct (reliabilities_puf_row i Hrec Hshape Hent Hi) as (r & Hr & Heq).
    assert (Hin : In row (rows m)) by (eapply nth_error_In; eauto).
    assert (Hlen : length row = ncols m).
    { unfold well_shaped in Hshape. rewrite Forall_forall in Hshape. auto. }
    assert (Hrow : Forall pm1 row).
    { unfold entries in Hent. rewrite Forall_forall in Hent. auto. }
    exists r. repeat split; try assumption.
    + rewrite Heq. apply Qabs_nonneg.
    + intros Hu. rewrite Heq, <- Hlen. now apply spec_reliability_unanimous.
    + intros Hs. rewrite Heq, <- Hlen. now apply spec_reliability_split.
  - intros p Hp. now apply reliabilities_puf_reorder.
Qed.

Lemma test_responses_signed : entries pm1 test_responses.
Proof.
  unfold entries, test_responses, pm1. cbn [rows].
  repeat (constructor; [repeat (constructor; [lia|]); constructor|]).
  constructor.
Qed.

Lemma test_responses_shaped : well_shaped test_responses.
Proof.
  unfold well_shaped, test_responses. cbn [rows ncols].
  repeat (constructor; [reflexivity|]). constructor.
Qed.

Lemma reliabilities_puf_spec_witness :
  recodes_bits minus_is_one /\ well_shaped test_responses
  /\ entries pm1 test_responses
  /\ length (reliabilities_puf minus_is_one test_responses) = 4
  /\ reliabilities_puf minus_is_one (reorder [3; 0; 2; 1] test_responses)
     = reliabilities_puf minus_is_one test_responses.
Proof.
  assert (Hrec : recodes_bits minus_is_one) by (right; split; reflexivity).
  destruct (reliabilities_puf_spec Hrec test_responses_shaped
              test_responses_signed) as (Hlen & _ & Hperm).
  split; [exact Hrec|]. split; [exact test_responses_shaped|].
  split; [exact test_responses_signed|]. split; [exact Hlen|].
  apply Hperm. cbn [ncols test_responses seq].
  apply Permutation_sym.
  apply perm_trans with (l' := [3; 0; 1; 2]).
  - change [0; 1; 2; 3] with ([0; 1; 2] ++ [3]).
    change [3; 0; 1; 2] with ([3] ++ [0; 1; 2]).
    apply Permutation_app_comm.
  - do 2 apply perm_skip. apply perm_swap.
Defined.

Example reliabilities_puf_test :
  map Qred (reliabilities_puf plus_is_one test_responses) = [2; 1; 0; 1]%Q
  /\ map Qred (reliabilities_puf minus_is_one test_responses) = [2; 1; 0; 1]%Q.
Proof. split; reflexivity. Qed.

(** ** The two encodings of the responses *)

Lemma encode01_row (row : list Z) :
  Forall pm1 row ->
  Np.sum (map int8 (map (fun z => if Z.eqb z 1 then 1 else 0)%Z row))
  = count 1 row
  /\ existsb (Z.eqb (-1))
       (map int8 (map (fun z => if Z.eqb z 1 then 1 else 0)%Z row)) = false.
Proof.
  induction 1 as [|z row Hz _ [IHs IHe]].
  - split; reflexivity.
  - cbn [map Np.sum fold_right existsb].
    fold (Np.sum (map int8 (map (fun z => if Z.eqb z 1 then 1 else 0)%Z row))).
    rewrite IHs, IHe, count_cons.
    destruct Hz; subst; split; split_eq_dec; try reflexivity; try lia.
Qed.

Lemma reliabilities_puf_encode01 (to01 : Z -> Z) (m : ndarray2) :
  entries pm1 m ->
  reliabilities_puf to01 (encode01 m) = map (spec_reliability (ncols m)) (rows m).
Proof.
  intros Hent. unfold reliabilities_puf.
  assert (Hc : contains (-1) (astype_int8 (encode01 m)) = false).
  { destruct m as [R rs]. unfold entries, contains, astype_int8, encode01, amap in *.
    cbn [rows ncols] in *.
    induction Hent as [|row rs Hrow _ IH]; [reflexivity|].
    cbn [map existsb]. rewrite IH.
    now rewrite (proj2 (encode01_row Hrow)). }
  rewrite Hc.
  destruct m as [R rs]. unfold entries, sum_axis1, astype_int8, encode01, amap in *.
  cbn [rows ncols] in *. clear Hc.
  induction Hent as [|row rs Hrow _ IH]; [reflexivity|].
  cbn [map]. rewrite IH. f_equal.
  unfold half_distance, spec_reliability.
  now rewrite (proj1 (encode01_row Hrow)).
Qed.

(** C10: both response encodings are accepted and give the same result: on
    a matrix M of shape (N, R) with entries -1/+1 (in particular one that
    contains a -1, so that the recoding branch is taken) the output equals,
    row by row, the output on the 0/1 matrix that writes 1 for +1 and 0
    for -1. *)
Theorem reliabilities_puf_encodings (to01 : Z -> Z) (m : ndarray2) :
  recodes_bits to01 -> well_shaped m -> entries pm1 m ->
  contains (-1) m = true ->
  Forall2 Qeq (reliabilities_puf to01 m) (reliabilities_puf to01 (encode01 m)).
Proof.
  intros Hrec Hshape Hent _.
  rewrite (reliabilities_puf_encode01 to01 Hent).
  pose proof (reliabilities_puf_length to01 m) as Hlen.
  assert (Hrows : forall i row, nth_error (rows m) i = Some row ->
            exists r, nth_error (reliabilities_puf to01 m) i = Some r
                      /\ (r == spec_reliability (ncols m) row)%Q).
  { intros i row Hi. now apply reliabilities_puf_row. }
  revert Hlen Hrows.
  generalize (reliabilities_puf to01 m) as out, (rows m) as rs, (ncols m) as R.
  induction out as [|r out IH]; intros [|row rs] R Hlen Hrows;
    try discriminate; [constructor|].
  constructor.
  - destruct (Hrows 0%nat row eq_refl) as (r' & Hr' & Heq).
    injection Hr' as <-. exact Heq.
  - apply IH; [now injection Hlen|].
    intros i row' Hi. exact (Hrows (S i) row' Hi).
Qed.

Lemma reliabilities_puf_encodings_witness :
  Forall2 Qeq (reliabilities_puf minus_is_one test_responses)
    (reliabilities_puf minus_is_one (encode01 test_responses)).
Proof.
  apply reliabilities_puf_encodings.
  - right; split; reflexivity.
  - exact test_responses_shaped.
  - exact test_responses_signed.
  - reflexivity.
Defined.

(** ** Binary64 facts

    The primitive operations are related to their specification on
    [spec_float] by the library's [*_spec] equations; zeros and NaN are
    handled by case analysis on the specification. *)

Lemma zero_or_nan_mul_r (a b : float) : zero_or_nan b -> zero_or_nan (a * b).
Proof.
  unfold zero_or_nan. rewrite mul_spec. unfold SF64mul, SFmul.
  destruct (Prim2SF b) as [sb|sb| |sb mb eb]; try tauto; intros _;
    destruct (Prim2SF a); exact I.
Qed.

Lemma zero_or_nan_add (a b : float) :
  zero_or_nan a -> zero_or_nan b -> zero_or_nan (a + b).
Proof.
  unfold zero_or_nan. rewrite add_spec. unfold SF64add, SFadd.
  destruct (Prim2SF a) as [sa|sa| |sa ma ea]; try tauto; intros _;
    destruct (Prim2SF b) as [sb|sb| |sb mb eb]; try tauto; intros _;
    try exact I.
  destruct sa, sb; exact I.
Qed.

Lemma zero_or_nan_sub (a b : float) :
  zero_or_nan a -> zero_or_nan b -> zero_or_nan (a - b).
Proof.
  unfold zero_or_nan. rewrite sub_spec. unfold SF64sub, SFsub.
  destruct (Prim2SF a) as [sa|sa| |sa ma ea]; try tauto; intros _;
    destruct (Prim2SF b) as [sb|sb| |sb mb eb]; try tauto; intros _;
    try exact I.
  destruct sa, sb; exact I.
Qed.

Lemma zero_or_nan_div_l (a b : float) : zero_or_nan a -> zero_or_nan (a / b).
Proof.
  unfold zero_or_nan. rewrite div_spec. unfold SF64div, SFdiv.
  destruct (Prim2SF a) as [sa|sa| |sa ma ea]; try tauto; intros _;
    destruct (Prim2SF b); exact I.
Qed.

Lemma zero_or_nan_sqrt (a : float) : zero_or_nan a -> zero_or_nan (sqrt a).
Proof.
  unfold zero_or_nan. rewrite sqrt_spec. unfold SF64sqrt, SFsqrt.
  destruct (Prim2SF a) as [sa|sa| |sa ma ea]; try tauto; intros _; exact I.
Qed.

Lemma zero_is_zero_or_nan : zero_or_nan 0%float.
Proof. exact I. Qed.

(** 0/0, 0/NaN, NaN/0 and NaN/NaN are all NaN. *)
Lemma div_degenerate (a b : float) :
  zero_or_nan a -> zero_or_nan b -> Prim2SF (a / b) = S754_nan.
Proof.
  unfold zero_or_nan. rewrite div_spec. unfold SF64div, SFdiv.
  destruct (Prim2SF a) as [sa|sa| |sa ma ea]; try tauto; intros _;
    destruct (Prim2SF b) as [sb|sb| |sb mb eb]; try tauto; reflexivity.
Qed.

Lemma is_nan_spec (a : float) : Prim2SF a = S754_nan -> PrimFloat.is_nan a = true.
Proof.
  intros H. unfold PrimFloat.is_nan. rewrite eqb_spec, H. reflexivity.
Qed.

Ltac compare_cases :=
  repeat match goal with
  | H : context [(?a ?= ?b)%Z] |- _ => destruct (Z.compare_spec a b); subst
  | |- context [(?a ?= ?b)%Z] => destruct (Z.compare_spec a b); subst
  | H : context [Pos.compare_cont Eq ?a ?b] |- _ =>
      change (Pos.compare_cont Eq a b) with (Pos.compare a b) in H
  | |- context [Pos.compare_cont Eq ?a ?b] =>
      change (Pos.compare_cont Eq a b) with (Pos.compare a b)
  | H : context [(?a ?= ?b)%positive] |- _ =>
      destruct (Pos.compare_spec a b); subst
  | |- context [(?a ?= ?b)%positive] => destruct (Pos.compare_spec a b); subst
  end.

Lemma is_nan_iff (a : float) :
  PrimFloat.is_nan a = true <-> Prim2SF a = S754_nan.
Proof.
  split; [|apply is_nan_spec].
  unfold PrimFloat.is_nan. rewrite eqb_spec. unfold SFeqb.
  destruct (Prim2SF a) as [s|s| |s m e]; cbn [SFcompare negb];
    try discriminate; try reflexivity.
  - destruct s; discriminate.
  - rewrite Z.compare_refl.
    change (Pos.compare_cont Eq m m) with (Pos.compare m m).
    rewrite Pos.compare_refl. destruct s; discriminate.
Qed.

Lemma is_nan_abs (a : float) : PrimFloat.is_nan (abs a) = PrimFloat.is_nan a.
Proof.
  apply eq_true_iff_eq. rewrite !is_nan_iff, abs_spec.
  destruct (Prim2SF a); cbn [SFabs]; split; congruence.
Qed.

Lemma SFcompare_antisym (a b : spec_float) :
  SFcompare b a = option_map CompOpp (SFcompare a b).
Proof.
  destruct a as [sa|sa| |sa ma ea], b as [sb|sb| |sb mb eb];
    cbn [SFcompare option_map]; try reflexivity;
    try (destruct sa; reflexivity); try (destruct sb; reflexivity);
    try (destruct sa, sb; reflexivity).
  destruct sa, sb; cbn [CompOpp]; try reflexivity;
    change (Pos.compare_cont Eq mb ma) with (Pos.compare mb ma);
    change (Pos.compare_cont Eq ma mb) with (Pos.compare ma mb);
    rewrite (Z.compare_antisym ea eb), (Pos.compare_antisym ma mb);
    destruct (ea ?= eb)%Z; cbn [CompOpp]; try reflexivity;
    destruct (ma ?= mb)%positive; reflexivity.
Qed.

Lemma SFcompare_none (a b : spec_float) :
  SFcompare a b = None <-> a = S754_nan \/ b = S754_nan.
Proof.
  destruct a as [sa|sa| |sa ma ea], b as [sb|sb| |sb mb eb];
    cbn [SFcompare]; split; intros H; try discriminate; auto;
    destruct H; discriminate.
Qed.

(** [tf.math.greater(a, b)] is false when one side is NaN or [a <= b]. *)
Lemma not_greater (a b : float) :
  Tf.greater a b = false
  <-> PrimFloat.is_nan a = true \/ PrimFloat.is_nan b = true
      \/ PrimFloat.leb a b = true.
Proof.
  unfold Tf.greater. rewrite ltb_spec, leb_spec, !is_nan_iff.
  unfold SFltb, SFleb. rewrite (SFcompare_antisym (Prim2SF a) (Prim2SF b)).
  pose proof (SFcompare_none (Prim2SF a) (Prim2SF b)) as Hnone.
  destruct (SFcompare (Prim2SF a) (Prim2SF b)) as [[| |]|];
    cbn [option_map CompOpp].
  - split; auto.
  - split; auto.
  - split; [discriminate|]. intros [H | [H | H]]; try discriminate;
      exfalso; assert (Hn : @Some comparison Gt = None)
        by (apply Hnone; auto); discriminate.
  - split; [|reflexivity]. intros _.
    destruct (proj1 Hnone eq_refl); auto.
Qed.

Lemma abs_one_minus_nan (a : float) :
  Prim2SF a = S754_nan -> Prim2SF (abs (1 - a)) = S754_nan.
Proof.
  intros H. rewrite abs_spec, sub_spec, H. reflexivity.
Qed.

Lemma reduce_sum_zero_or_nan (v : list float) :
  Forall zero_or_nan v -> zero_or_nan (Tf.reduce_sum v).
Proof.
  unfold Tf.reduce_sum. generalize zero_is_zero_or_nan.
  generalize 0%float as acc. intros acc Hacc H. revert acc Hacc.
  induction H as [|a v Ha _ IH]; intros acc Hacc; [exact Hacc|].
  cbn [fold_left]. apply IH. now apply zero_or_nan_add.
Qed.

(** ** The objective on well-shaped tensors *)

Lemma mapM_ok (A B : Type) (f : A -> result B) (l : list A) :
  Forall (fun a => exists b, f a = Ok b) l ->
  exists bs, mapM f l = Ok bs
    /\ length bs = length l
    /\ forall j a, nth_error l j = Some a ->
         exists b, nth_error bs j = Some b /\ f a = Ok b.
Proof.
  induction 1 as [|a l [b Hb] _ (bs & Hbs & Hlen & Hnth)].
  - exists []. repeat split; auto. intros [|j] a H; discriminate.
  - exists (b :: bs). cbn [mapM]. rewrite Hb, Hbs. repeat split.
    + cbn [length]. now rewrite Hlen.
    + intros [|j] a' H; cbn [nth_error] in *.
      * injection H as <-. eauto.
      * auto.
Qed.

Lemma center_length (v : list float) : length (center v) = length v.
Proof. unfold center. apply length_map. Qed.

Lemma tensordot_ok (a b : list float) :
  length a = length b -> exists r, Tf.tensordot a b = Ok r.
Proof.
  intros H. unfold Tf.tensordot. rewrite H, Nat.eqb_refl. eauto.
Qed.

Lemma delay_diffs_ok (n : nat) (chal : list (list float)) (w : list float) :
  Forall (fun c => length c = n) chal -> length w = n ->
  exists d, delay_diffs chal w = Ok d /\ length d = length chal.
Proof.
  intros Hchal Hw. unfold delay_diffs.
  destruct (@mapM_ok _ _ (fun c => Tf.tensordot w c) chal) as (d & Hd & Hlen & _).
  - eapply Forall_impl; [|exact Hchal]. cbv beta. intros c Hc.
    apply tensordot_ok. congruence.
  - eauto.
Qed.

Lemma model_reliabilities_ok (n : nat) (chal : list (list float))
    (cand : list float) :
  Forall (fun c => length c = n) chal -> length cand = S n ->
  exists x, model_reliabilities n chal cand = Ok x /\ length x = length chal.
Proof.
  intros Hchal Hcand. unfold model_reliabilities, last_entry.
  destruct cand as [|c0 cand']; [discriminate|]. cbn [bind].
  destruct (@delay_diffs_ok n chal (firstn n (c0 :: cand')) Hchal)
    as (d & Hd & Hlen).
  { rewrite length_firstn, Hcand. lia. }
  unfold chain_reliabilities. rewrite Hd. cbn [bind].
  eexists. split; [reflexivity|].
  unfold reliabilities_model. now rewrite length_map.
Qed.

Lemma tf_pearsonr_ok (x y : list float) :
  length x = length y -> exists corr, tf_pearsonr x y = Ok corr.
Proof.
  intros H. unfold tf_pearsonr.
  destruct (@tensordot_ok (center y) (center x)) as [c Hc].
  { now rewrite !center_length. }
  rewrite Hc. cbn [bind]. eauto.
Qed.

Lemma objective1_ok (n : nat) (chal : list (list float)) (y cand : list float) :
  Forall (fun c => length c = n) chal -> length y = length chal ->
  length cand = S n ->
  exists r, objective1 n chal y cand = Ok r.
Proof.
  intros Hchal Hy Hcand. unfold objective1.
  destruct (@model_reliabilities_ok n chal cand Hchal Hcand) as (x & Hx & Hlen).
  rewrite Hx. cbn [bind].
  destruct (@tf_pearsonr_ok x y) as [corr Hcorr]; [congruence|].
  rewrite Hcorr. cbn [bind]. eauto.
Qed.

(** ** Zero variance of the modelled reliability *)

Lemma products_zero_or_nan (a b : list float) :
  Forall zero_or_nan b ->
  Forall zero_or_nan (map (fun p => (fst p * snd p)%float) (combine a b)).
Proof.
  intros Hb. revert a. induction Hb as [|z b Hz _ IH]; intros [|a0 a];
    cbn [combine map]; constructor.
  - cbn [fst snd]. now apply zero_or_nan_mul_r.
  - apply IH.
Qed.

Lemma squares_zero_or_nan (v : list float) :
  Forall zero_or_nan v -> Forall zero_or_nan (map Tf.square v).
Proof.
  induction 1 as [|a v Ha _ IH]; cbn [map]; constructor; [|exact IH].
  unfold Tf.square. now apply zero_or_nan_mul_r.
Qed.

Lemma zero_or_nan_mul_l (a b : float) : zero_or_nan a -> zero_or_nan (a * b).
Proof.
  unfold zero_or_nan. rewrite mul_spec. unfold SF64mul, SFmul.
  destruct (Prim2SF a) as [sa|sa| |sa ma ea]; try tauto; intros _;
    destruct (Prim2SF b); exact I.
Qed.

(** With a centred column of zeros, [tf_pearsonr] divides a zero by a zero. *)
Lemma tf_pearsonr_degenerate (x y : list float) (corr : float) :
  Forall zero_or_nan (center x) -> tf_pearsonr x y = Ok corr ->
  Prim2SF corr = S754_nan.
Proof.
  intros Hx. unfold tf_pearsonr, Tf.tensordot.
  destruct (Nat.eqb (length (center y)) (length (center x))); [|discriminate].
  cbn [bind]. intros H. injection H as <-.
  apply div_degenerate.
  - apply reduce_sum_zero_or_nan, products_zero_or_nan, Hx.
  - apply zero_or_nan_sqrt, zero_or_nan_mul_l, reduce_sum_zero_or_nan,
      squares_zero_or_nan, Hx.
Qed.

(** A column that marks every challenge unreliable has a centred column of
    zeros (of NaN when there is no challenge at all). *)
Lemma center_all_unreliable (x : list float) :
  Forall (eq 0%float) x -> Forall zero_or_nan (center x).
Proof.
  intros Hx. unfold center.
  assert (Hm : zero_or_nan (Tf.reduce_mean x)).
  { unfold Tf.reduce_mean. apply zero_or_nan_div_l, reduce_sum_zero_or_nan.
    eapply Forall_impl; [|exact Hx]. intros a <-. exact I. }
  revert Hm. generalize (Tf.reduce_mean x) as m. intros m Hm.
  induction Hx as [|a x Ha _ IH]; cbn [map]; constructor; [|exact IH].
  subst a. apply zero_or_nan_sub; [exact I | exact Hm].
Qed.

(** C1, as the code behaves: on well-shaped tensors [objective] returns one
    value per candidate and raises nothing; for a candidate whose modelled
    reliability has zero variance as computed (its centred column is zero:
    in particular when every challenge is marked unreliable) that value is
    NaN, the quotient 0/0 of [tf_pearsonr]; there is no fallback. *)
Theorem objective_degenerate_nan (n : nat) (chal : list (list float))
    (y : list float) (state : list (list float)) :
  Forall (fun c => length c = n) chal ->
  length y = length chal ->
  Forall (fun cand => length cand = S n) state ->
  exists out, objective n chal y state = Ok out
    /\ length out = length state
    /\ forall j cand x,
         nth_error state j = Some cand ->
         model_reliabilities n chal cand = Ok x ->
         Forall (eq 0%float) x \/ Forall zero_or_nan (center x) ->
         exists r, nth_error out j = Some r /\ PrimFloat.is_nan r = true.
Proof.
  intros Hchal Hy Hstate. unfold objective.
  destruct (@mapM_ok _ _ (objective1 n chal y) state) as (out & Hout & Hlen & Hnth).
  { eapply Forall_impl; [|exact Hstate]. cbv beta. intros cand Hcand.
    now apply objective1_ok. }
  exists out. split; [exact Hout|]. split; [exact Hlen|].
  intros j cand x Hj Hx Hdeg.
  destruct (Hnth j cand Hj) as (r & Hr & Hobj).
  exists r. split; [exact Hr|].
  unfold objective1 in Hobj. rewrite Hx in Hobj. cbn [bind] in Hobj.
  destruct (tf_pearsonr x y) as [corr|e] eqn:Hcorr; [|discriminate].
  cbn [bind] in Hobj. injection Hobj as <-.
  apply is_nan_spec, abs_one_minus_nan.
  apply (@tf_pearsonr_degenerate x y); [|exact Hcorr].
  destruct Hdeg as [H0 | Hc]; [now apply center_all_unreliable | exact Hc].
Qed.

Lemma objective_degenerate_nan_witness :
  exists out,
    objective 2 Examples.challenges4 Examples.rels4
      [Examples.all_unreliable; Examples.varied] = Ok out
    /\ exists r, nth_error out 0 = Some r /\ PrimFloat.is_nan r = true.
Proof.
  destruct (@objective_degenerate_nan 2 Examples.challenges4 Examples.rels4
              [Examples.all_unreliable; Examples.varied])
    as (out & Hout & _ & Hnan).
  - repeat (constructor; [reflexivity|]). constructor.
  - reflexivity.
  - repeat (constructor; [reflexivity|]). constructor.
  - exists out. split; [exact Hout|].
    apply (Hnan 0%nat Examples.all_unreliable [0; 0; 0; 0]%float).
    + reflexivity.
    + reflexivity.
    + left. repeat (constructor; [reflexivity|]). constructor.
Defined.

(** C1 fails as stated: for a candidate that marks every challenge
    unreliable, and for one that marks every challenge reliable, the
    objective is NaN and not the fallback value 1; a candidate with a
    varying modelled reliability gets an ordinary value. *)
Lemma objective_no_fallback :
  nan_flags (objective 2 Examples.challenges4 Examples.rels4
               [Examples.all_unreliable; Examples.varied; Examples.all_reliable])
  = [true; false; true]
  /\ fallback_flags (objective 2 Examples.challenges4 Examples.rels4
               [Examples.all_unreliable; Examples.varied; Examples.all_reliable])
  = [false; false; false].
Proof. split; vm_compute; reflexivity. Qed.

(** ** Negation and rounding

    Rounding to nearest even is symmetric: the sign is carried along by the
    rounding functions of the specification. *)

Lemma binary_round_aux_opp (s : bool) (m e : Z) (l : location) :
  binary_round_aux prec emax (negb s) m e l
  = SFopp (binary_round_aux prec emax s m e l).
Proof.
  unfold binary_round_aux.
  destruct (shr_fexp prec emax m e l) as [mrs' e'].
  destruct (shr_fexp prec emax _ e' loc_Exact) as [mrs'' e''].
  destruct (shr_m mrs''); cbn [SFopp]; try reflexivity.
  destruct (e'' <=? emax - prec)%Z; reflexivity.
Qed.

Lemma binary_round_opp (s : bool) (m : positive) (e : Z) :
  binary_round prec emax (negb s) m e = SFopp (binary_round prec emax s m e).
Proof.
  unfold binary_round.
  destruct (shl_align m e _) as [mz ez]. apply binary_round_aux_opp.
Qed.

Lemma binary_normalize_opp (z e : Z) :
  mirror_sf (binary_normalize prec emax (- z) e false)
            (binary_normalize prec emax z e false).
Proof.
  destruct z as [|p|p]; cbn [Z.opp binary_normalize].
  - right. split; exact I.
  - left. apply (binary_round_opp false).
  - left. apply (binary_round_opp true).
Qed.

Lemma SFmul_opp_l (x y : spec_float) :
  SF64mul (SFopp x) y = SFopp (SF64mul x y).
Proof.
  unfold SF64mul, SFmul.
  destruct x as [s|s| |s m e], y as [s'|s'| |s' m' e']; cbn [SFopp];
    rewrite <- ?negb_xorb_l; try reflexivity.
  apply binary_round_aux_opp.
Qed.

Lemma mirror_mul_opp (a c : float) : mirror (- a * c) (a * c).
Proof.
  unfold mirror. left. rewrite !mul_spec, opp_spec. apply SFmul_opp_l.
Qed.

Lemma cond_Zopp_negb (s s' : bool) (x y : Z) :
  (cond_Zopp (negb s) x + cond_Zopp (negb s') y
   = - (cond_Zopp s x + cond_Zopp s' y))%Z.
Proof. destruct s, s'; cbn [cond_Zopp negb]; lia. Qed.

Lemma mirror_sf_add (a a' b b' : spec_float) :
  mirror_sf a b -> mirror_sf a' b' ->
  mirror_sf (SF64add a a') (SF64add b b').
Proof.
  unfold mirror_sf at 1 2.
  intros [-> | [Ha Hb]] [-> | [Ha' Hb']].
  - destruct b as [s|s| |s m e], b' as [s'|s'| |s' m' e'];
      try (left; reflexivity);
      try (destruct s, s'; (left; reflexivity) || (right; split; exact I)).
    unfold SF64add, SFadd. cbn [SFopp]. rewrite cond_Zopp_negb.
    apply binary_normalize_opp.
  - destruct a' as [sa| | |]; try tauto. destruct b' as [sb| | |]; try tauto.
    destruct b as [s|s| |s m e]; try (left; reflexivity).
    right. cbn. destruct (negb s), s, sa, sb; split; exact I.
  - destruct a as [sa| | |]; try tauto. destruct b as [sb| | |]; try tauto.
    destruct b' as [s|s| |s m e]; try (left; reflexivity).
    right. cbn. destruct (negb s), s, sa, sb; split; exact I.
  - destruct a as [sa| | |]; try tauto. destruct b as [sb| | |]; try tauto.
    destruct a' as [sa'| | |]; try tauto. destruct b' as [sb'| | |]; try tauto.
    right. cbn. destruct sa, sa', sb, sb'; split; exact I.
Qed.

Lemma mirror_add (a a' b b' : float) :
  mirror a b -> mirror a' b' -> mirror (a + a') (b + b').
Proof.
  unfold mirror. rewrite !add_spec. apply mirror_sf_add.
Qed.

Lemma mirror_abs (a b : float) : mirror a b -> abs a = abs b.
Proof.
  unfold mirror, mirror_sf. intros H. apply Prim2SF_inj. rewrite !abs_spec.
  destruct H as [-> | [Ha Hb]].
  - destruct (Prim2SF b); reflexivity.
  - destruct (Prim2SF a), (Prim2SF b); tauto || reflexivity.
Qed.

Lemma mirror_fold (l l' : list float) (acc acc' : float) :
  Forall2 mirror l l' -> mirror acc acc' ->
  mirror (fold_left PrimFloat.add l acc) (fold_left PrimFloat.add l' acc').
Proof.
  intros H. revert acc acc'.
  induction H as [|a b l l' Hab _ IH]; intros acc acc' Hacc; [exact Hacc|].
  cbn [fold_left]. apply IH. now apply mirror_add.
Qed.

Lemma mirror_products (w c : list float) :
  Forall2 mirror
    (map (fun p => (fst p * snd p)%float) (combine (map PrimFloat.opp w) c))
    (map (fun p => (fst p * snd p)%float) (combine w c)).
Proof.
  revert c. induction w as [|a w IH]; intros [|z c]; cbn [map combine];
    constructor.
  - cbn [fst snd]. apply mirror_mul_opp.
  - apply IH.
Qed.

(** The delay of a challenge under the negated weights is the opposite of
    its delay under the weights, up to the sign of a zero. *)
Lemma tensordot_opp (w c : list float) :
  match Tf.tensordot (map PrimFloat.opp w) c, Tf.tensordot w c with
  | Ok d', Ok d => mirror d' d
  | Raise e', Raise e => e' = e
  | _, _ => False
  end.
Proof.
  unfold Tf.tensordot. rewrite length_map.
  destruct (Nat.eqb (length w) (length c)); [|reflexivity].
  unfold Tf.reduce_sum. apply mirror_fold; [apply mirror_products|].
  right. split; exact I.
Qed.

(** Negating the whole weight vector leaves the modelled reliabilities of
    the chain unchanged, on every challenge set and for every epsilon. *)
Lemma chain_reliabilities_opp (chal : list (list float)) (w : list float)
    (epsilon : float) :
  chain_reliabilities chal (map PrimFloat.opp w) epsilon
  = chain_reliabilities chal w epsilon.
Proof.
  unfold chain_reliabilities, delay_diffs.
  induction chal as [|c chal IH]; [reflexivity|].
  cbn [mapM]. pose proof (tensordot_opp w c) as Hc.
  destruct (Tf.tensordot (map PrimFloat.opp w) c) as [d'|e'],
           (Tf.tensordot w c) as [d|e]; try tauto; [|now subst].
  cbn [bind] in *.
  destruct (mapM (fun c0 => Tf.tensordot (map PrimFloat.opp w) c0) chal)
    as [ds'|e'],
    (mapM (fun c0 => Tf.tensordot w c0) chal) as [ds|e];
    cbn [bind] in *; try discriminate; try assumption.
  injection IH as IH. f_equal. unfold reliabilities_model in *. cbn [map].
  rewrite IH. f_equal. unfold Tf.greater. now rewrite (mirror_abs Hc).
Qed.

(** ** Reliability of the model *)

Lemma abs_opp (d : float) : abs (- d) = abs d.
Proof.
  apply Prim2SF_inj. rewrite !abs_spec, opp_spec.
  destruct (Prim2SF d); reflexivity.
Qed.

Lemma one_is_not_zero : 1%float <> 0%float.
Proof.
  intros H. apply (f_equal Prim2SF) in H. vm_compute in H. discriminate.
Qed.

Lemma cast_double_one (b : bool) : Tf.cast_double b = 1%float <-> b = true.
Proof.
  destruct b; cbn [Tf.cast_double]; split; intros H; try reflexivity;
    try discriminate;
    exfalso; apply one_is_not_zero; congruence.
Qed.

Lemma cast_double_zero (b : bool) : Tf.cast_double b = 0%float <-> b = false.
Proof.
  destruct b; cbn [Tf.cast_double]; split; intros H; try reflexivity;
    try discriminate;
    exfalso; apply one_is_not_zero; congruence.
Qed.

(** C8: [reliabilities_model] returns one entry per challenge; the entry is
    1 exactly when the absolute value of the delay margin of that challenge
    is strictly greater than epsilon, and 0 otherwise, so every entry is 0
    or 1. *)
Theorem reliabilities_model_spec (delay_margins : list float) (epsilon : float) :
  length (reliabilities_model delay_margins epsilon) = length delay_margins
  /\ forall i d, nth_error delay_margins i = Some d ->
       exists r, nth_error (reliabilities_model delay_margins epsilon) i = Some r
         /\ (r = 1%float <-> PrimFloat.ltb epsilon (abs d) = true)
         /\ (r = 0%float <-> PrimFloat.ltb epsilon (abs d) = false)
         /\ (r = 0%float \/ r = 1%float).
Proof.
  unfold reliabilities_model. split; [apply length_map|].
  intros i d Hi. eexists. split.
  - rewrite nth_error_map, Hi. reflexivity.
  - unfold Tf.greater. split; [apply cast_double_one|].
    split; [apply cast_double_zero|].
    destruct (PrimFloat.ltb epsilon (abs d)); cbn [Tf.cast_double]; auto.
Qed.

Lemma reliabilities_model_spec_witness :
  exists r,
    nth_error (reliabilities_model [0.5; -4; 3]%float 3%float) 1 = Some r
    /\ r = 1%float.
Proof.
  destruct (proj2 (reliabilities_model_spec [0.5; -4; 3]%float 3%float)
              1 (-4)%float eq_refl) as (r & Hr & Hone & _).
  exists r. split; [exact Hr | apply Hone; reflexivity].
Defined.

Example reliabilities_model_test :
  reliabilities_model [0.5; -4; 3; -3.5; 0]%float 3%float
  = [0; 1; 0; 1; 0]%float.
Proof. reflexivity. Qed.

Lemma reliabilities_model_opp (delay_margins : list float) (epsilon : float) :
  reliabilities_model (map PrimFloat.opp delay_margins) epsilon
  = reliabilities_model delay_margins epsilon.
Proof.
  unfold reliabilities_model. rewrite map_map. apply map_ext.
  intros d. now rewrite abs_opp.
Qed.

(** ** The sign convention of a chain *)

Lemma Qltb_lt (a b : Q) : Qltb a b = true <-> (a < b)%Q.
Proof.
  unfold Qltb. rewrite negb_true_iff, <- not_true_iff_false, Qle_bool_iff.
  split; [apply Qnot_le_lt | apply Qlt_not_le].
Qed.

Lemma Qltb_ge (a b : Q) : Qltb a b = false <-> (b <= a)%Q.
Proof.
  unfold Qltb. rewrite negb_false_iff. apply Qle_bool_iff.
Qed.

Lemma canonical_sign_cases (w0 : Q) (rest : list Q) :
  exists c, canonical_sign (w0 :: rest) = Ok c
    /\ ((w0 < 0)%Q -> c = neg (w0 :: rest))
    /\ (~ (w0 < 0)%Q -> c = w0 :: rest)
    /\ exists c0 rest', c = c0 :: rest' /\ (0 <= c0)%Q.
Proof.
  cbn [canonical_sign]. destruct (Qltb w0 0) eqn:E.
  - apply Qltb_lt in E. eexists. split; [reflexivity|].
    split; [reflexivity|]. split; [tauto|].
    cbn [neg map]. do 2 eexists. split; [reflexivity|].
    apply Qlt_le_weak in E. apply Qopp_le_compat in E. exact E.
  - apply Qltb_ge in E. eexists. split; [reflexivity|].
    split; [intros H; now apply Qlt_not_le in H|].
    split; [reflexivity|]. eauto.
Qed.

Example canonical_sign_test :
  canonical_sign [-1 # 2; 3; -4]%Q = Ok [- (-1 # 2); - 3; - -4]%Q
  /\ canonical_sign [1 # 2; -3]%Q = Ok [1 # 2; -3]%Q
  /\ canonical_sign [] = Raise IndexError.
Proof. repeat split. Qed.

(** ** The majority vote *)

Lemma preferred_false (row : list Z) (v b : Z) :
  preferred row v b = false
  <-> (count v row < count b row
       \/ (count v row = count b row /\ b <= v))%Z.
Proof.
  unfold preferred. rewrite orb_false_iff, andb_false_iff.
  rewrite !Z.ltb_ge, Z.eqb_neq. lia.
Qed.

(** The scan of [mode] ends on an entry of the row over which no entry is
    preferred. *)
Lemma mode_scan (row t : list Z) (h : Z) :
  let r := fold_left (fun b v => if preferred row v b then v else b) t h in
  (r = h \/ In r t)
  /\ preferred row h r = false
  /\ forall v, In v t -> preferred row v r = false.
Proof.
  revert h. induction t as [|v t IH]; intros h; cbn [fold_left].
  - split; [now left|]. split; [|intros v []].
    apply preferred_false. lia.
  - specialize (IH (if preferred row v h then v else h)).
    cbv zeta in *. destruct IH as (Hin & Hh & Hall).
    remember (fold_left (fun b v0 => if preferred row v0 b then v0 else b) t
                (if preferred row v h then v else h)) as r.
    destruct (preferred row v h) eqn:E.
    + split; [destruct Hin as [-> | Hin]; [right; now left | right; now right]|].
      assert (preferred row h v = false) as Hhv.
      { apply preferred_false. unfold preferred in E.
        rewrite orb_true_iff, andb_true_iff, Z.ltb_lt, Z.eqb_eq, Z.ltb_lt in E.
        lia. }
      rewrite preferred_false in *. split; [lia|].
      intros u [<- | Hu]; [apply preferred_false; exact Hh|].
      apply Hall, Hu.
    + split; [destruct Hin as [-> | Hin]; [now left | right; now right]|].
      split; [exact Hh|].
      intros u [<- | Hu]; [|apply Hall, Hu].
      rewrite preferred_false in *. lia.
Qed.

Lemma mode_best (row : list Z) :
  row <> [] ->
  In (mode row) row /\ forall v, In v row -> preferred row v (mode row) = false.
Proof.
  destruct row as [|h t]; [congruence|]. intros _.
  destruct (mode_scan (h :: t) t h) as (Hin & Hh & Hall).
  cbn [mode]. split.
  - destruct Hin as [-> | Hin]; [now left | now right].
  - intros v [<- | Hv]; [exact Hh | now apply Hall].
Qed.

Lemma count_pos_In (v : Z) (row : list Z) : (0 < count v row)%Z -> In v row.
Proof.
  unfold count. intros H. apply (count_occ_In Z.eq_dec). lia.
Qed.

Lemma mode_pm1 (row : list Z) :
  row <> [] -> Forall pm1 row ->
  ((count (-1) row < count 1 row)%Z -> mode row = 1%Z)
  /\ ((count 1 row < count (-1) row)%Z -> mode row = (-1)%Z)
  /\ (count 1 row = count (-1) row -> mode row = (-1)%Z).
Proof.
  intros Hne Hrow. destruct (mode_best Hne) as (Hin & Hbest).
  pose proof (count_pm1 Hrow) as Hsum.
  pose proof (count_nonneg 1 row) as H1.
  pose proof (count_nonneg (-1) row) as H2.
  assert (Hlen : (0 < Z.of_nat (length row))%Z).
  { destruct row; [congruence | cbn [length]; lia]. }
  assert (Hm : pm1 (mode row)).
  { rewrite Forall_forall in Hrow. auto. }
  repeat split; intros Hc.
  - destruct Hm as [Hm | Hm]; [exact Hm | exfalso].
    assert (Hp : preferred row 1 (mode row) = false).
    { apply Hbest, count_pos_In. lia. }
    rewrite Hm in Hp. apply preferred_false in Hp. lia.
  - destruct Hm as [Hm | Hm]; [exfalso | exact Hm].
    assert (Hp : preferred row (-1) (mode row) = false).
    { apply Hbest, count_pos_In. lia. }
    rewrite Hm in Hp. apply preferred_false in Hp. lia.
  - destruct Hm as [Hm | Hm]; [exfalso | exact Hm].
    assert (Hp : preferred row (-1) (mode row) = false).
    { apply Hbest, count_pos_In. lia. }
    rewrite Hm in Hp. apply preferred_false in Hp. lia.
Qed.

(** C9: the majority vote returns, for every challenge, the sign that
    occurs strictly more often among its R measurements; when the
    measurements split evenly the answer is a fixed sign, -1, the same for
    every tied challenge.  On the responses of the test,
    [[1,1,1,1],[1,1,1,-1],[1,1,-1,-1],[1,-1,-1,-1]], it is [1, 1, -1, -1]. *)
Theorem majority_vote_spec (m : ndarray2) :
  well_shaped m -> 0 < ncols m -> entries pm1 m ->
  length (mode_axis1 m) = length (rows m)
  /\ (forall i row, nth_error (rows m) i = Some row ->
        exists r, nth_error (mode_axis1 m) i = Some r
          /\ ((count (-1) row < count 1 row)%Z -> r = 1%Z)
          /\ ((count 1 row < count (-1) row)%Z -> r = (-1)%Z)
          /\ (count 1 row = count (-1) row -> r = (-1)%Z))
  /\ mode_axis1 test_responses = [1; 1; -1; -1]%Z.
Proof.
  intros Hshape HR Hent. unfold mode_axis1.
  split; [apply length_map|]. split; [|reflexivity].
  intros i row Hi. exists (mode row).
  split; [rewrite nth_error_map, Hi; reflexivity|].
  assert (Hin : In row (rows m)) by (eapply nth_error_In; eauto).
  apply mode_pm1.
  - unfold well_shaped in Hshape. rewrite Forall_forall in Hshape.
    specialize (Hshape row Hin). destruct row; [cbn in Hshape; lia | congruence].
  - unfold entries in Hent. rewrite Forall_forall in Hent. auto.
Qed.

Lemma majority_vote_spec_witness :
  well_shaped test_responses /\ 0 < ncols test_responses
  /\ entries pm1 test_responses
  /\ exists r, nth_error (mode_axis1 test_responses) 2 = Some r /\ r = (-1)%Z.
Proof.
  split; [exact test_responses_shaped|]. split; [cbn; lia|].
  split; [exact test_responses_signed|].
  destruct (@majority_vote_spec test_responses test_responses_shaped
              ltac:(cbn; lia) test_responses_signed) as (_ & Hrows & _).
  destruct (Hrows 2 [1; 1; -1; -1]%Z eq_refl) as (r & Hr & _ & _ & Htie).
  exists r. split; [exact Hr | apply Htie; reflexivity].
Defined.

(** ** Assembly of the pool *)

Section PoolAssembly.

Variable k : nat.
Variable search : nat -> nat -> list Q * nat.
Variable pearsonr : chain -> chain -> float.

Lemma first_correlated_none (w : chain) (members : list chain) (i : nat) :
  first_correlated pearsonr w members i = None
  <-> forall v, In v members -> correlated pearsonr w v = false.
Proof.
  revert i. induction members as [|v rest IH]; intros i; cbn [first_correlated].
  - split; [intros _ v [] | reflexivity].
  - destruct (correlated pearsonr w v) eqn:E.
    + split; [discriminate|]. intros H.
      specialize (H v (or_introl eq_refl)). congruence.
    + rewrite IH. split.
      * intros H u [<- | Hu]; auto.
      * intros H u Hu. apply H. now right.
Qed.

Lemma first_correlated_some (w : chain) (members : list chain) (i j : nat) :
  first_correlated pearsonr w members i = Some j ->
  exists v, nth_error members (j - i) = Some v
            /\ i <= j /\ correlated pearsonr w v = true.
Proof.
  revert i. induction members as [|v rest IH]; intros i; cbn [first_correlated].
  - discriminate.
  - destruct (correlated pearsonr w v) eqn:E.
    + intros H. injection H as <-. exists v.
      rewrite Nat.sub_diag. auto.
    + intros H. destruct (IH _ H) as (u & Hu & Hle & Hc).
      exists u. replace (j - i) with (S (j - S i)) by lia. auto with arith.
Qed.

Lemma no_duplicates_nil : no_duplicates pearsonr [].
Proof. intros i j v w _ H. destruct i; discriminate. Qed.

Lemma no_duplicates_snoc (p : list chain) (w : chain) :
  no_duplicates pearsonr p ->
  (forall v, In v p -> correlated pearsonr w v = false) ->
  no_duplicates pearsonr (p ++ [w]).
Proof.
  intros Hp Hw i j v u Hij Hi Hj.
  assert (Hjlen : j < length (p ++ [w])).
  { apply nth_error_Some. congruence. }
  rewrite length_app in Hjlen. cbn [length] in Hjlen.
  rewrite nth_error_app1 in Hi by lia.
  destruct (Nat.eq_dec j (length p)) as [-> | Hne].
  - rewrite nth_error_app2, Nat.sub_diag in Hj by lia.
    injection Hj as <-. apply Hw. eapply nth_error_In; eauto.
  - rewrite nth_error_app1 in Hj by lia. exact (Hp i j v u Hij Hi Hj).
Qed.

(** What one iteration of the loop does with its candidate. *)
Lemma attempt_cases (st st' : loop_state) :
  attempt search pearsonr st = Ok st' ->
  exists w,
    canonical_sign (removelast (fst (search (attempts st) (n_chain st)))) = Ok w
    /\ attempts st' = S (attempts st)
    /\ (((forall v, In v (pool st) -> correlated pearsonr w v = false)
         /\ pool st' = pool st ++ [w] /\ n_chain st' = S (n_chain st))
        \/ ((exists v, In v (pool st) /\ correlated pearsonr w v = true)
            /\ pool st' = pool st /\ n_chain st' = n_chain st)).
Proof.
  unfold attempt. destruct (search (attempts st) (n_chain st)) as [w0 gen].
  cbn [fst]. destruct (canonical_sign (removelast w0)) as [w|e]; [|discriminate].
  cbn [bind]. intros Hst. exists w. split; [reflexivity|].
  destruct (first_correlated pearsonr w (pool st) 0) as [i|] eqn:E;
    injection Hst as <-; cbn [attempts pool n_chain].
  - split; [reflexivity|]. right.
    destruct (first_correlated_some _ _ _ E) as (v & Hv & _ & Hc).
    split; [|auto]. exists v. split; [|exact Hc].
    eapply nth_error_In; eauto.
  - split; [reflexivity|]. left.
    split; [|auto]. now apply first_correlated_none with (i := 0).
Qed.

Lemma reachable_invariant (st : loop_state) :
  reachable k search pearsonr st ->
  no_duplicates pearsonr (pool st)
  /\ length (pool st) = n_chain st
  /\ n_chain st <= k.
Proof.
  induction 1 as [|st st' _ (Hnd & Hlen & Hle) Hlt Hstep].
  - cbn. split; [apply no_duplicates_nil|]. split; [reflexivity | lia].
  - destruct (attempt_cases _ Hstep) as (w & _ & _ & Hcase).
    destruct Hcase as [(Hnew & -> & ->) | (_ & -> & ->)].
    + split; [now apply no_duplicates_snoc|].
      rewrite length_app. cbn [length]. lia.
    + auto.
Qed.

Lemma learn_loop_exit (fuel : nat) (st st' : loop_state) :
  reachable k search pearsonr st ->
  learn_loop k search pearsonr fuel st = Some (Ok st') ->
  reachable k search pearsonr st' /\ ~ n_chain st' < k.
Proof.
  revert st. induction fuel as [|fuel IH]; intros st Hr; cbn [learn_loop];
    destruct (Nat.ltb (n_chain st) k) eqn:E.
  - discriminate.
  - intros H. injection H as <-. apply Nat.ltb_ge in E. split; [exact Hr | lia].
  - destruct (attempt search pearsonr st) as [st1|e] eqn:Hst; [|discriminate].
    apply IH. apply Nat.ltb_lt in E. eapply reach_step; eauto.
  - intros H. injection H as <-. apply Nat.ltb_ge in E. split; [exact Hr | lia].
Qed.

End PoolAssembly.

(** C2: in every state the assembly loop goes through, and in the pool of k
    chains it ends with, no accepted chain has a coefficient with a chain
    accepted before it whose absolute value is above the duplicate
    threshold.  The coefficient is [pearsonr] of the two weight vectors.  A
    candidate joins the pool exactly when no member gives a coefficient
    above the threshold; otherwise the pool and the chain index are left as
    they are and the next attempt searches again.  Not above the threshold
    means: the coefficient is NaN, or its absolute value is at most 0.5. *)
Theorem pool_invariant (k : nat) (search : nat -> nat -> list Q * nat)
    (pearsonr : chain -> chain -> float) :
  (forall st, reachable k search pearsonr st ->
     no_duplicates pearsonr (pool st)
     /\ length (pool st) = n_chain st /\ n_chain st <= k)
  /\ (forall st st', attempt search pearsonr st = Ok st' ->
        exists w,
          canonical_sign (removelast (fst (search (attempts st) (n_chain st))))
          = Ok w
          /\ attempts st' = S (attempts st)
          /\ (((forall v, In v (pool st) -> correlated pearsonr w v = false)
               /\ pool st' = pool st ++ [w] /\ n_chain st' = S (n_chain st))
              \/ ((exists v, In v (pool st) /\ correlated pearsonr w v = true)
                  /\ pool st' = pool st /\ n_chain st' = n_chain st)))
  /\ (forall fuel st,
        learn_loop k search pearsonr fuel (initial_state k) = Some (Ok st) ->
        reachable k search pearsonr st
        /\ length (pool st) = k
        /\ no_duplicates pearsonr (pool st))
  /\ (forall w v,
        correlated pearsonr w v = false
        <-> PrimFloat.is_nan (pearsonr w v) = true
            \/ PrimFloat.leb (abs (pearsonr w v)) 0.5 = true).
Proof.
  split; [apply reachable_invariant|]. split; [apply attempt_cases|]. split.
  - intros fuel st Hrun.
    destruct (learn_loop_exit fuel (reach_init k search pearsonr) Hrun)
      as (Hr & Hk).
    destruct (reachable_invariant Hr) as (Hnd & Hlen & Hle).
    split; [exact Hr|]. split; [lia | exact Hnd].
  - intros w v. unfold correlated, duplicate_threshold.
    rewrite not_greater, is_nan_abs. split.
    + intros [H | [H | H]]; auto. discriminate.
    + intros [H | H]; auto.
Qed.

(** The scenario of the spec: the duplicated vector comes back a second
    time and is discarded; the third search brings a new chain. *)
Lemma pool_invariant_witness :
  learn_loop 2 Examples.search3 pearsonr_ref 3 (initial_state 2)
  = Some (Ok Examples.final3)
  /\ length (pool Examples.final3) = 2
  /\ no_duplicates pearsonr_ref (pool Examples.final3).
Proof.
  assert (Hloop : learn_loop 2 Examples.search3 pearsonr_ref 3 (initial_state 2)
                  = Some (Ok Examples.final3)) by (vm_compute; reflexivity).
  split; [exact Hloop|].
  exact (proj2 (proj1 (proj2 (proj2 (pool_invariant 2 Examples.search3
                                       pearsonr_ref)))
                  3 Examples.final3 Hloop)).
Defined.

(** C2 fails as stated, in three ways.  The constant chain 1, 1, 1 is
    accepted twice: the coefficient of two constant vectors is NaN, and NaN
    is not above the threshold.  A coefficient that is exactly 0.5 lets the
    same vector in twice.  And the chains 3, 1, 0 and 1, 3, 0 are both
    accepted although, with epsilon 3, they mark the same challenges
    reliable on all eight challenges of three bits: the coefficient of
    their modelled reliabilities is 1, the one of their weights is not
    above 0.5. *)
Lemma pool_accepts_duplicates :
  learn_loop 2 MoreExamples.search_constant pearsonr_ref 2 (initial_state 2)
  = Some (Ok (mk_state 2 2 [[1; 1; 1]; [1; 1; 1]]%Q
                (mk_meta [[]; []] [[7]; [7]])))
  /\ PrimFloat.is_nan (pearsonr_ref [1; 1; 1]%Q [1; 1; 1]%Q) = true
  /\ learn_loop 2 MoreExamples.search_dup MoreExamples.pearsonr_half 2
       (initial_state 2)
     = Some (Ok (mk_state 2 2 [Examples.dup_chain; Examples.dup_chain]
                   (mk_meta [[]; []] [[7]; [7]])))
  /\ learn_loop 2 MoreExamples.search_twins pearsonr_ref 2 (initial_state 2)
     = Some (Ok (mk_state 2 2 [[3; 1; 0]; [1; 3; 0]]%Q
                   (mk_meta [[]; []] [[7]; [7]])))
  /\ chain_reliabilities MoreExamples.challenges8 [3; 1; 0]%float 3%float
     = Ok [1; 1; 0; 0; 0; 0; 1; 1]%float
  /\ chain_reliabilities MoreExamples.challenges8 [1; 3; 0]%float 3%float
     = Ok [1; 1; 0; 0; 0; 0; 1; 1]%float
  /\ tf_pearsonr [1; 1; 0; 0; 0; 0; 1; 1]%float [1; 1; 0; 0; 0; 0; 1; 1]%float
     = Ok 1%float.
Proof.
  repeat split; vm_compute; reflexivity.
Qed.

(** ** The sign convention in the assembly loop *)

Lemma canonical_sign_canonical (v c : chain) :
  canonical_sign v = Ok c -> canonical c.
Proof.
  destruct v as [|w0 rest]; [discriminate|].
  destruct (canonical_sign_cases w0 rest) as (c' & Hc' & _ & _ & c0 & r & -> & H0).
  intros H. rewrite Hc' in H. injection H as <-. exact H0.
Qed.

Lemma reachable_canonical (k : nat) (search : nat -> nat -> list Q * nat)
    (pearsonr : chain -> chain -> float) (st : loop_state) :
  reachable k search pearsonr st -> Forall canonical (pool st).
Proof.
  induction 1 as [|st st' _ IH Hlt Hstep].
  - constructor.
  - destruct (attempt_cases _ _ _ Hstep) as (w & Hw & _ & Hcase).
    destruct Hcase as [(_ & -> & _) | (_ & -> & _)]; [|exact IH].
    apply Forall_app. split; [exact IH|]. constructor; [|constructor].
    exact (canonical_sign_canonical _ Hw).
Qed.

(** C7: every attempt of the assembly loop makes the sign of its candidate
    canonical before the duplicate check: the weights of the search result
    are negated, all of them, when the first one is negative and left as
    they are otherwise; it is this chain, whose first weight is not
    negative, that is compared with the members of the pool and that joins
    the pool when it is accepted.  So every chain of the pool has a first
    weight that is not negative, in every state of the loop.  The negation
    does not change the modelled reliability: negating all delay margins
    leaves [reliabilities_model] unchanged for every vector of delay margins
    and every epsilon, and the delays computed from the negated weights
    give the same modelled reliabilities as those computed from the
    weights. *)
Theorem canonical_sign_spec (k : nat) (search : nat -> nat -> list Q * nat)
    (pearsonr : chain -> chain -> float) :
  (forall st st', attempt search pearsonr st = Ok st' ->
     exists w0 rest c,
       removelast (fst (search (attempts st) (n_chain st))) = w0 :: rest
       /\ ((w0 < 0)%Q -> c = map Qopp (w0 :: rest))
       /\ (~ (w0 < 0)%Q -> c = w0 :: rest)
       /\ canonical c
       /\ match first_correlated pearsonr c (pool st) 0 with
          | None => pool st' = pool st ++ [c] /\ n_chain st' = S (n_chain st)
          | Some _ => pool st' = pool st /\ n_chain st' = n_chain st
          end)
  /\ (forall st, reachable k search pearsonr st -> Forall canonical (pool st))
  /\ (forall (delay_margins : list float) (epsilon : float),
        reliabilities_model (map PrimFloat.opp delay_margins) epsilon
        = reliabilities_model delay_margins epsilon)
  /\ (forall (chal : list (list float)) (w : list float) (epsilon : float),
        chain_reliabilities chal (map PrimFloat.opp w) epsilon
        = chain_reliabilities chal w epsilon).
Proof.
  split; [|split; [apply reachable_canonical|
                   split; [exact reliabilities_model_opp
                          | exact chain_reliabilities_opp]]].
  intros st st'. unfold attempt.
  destruct (search (attempts st) (n_chain st)) as [w gen]. cbn [fst].
  destruct (removelast w) as [|w0 rest]; [discriminate|].
  destruct (canonical_sign_cases w0 rest)
    as (c & Hc & Hneg & Hpos & c0 & rest' & Hshape & H0).
  rewrite Hc. cbn [bind]. intros Hst.
  exists w0, rest, c. split; [reflexivity|].
  split; [exact Hneg|]. split; [exact Hpos|].
  split; [rewrite Hshape; exact H0|].
  destruct (first_correlated pearsonr c (pool st) 0);
    injection Hst as <-; cbn [pool n_chain]; auto.
Qed.

(** The third attempt on the spec's scenario: the search comes back with a
    vector whose first weight is -1/10; all its weights are negated, and
    the negated vector is the one that joins the pool. *)
Lemma canonical_sign_spec_witness :
  attempt Examples.search3 pearsonr_ref MoreExamples.state2
  = Ok Examples.final3
  /\ pool Examples.final3
     = [Examples.dup_chain; map Qopp Examples.other_chain]
  /\ Forall canonical (pool Examples.final3).
Proof.
  assert (Hstep : attempt Examples.search3 pearsonr_ref MoreExamples.state2
                  = Ok Examples.final3) by (vm_compute; reflexivity).
  split; [exact Hstep|]. split; [reflexivity|].
  destruct (proj1 (canonical_sign_spec 2 Examples.search3 pearsonr_ref)
              MoreExamples.state2 Examples.final3 Hstep)
    as (w0 & rest & c & Hw & Hneg & _ & Hc & Hpool).
  injection Hw as <- <-.
  rewrite (Hneg eq_refl) in Hc, Hpool.
  constructor; [cbn; discriminate|].
  constructor; [exact Hc | constructor].
Defined.

(** ** The polarity of the model *)

Section Polarity.

Variable ltf_eval : list chain -> list (list Z) -> list Z.
Variable challenges : list (list Z).
Variable responses : ndarray2.

Lemma lt_half_below (acc : mean_value) :
  lt_half acc = true <-> exists q, acc = Ratio q /\ (q < 1 # 2)%Q.
Proof.
  destruct acc as [q|]; cbn [lt_half].
  - rewrite Qltb_lt. split; [eauto|]. intros (q' & H & Hlt). now injection H as ->.
  - split; [discriminate|]. intros (q & H & _). discriminate.
Qed.

Lemma resolve_polarity_flip (c : chain) (rest : list chain) (acc : mean_value) :
  test_model ltf_eval challenges responses (c :: rest) = Ok acc ->
  lt_half acc = true ->
  resolve_polarity ltf_eval challenges responses (c :: rest)
  = Ok (neg c :: rest).
Proof.
  intros Hacc Hlt. unfold resolve_polarity. rewrite Hacc. cbn [bind].
  now rewrite Hlt.
Qed.

Lemma resolve_polarity_keep (p : list chain) (acc : mean_value) :
  test_model ltf_eval challenges responses p = Ok acc ->
  lt_half acc = false ->
  resolve_polarity ltf_eval challenges responses p = Ok p.
Proof.
  intros Hacc Hlt. unfold resolve_polarity. rewrite Hacc. cbn [bind].
  now rewrite Hlt.
Qed.

End Polarity.

Lemma lt_half_not_below (acc : mean_value) :
  lt_half acc = false
  <-> acc = MeanNaN \/ exists q, acc = Ratio q /\ (1 # 2 <= q)%Q.
Proof.
  destruct acc as [q|]; cbn [lt_half].
  - rewrite Qltb_ge. split.
    + intros H. right. eauto.
    + intros [H | (q' & H & Hle)]; [discriminate | now injection H as ->].
  - split; [now left | reflexivity].
Qed.

Lemma negated_chain_differs (c : chain) :
  (exists x, In x c /\ ~ (x == 0)%Q) -> map Qopp c <> c.
Proof.
  intros (x & Hx & Hnz) Heq. apply Hnz. clear Hnz.
  induction c as [|y c IH]; [destruct Hx|].
  cbn [map] in Heq. injection Heq as Hy Hc.
  destruct Hx as [-> | Hx]; [|now apply IH].
  destruct x as [a b]. unfold Qopp in Hy. cbn [Qnum Qden] in Hy.
  injection Hy as Ha. unfold Qeq. cbn [Qnum Qden]. lia.
Qed.

(** C4: when the mean agreement of the model built from the k assembled
    chains with the majority vote is below 0.5, the model returned by
    [learn] is built from the pool with every weight of its first chain
    negated and all other chains as they were.  The test is made once: the
    returned model is the pool flipped once, and not the pool itself, even
    when the agreement of the flipped model is below 0.5 again.  When the
    agreement is not below 0.5 (or is NaN, on an empty challenge set) the
    pool is returned as it is. *)
Theorem polarity_one_shot (k : nat) (search : nat -> nat -> list Q * nat)
    (pearsonr : chain -> chain -> float)
    (ltf_eval : list chain -> list (list Z) -> list Z)
    (challenges : list (list Z)) (responses : ndarray2)
    (fuel : nat) (st : loop_state) (acc : mean_value) :
  learn_loop k search pearsonr fuel (initial_state k) = Some (Ok st) ->
  test_model ltf_eval challenges responses (pool st) = Ok acc ->
  ((exists q, acc = Ratio q /\ (q < 1 # 2)%Q) ->
   forall c rest, pool st = c :: rest ->
     learn k search pearsonr ltf_eval challenges responses fuel
     = Some (Ok (map Qopp c :: rest, meta st))
     /\ (forall i x, nth_error c i = Some x ->
           nth_error (map Qopp c) i = Some (- x)%Q)
     /\ forall q',
          test_model ltf_eval challenges responses (map Qopp c :: rest)
          = Ok (Ratio q') ->
          (q' < 1 # 2)%Q ->
          learn k search pearsonr ltf_eval challenges responses fuel
          = Some (Ok (map Qopp c :: rest, meta st))
          /\ ((exists x, In x c /\ ~ (x == 0)%Q) ->
              learn k search pearsonr ltf_eval challenges responses fuel
              <> Some (Ok (c :: rest, meta st))))
  /\ (acc = MeanNaN \/ (exists q, acc = Ratio q /\ (1 # 2 <= q)%Q) ->
      learn k search pearsonr ltf_eval challenges responses fuel
      = Some (Ok (pool st, meta st))).
Proof.
  intros Hloop Hacc. unfold learn. rewrite Hloop. cbn [bind]. split.
  - intros Hlt c rest Hpool. apply lt_half_below in Hlt. rewrite Hpool in *.
    rewrite (resolve_polarity_flip _ _ _ _ _ Hacc Hlt). cbn [bind].
    unfold neg. split; [reflexivity|]. split.
    + intros i x Hi. now rewrite nth_error_map, Hi.
    + intros _ _ _. split; [reflexivity|].
      intros Hnz H. injection H as H.
      exact (negated_chain_differs Hnz H).
  - intros Hlt. apply lt_half_not_below in Hlt.
    rewrite (resolve_polarity_keep _ _ _ _ Hacc Hlt). reflexivity.
Qed.

(** A run in which the model tells the sign of its first chain.  The pool
    agrees with the majority vote on no challenge; the first chain is
    negated, weight by weight, and the flipped model agrees on one challenge
    of three, which is below 0.5 again: it is returned all the same, and
    the second chain is as it was. *)
Lemma polarity_one_shot_witness :
  learn_loop 2 Examples.search3 pearsonr_ref 3 (initial_state 2)
  = Some (Ok Examples.final3)
  /\ test_model PolarityExample.eval_first Examples.challenges3
       PolarityExample.responses_plus (pool Examples.final3)
     = Ok (Ratio (0 / 3))
  /\ test_model PolarityExample.eval_first Examples.challenges3
       PolarityExample.responses_plus
       [PolarityExample.dup_chain_negated; map Qopp Examples.other_chain]
     = Ok (Ratio (1 / 3))
  /\ (1 / 3 < 1 # 2)%Q
  /\ learn 2 Examples.search3 pearsonr_ref PolarityExample.eval_first
       Examples.challenges3 PolarityExample.responses_plus 3
     = Some (Ok ([PolarityExample.dup_chain_negated;
                  map Qopp Examples.other_chain],
                 meta Examples.final3)).
Proof.
  assert (Hloop : learn_loop 2 Examples.search3 pearsonr_ref 3 (initial_state 2)
                  = Some (Ok Examples.final3)) by (vm_compute; reflexivity).
  split; [exact Hloop|]. split; [reflexivity|]. split; [reflexivity|].
  split; [reflexivity|].
  refine (proj1 (proj1 (@polarity_one_shot 2 Examples.search3 pearsonr_ref
            PolarityExample.eval_first Examples.challenges3
            PolarityExample.responses_plus 3
            Examples.final3 (Ratio (0 / 3)) Hloop eq_refl)
            (ex_intro _ (0 / 3)%Q (conj eq_refl eq_refl))
            Examples.dup_chain [map Qopp Examples.other_chain] eq_refl)).
Defined.

(** ** Negating a chain of the XOR array *)

Lemma threshold_opp (q : Q) : threshold (- q) = (- threshold q)%Z.
Proof. unfold threshold. destruct q as [a b]. cbn [Qopp Qnum]. apply Z.sgn_opp. Qed.

Lemma threshold_Qeq (p q : Q) : (p == q)%Q -> threshold p = threshold q.
Proof.
  unfold threshold, Qeq. destruct p as [a b], q as [c d]. cbn [Qnum Qden].
  intros H. destruct a, c; cbn [Z.sgn]; try reflexivity; lia.
Qed.

Lemma linear_form_neg (w : chain) (c : list Z) :
  (linear_form (neg w) c == - linear_form w c)%Q.
Proof.
  unfold linear_form, neg. revert c.
  induction w as [|a w IH]; intros [|z c]; cbn [map combine fold_right fst snd];
    try reflexivity.
  rewrite IH. ring.
Qed.

Lemma threshold_odd : odd_threshold threshold.
Proof.
  split; [exact threshold_Qeq | intros q _; apply threshold_opp].
Qed.

Lemma count_true_cons (b : bool) (l : list bool) :
  count_true (b :: l) = (if b then 1 else 0) + count_true l.
Proof. unfold count_true. cbn [filter]. destruct b; reflexivity. Qed.

Lemma count_true_flip (y o : list Z) :
  length y = length o -> Forall pm1 y -> Forall pm1 o ->
  count_true (eq_bits y (map Z.opp o)) + count_true (eq_bits y o) = length y.
Proof.
  intros Hlen Hy. revert o Hlen.
  induction Hy as [|a y Ha _ IH]; intros [|b o] Hlen Ho; try discriminate.
  - reflexivity.
  - inversion Ho as [|? ? Hb Ho']; subst.
    unfold eq_bits in *. cbn [map combine fst snd length].
    rewrite !count_true_cons.
    specialize (IH o ltac:(now injection Hlen) Ho').
    destruct Ha, Hb; subst; cbn; lia.
Qed.

Lemma agreement_same_length (y o : list Z) :
  length y = length o -> y <> [] ->
  agreement y o
  = Ok (Ratio (inject_Z (Z.of_nat (count_true (eq_bits y o)))
               / inject_Z (Z.of_nat (length y)))).
Proof.
  intros Hlen Hne. unfold agreement, eq_broadcast.
  rewrite Hlen, Nat.eqb_refl. cbn [bind]. fold (eq_bits y o).
  assert (Hl : length (eq_bits y o) = length y).
  { unfold eq_bits. rewrite length_map, length_combine. lia. }
  unfold mean_bool. destruct (eq_bits y o) as [|b l] eqn:E.
  - destruct y; [congruence | discriminate].
  - now rewrite Hl, Hlen.
Qed.

Lemma ltfarray_eval_xor_instance (weights : list chain)
    (chals : list (list Z)) :
  ltfarray_eval_xor weights chals = xor_eval threshold weights chals.
Proof. reflexivity. Qed.

Lemma xor_eval_flip_nonzero (sgn : Q -> Z) (c : chain) (rest : list chain)
    (chals : list (list Z)) :
  odd_threshold sgn ->
  Forall (fun ch => ~ (linear_form c ch == 0)%Q) chals ->
  xor_eval sgn (map Qopp c :: rest) chals
  = map Z.opp (xor_eval sgn (c :: rest) chals).
Proof.
  intros (Hproper & Hodd) Hnz. unfold xor_eval. rewrite map_map.
  apply map_ext_in. intros ch Hch.
  rewrite Forall_forall in Hnz. specialize (Hnz ch Hch).
  cbn [map combiner_xor fold_right]. change (map Qopp c) with (neg c).
  rewrite (Hproper _ _ (linear_form_neg c ch)), (Hodd _ Hnz). ring.
Qed.

Lemma agreement64_same_length (y o : list Z) :
  length y = length o ->
  agreement64 y o
  = Ok (Tf.of_nat (count_true (eq_bits y o)) / Tf.of_nat (length y))%float.
Proof.
  intros Hlen. unfold agreement64, eq_broadcast.
  rewrite Hlen, Nat.eqb_refl. cbn [bind]. unfold np_mean.
  replace (length (eq_bits y o)) with (length o); [reflexivity|].
  unfold eq_bits. rewrite length_map, length_combine. lia.
Qed.

(** C5, for the XOR array modelled from the spec with any threshold that is
    odd away from 0: negating the first chain negates the output of the
    model on every challenge on which the linear form of that chain is not
    0.  When moreover the outputs and the ground truth are signed bits, the
    model agrees after the flip on exactly the challenges on which it
    disagreed before: with m agreements of N before the flip there are
    N - m after it, and [test_model] returns the binary64 quotients m / N
    and (N - m) / N. *)
Theorem xor_first_chain_flip (sgn : Q -> Z) (c : chain) (rest : list chain)
    (chals : list (list Z)) (y_true : list Z) :
  odd_threshold sgn ->
  Forall (fun ch => ~ (linear_form c ch == 0)%Q) chals ->
  xor_eval sgn (map Qopp c :: rest) chals
  = map Z.opp (xor_eval sgn (c :: rest) chals)
  /\ (length y_true = length chals -> Forall pm1 y_true ->
      Forall pm1 (xor_eval sgn (c :: rest) chals) ->
      exists m,
        m <= length chals
        /\ count_true (eq_bits y_true (xor_eval sgn (c :: rest) chals)) = m
        /\ count_true
             (eq_bits y_true (xor_eval sgn (map Qopp c :: rest) chals))
           = length chals - m
        /\ agreement64 y_true (xor_eval sgn (c :: rest) chals)
           = Ok (Tf.of_nat m / Tf.of_nat (length chals))%float
        /\ agreement64 y_true (xor_eval sgn (map Qopp c :: rest) chals)
           = Ok (Tf.of_nat (length chals - m)
                 / Tf.of_nat (length chals))%float).
Proof.
  intros Hsgn Hnz.
  pose proof (@xor_eval_flip_nonzero sgn c rest chals Hsgn Hnz) as Hflip.
  split; [exact Hflip|]. intros Hlen Hy Ho. rewrite Hflip.
  set (o := xor_eval sgn (c :: rest) chals) in *.
  assert (Hlo : length y_true = length o).
  { unfold o, xor_eval. now rewrite length_map. }
  pose proof (count_true_flip Hlo Hy Ho) as Hsum.
  exists (count_true (eq_bits y_true o)).
  rewrite !agreement64_same_length by (rewrite ?length_map; exact Hlo).
  rewrite <- Hlen.
  replace (count_true (eq_bits y_true (map Z.opp o)))
    with (length y_true - count_true (eq_bits y_true o)) by lia.
  repeat split; lia.
Qed.

Lemma sign_bit_odd : odd_threshold sign_bit.
Proof.
  split.
  - intros p q H. unfold sign_bit.
    destruct (Qle_bool 0 p) eqn:Hp, (Qle_bool 0 q) eqn:Hq; try reflexivity;
      exfalso.
    + apply Qle_bool_iff in Hp. rewrite H in Hp. apply Qle_bool_iff in Hp.
      congruence.
    + apply Qle_bool_iff in Hq. rewrite <- H in Hq. apply Qle_bool_iff in Hq.
      congruence.
  - intros q Hq. unfold sign_bit.
    destruct (Qle_bool 0 q) eqn:E, (Qle_bool 0 (- q)) eqn:E'; try reflexivity;
      exfalso.
    + apply Qle_bool_iff in E, E'. apply Hq. apply Qle_antisym; [|exact E].
      apply Qopp_le_compat in E'. now rewrite Qopp_involutive in E'.
    + assert (H1 : ~ (0 <= q)%Q) by (rewrite <- Qle_bool_iff; congruence).
      assert (H2 : ~ (0 <= - q)%Q) by (rewrite <- Qle_bool_iff; congruence).
      apply Qnot_le_lt in H1, H2. apply Qlt_le_weak, Qopp_le_compat in H2.
      rewrite Qopp_involutive in H2. apply (Qlt_not_le _ _ H1). exact H2.
Qed.

Lemma xor_first_chain_flip_witness :
  exists m,
    agreement64 [1; -1; 1]%Z
      (xor_eval sign_bit Examples.pool2 Examples.challenges3)
    = Ok (Tf.of_nat m / Tf.of_nat 3)%float
    /\ agreement64 [1; -1; 1]%Z
         (xor_eval sign_bit (map Qopp [1; 2]%Q :: [[3; -1]%Q])
            Examples.challenges3)
       = Ok (Tf.of_nat (3 - m) / Tf.of_nat 3)%float.
Proof.
  destruct (proj2 (@xor_first_chain_flip sign_bit [1; 2]%Q [[3; -1]%Q]
                     Examples.challenges3 [1; -1; 1]%Z sign_bit_odd
                     ltac:(repeat constructor; cbn; discriminate)))
    as (m & _ & _ & _ & Hb & Ha).
  - reflexivity.
  - repeat (constructor; [unfold pm1; lia|]). constructor.
  - repeat (constructor; [unfold pm1; cbn; lia|]). constructor.
  - exists m. split; [exact Hb | exact Ha].
Defined.

(** C5 fails as stated, in two ways.  The doubles that [test_model] returns
    are not complementary: with agreement on two challenges of three
    before the flip and on one of three after it, the values are 2/3 and
    1/3 rounded to binary64, and 1 minus the first is not the second.  And
    on a challenge on which the linear form of the first chain is 0 the
    flip changes nothing: a threshold with the two values -1 and +1 gives
    the same signed bit before and after, the sign function gives 0 both
    times, which agrees with no signed truth. *)
Lemma xor_flip_not_complement :
  agreement64 [1; 1; -1]%Z
    (xor_eval sign_bit Examples.pool2 Examples.challenges3)
  = Ok (2 / 3)%float
  /\ agreement64 [1; 1; -1]%Z
       (xor_eval sign_bit (map Qopp [1; 2]%Q :: [[3; -1]%Q])
          Examples.challenges3)
     = Ok (1 / 3)%float
  /\ PrimFloat.eqb (1 / 3) (1 - 2 / 3) = false
  /\ xor_eval sign_bit [map Qopp [1; -1]%Q] Examples.challenges1
     = xor_eval sign_bit [[1; -1]%Q] Examples.challenges1
  /\ xor_eval sign_bit [[1; -1]%Q] Examples.challenges1 = [1%Z]
  /\ xor_eval threshold [map Qopp [1; -1]%Q] Examples.challenges1 = [0%Z]
  /\ xor_eval threshold [[1; -1]%Q] Examples.challenges1 = [0%Z].
Proof.
  repeat split; vm_compute; reflexivity.
Qed.

(** ** Construction of the learner *)

Lemma objective_shape_error (n : nat) (chal : list (list float))
    (y cand : list float) (others : list (list float)) :
  Forall (fun c => length c = n) chal -> length cand = S n ->
  length y <> length chal ->
  objective n chal y (cand :: others) = Raise ShapeError.
Proof.
  intros Hchal Hcand Hy. unfold objective. cbn [mapM].
  unfold objective1.
  destruct (@model_reliabilities_ok n chal cand Hchal Hcand) as (x & Hx & Hlen).
  rewrite Hx. cbn [bind]. unfold tf_pearsonr, Tf.tensordot.
  rewrite !center_length.
  destruct (Nat.eqb (length y) (length x)) eqn:E; [|reflexivity].
  apply Nat.eqb_eq in E. congruence.
Qed.

(** C6, as the code behaves: [__init__] does not compare the number of
    challenges with the number of response rows and knows no
    InputShapeMismatch error.  Whenever the transform accepts the
    challenges, the learner is built, with one measured reliability per
    response row and the linearized challenges, whatever the two counts.
    A mismatch shows only once the search evaluates the objective, as a
    shape error of the tensor contraction. *)
Theorem init_no_shape_check :
  (forall (to01 : Z -> Z)
          (transform : list (list Z) -> nat -> result (list (list (list Z))))
          (ts : TrainingSet) (k n : nat) (abort_delta : Q) (seed : Z)
          (linearized : list (list (list Z))),
      transform (ts_challenges ts) k = Ok linearized ->
      exists l, init to01 transform ts k n abort_delta seed = Ok l
        /\ self_puf_reliabilities l = reliabilities_puf to01 (ts_responses ts)
        /\ length (self_puf_reliabilities l) = length (rows (ts_responses ts))
        /\ self_linearized_challenges l = linearized
        /\ self_training_set l = ts)
  /\ (forall (n : nat) (chal : list (list float)) (y cand : list float)
             (others : list (list float)),
        Forall (fun c => length c = n) chal -> length cand = S n ->
        length y <> length chal ->
        objective n chal y (cand :: others) = Raise ShapeError).
Proof.
  split; [|exact objective_shape_error].
  intros to01 transform ts k n abort_delta seed linearized Ht.
  unfold init. rewrite Ht. cbn [bind]. eexists. split; [reflexivity|].
  cbn. repeat split. apply reliabilities_puf_length.
Qed.

Lemma init_no_shape_check_witness :
  exists l,
    init minus_is_one transform_id Examples.mismatched 2 2 0%Q 1%Z = Ok l
    /\ length (self_puf_reliabilities l) = 1
    /\ length (self_linearized_challenges l) = 2.
Proof.
  destruct (proj1 init_no_shape_check minus_is_one transform_id
              Examples.mismatched 2 2 0%Q 1%Z _ eq_refl)
    as (l & Hl & _ & Hlen & Hlin & _).
  exists l. split; [exact Hl|]. split; [exact Hlen|].
  rewrite Hlin. reflexivity.
Defined.

(** C6 fails as stated: a training set with two challenges and one row of
    responses is accepted by [__init__]; the learner it builds holds one
    measured reliability and two linearized challenges. *)
Lemma init_accepts_mismatch :
  length (ts_challenges Examples.mismatched) = 2
  /\ length (rows (ts_responses Examples.mismatched)) = 1
  /\ match init minus_is_one transform_id Examples.mismatched 2 2 0%Q 1%Z with
     | Ok l => length (self_puf_reliabilities l) = 1
               /\ length (self_linearized_challenges l) = 2
     | Raise _ => False
     end.
Proof. repeat split. Qed.

(** * Further properties of the learner *)

(** ** Measured reliabilities: range and polarity *)

Lemma rows_pointwise (out : list Q) (rs : list (list Z)) (f : list Z -> Q) :
  length out = length rs ->
  (forall i row, nth_error rs i = Some row ->
     exists r, nth_error out i = Some r /\ (r == f row)%Q) ->
  Forall2 Qeq out (map f rs).
Proof.
  revert rs. induction out as [|r out IH]; intros [|row rs] Hlen Hrows;
    try discriminate; [constructor|].
  cbn [map]. constructor.
  - destruct (Hrows 0 row eq_refl) as (r' & Hr' & Heq).
    injection Hr' as <-. exact Heq.
  - apply IH; [now injection Hlen|].
    intros i row' Hi. exact (Hrows (S i) row' Hi).
Qed.

Lemma reliabilities_puf_signed (to01 : Z -> Z) (m : ndarray2) :
  recodes_bits to01 -> well_shaped m -> entries pm1 m ->
  Forall2 Qeq (reliabilities_puf to01 m) (map (spec_reliability (ncols m)) (rows m)).
Proof.
  intros Hrec Hshape Hent. apply rows_pointwise.
  - apply reliabilities_puf_length.
  - intros i row Hi. now apply reliabilities_puf_row.
Qed.

Lemma half_distance_range (R : nat) (s : Z) :
  (0 <= s <= Z.of_nat R)%Z ->
  (0 <= half_distance R s <= inject_Z (Z.of_nat R) / 2)%Q.
Proof.
  intros [Hlo Hhi]. unfold half_distance. split; [apply Qabs_nonneg|].
  apply Qabs_Qle_condition.
  rewrite Zle_Qle in Hlo, Hhi. change (inject_Z 0) with 0%Q in Hlo.
  set (r := inject_Z (Z.of_nat R)) in *. set (q := inject_Z s) in *.
  split.
  - apply Qle_minus_iff.
    setoid_replace (r / 2 - q + - - (r / 2))%Q with (r - q)%Q by field.
    apply -> Qle_minus_iff. exact Hhi.
  - apply Qle_minus_iff.
    setoid_replace (r / 2 + - (r / 2 - q))%Q with q by field.
    exact Hlo.
Qed.

Lemma count_le_length (v : Z) (row : list Z) :
  (count v row <= Z.of_nat (length row))%Z.
Proof.
  unfold count. induction row as [|z row IH]; cbn [count_occ length]; [lia|].
  destruct (Z.eq_dec z v); lia.
Qed.

Lemma sum_bits (row : list Z) :
  Forall bit01 row -> (0 <= Np.sum row <= Z.of_nat (length row))%Z.
Proof.
  induction 1 as [|z row Hz _ IH]; cbn [Np.sum fold_right length]; [lia|].
  fold (Np.sum row). destruct Hz; subst; lia.
Qed.

Lemma int8_bits (row : list Z) : Forall bit01 row -> map int8 row = row.
Proof.
  induction 1 as [|z row Hz _ IH]; simpl; [reflexivity|].
  rewrite IH. f_equal. apply int8_small. destruct Hz; subst; lia.
Qed.

Lemma no_minus_one_in_bits (row : list Z) :
  Forall bit01 row -> existsb (Z.eqb (-1)) row = false.
Proof.
  induction 1 as [|z row Hz _ IH]; cbn [existsb]; [reflexivity|].
  rewrite IH. destruct Hz; subst; reflexivity.
Qed.

(** On a matrix in the 0/1 encoding no recoding takes place: every row
    gives the distance of its sum from R/2. *)
Lemma reliabilities_puf_bits (to01 : Z -> Z) (m : ndarray2) :
  entries bit01 m ->
  reliabilities_puf to01 m = map (fun row => half_distance (ncols m) (Np.sum row)) (rows m).
Proof.
  intros Hent. unfold reliabilities_puf.
  assert (Hcast : astype_int8 m = m).
  { destruct m as [R rs]. unfold entries, astype_int8, amap in *.
    cbn [rows ncols] in *. f_equal. induction Hent as [|r rs Hr _ IH]; cbn [map]; [reflexivity|].
    now rewrite IH, int8_bits. }
  rewrite Hcast. clear Hcast.
  assert (Hc : contains (-1) m = false).
  { destruct m as [R rs]. unfold entries, contains in *. cbn [rows] in *.
    induction Hent as [|r rs Hr _ IH]; cbn [existsb]; [reflexivity|].
    now rewrite IH, no_minus_one_in_bits. }
  rewrite Hc. unfold sum_axis1. now rewrite map_map.
Qed.

(** A measured reliability is a distance from an even split, so it lies
    between 0 and half the number of measurements, for a response matrix
    in either encoding (signed bits or 0/1 bits). *)
Theorem reliabilities_puf_range (to01 : Z -> Z) (m : ndarray2) :
  recodes_bits to01 -> well_shaped m ->
  entries pm1 m \/ entries bit01 m ->
  Forall (fun r => (0 <= r <= inject_Z (Z.of_nat (ncols m)) / 2)%Q)
         (reliabilities_puf to01 m).
Proof.
  intros Hrec Hshape [Hent | Hent].
  - pose proof (reliabilities_puf_signed Hrec Hshape Hent) as H.
    unfold well_shaped in Hshape. revert H Hshape.
    generalize (reliabilities_puf to01 m) as out, (rows m) as rs.
    intros out rs H. induction rs as [|row rs IH] in out, H |- *;
      inversion H as [|r ? out' ? Hr Hrest]; subst; intros Hshape;
      constructor.
    + inversion Hshape as [|? ? Hlen _]; subst.
      rewrite Hr. unfold spec_reliability.
      apply half_distance_range. split; [apply count_nonneg|].
      rewrite <- Hlen. apply count_le_length.
    + apply IH; [exact Hrest | now inversion Hshape].
  - rewrite (reliabilities_puf_bits to01 Hent).
    unfold well_shaped, entries in *. revert Hshape Hent.
    generalize (rows m) as rs. intros rs Hshape Hent.
    induction Hshape as [|row rs Hlen _ IH]; cbn [map]; constructor.
    + apply half_distance_range. rewrite <- Hlen. apply sum_bits.
      now inversion Hent.
    + apply IH. now inversion Hent.
Qed.

Lemma reliabilities_puf_range_witness :
  Forall (fun r => (0 <= r <= inject_Z 4 / 2)%Q)
         (reliabilities_puf minus_is_one test_responses).
Proof.
  apply (@reliabilities_puf_range minus_is_one test_responses).
  - right; split; reflexivity.
  - exact test_responses_shaped.
  - left. exact test_responses_signed.
Defined.

Lemma Forall2_Qeq_sym (a b : list Q) : Forall2 Qeq a b -> Forall2 Qeq b a.
Proof. induction 1; constructor; [now symmetry | assumption]. Qed.

Lemma Forall2_Qeq_trans (a b c : list Q) :
  Forall2 Qeq a b -> Forall2 Qeq b c -> Forall2 Qeq a c.
Proof.
  intros H. revert c. induction H as [|x y a b Hxy _ IH]; intros c Hbc;
    inversion Hbc; subst; constructor.
  - etransitivity; eassumption.
  - now apply IH.
Qed.

Lemma count_opp (v : Z) (row : list Z) :
  count v (map Z.opp row) = count (- v) row.
Proof.
  induction row as [|z row IH]; [reflexivity|].
  cbn [map]. rewrite !count_cons, IH.
  destruct (Z.eq_dec (- z) v), (Z.eq_dec z (- v)); lia.
Qed.

Lemma pm1_opp (row : list Z) : Forall pm1 row -> Forall pm1 (map Z.opp row).
Proof.
  induction 1 as [|z row Hz _ IH]; cbn [map]; constructor; [|exact IH].
  destruct Hz; subst; [right | left]; reflexivity.
Qed.

Lemma spec_reliability_opp (row : list Z) :
  Forall pm1 row ->
  (spec_reliability (length row) (map Z.opp row)
   == spec_reliability (length row) row)%Q.
Proof.
  intros Hrow. unfold spec_reliability. rewrite count_opp.
  apply (@half_distance_mirror (length row) (count 1 row) (count (- (1)) row)).
  exact (count_pm1 Hrow).
Qed.

Lemma flip_rows_spec (R : nat) (flips : list bool) (rs : list (list Z)) :
  length flips = length rs ->
  Forall (fun r => length r = R) rs -> Forall (Forall pm1) rs ->
  let rs' := map (fun p : bool * list Z =>
                    if fst p then map Z.opp (snd p) else snd p)
                 (combine flips rs) in
  Forall (fun r => length r = R) rs'
  /\ Forall (Forall pm1) rs'
  /\ Forall2 Qeq (map (spec_reliability R) rs') (map (spec_reliability R) rs).
Proof.
  revert flips. induction rs as [|row rs IH]; intros [|b flips] Hlen Hshape Hent;
    try discriminate; cbn [combine map].
  - repeat split; constructor.
  - apply Forall_cons_iff in Hshape as [Hrow Hshape'].
    apply Forall_cons_iff in Hent as [Hpm Hent'].
    destruct (IH flips ltac:(now injection Hlen) Hshape' Hent')
      as (IH1 & IH2 & IH3).
    cbn [fst snd]. split; [|split].
    + constructor; [|exact IH1]. destruct b; [now rewrite length_map | exact Hrow].
    + constructor; [|exact IH2]. destruct b; [now apply pm1_opp | exact Hpm].
    + constructor; [|exact IH3].
      destruct b; [|reflexivity].
      rewrite <- Hrow. now apply spec_reliability_opp.
Qed.

(** The measured reliabilities do not see the polarity of the responses:
    negating all measurements of any set of challenges of a signed
    response matrix leaves every reliability as it was. *)
Theorem reliabilities_puf_polarity (to01 : Z -> Z) (flips : list bool)
    (m : ndarray2) :
  recodes_bits to01 -> well_shaped m -> entries pm1 m ->
  length flips = length (rows m) ->
  Forall2 Qeq (reliabilities_puf to01 (flip_rows flips m))
              (reliabilities_puf to01 m).
Proof.
  intros Hrec Hshape Hent Hlen.
  destruct (@flip_rows_spec (ncols m) flips (rows m) Hlen Hshape Hent)
    as (Hshape' & Hent' & Hspec).
  eapply Forall2_Qeq_trans.
  - apply (@reliabilities_puf_signed to01 (flip_rows flips m) Hrec);
      assumption.
  - eapply Forall2_Qeq_trans; [exact Hspec|].
    apply Forall2_Qeq_sym. now apply reliabilities_puf_signed.
Qed.

Lemma reliabilities_puf_polarity_witness :
  Forall2 Qeq
    (reliabilities_puf minus_is_one
       (flip_rows [false; true; false; true] test_responses))
    (reliabilities_puf minus_is_one test_responses).
Proof.
  apply reliabilities_puf_polarity.
  - right; split; reflexivity.
  - exact test_responses_shaped.
  - exact test_responses_signed.
  - reflexivity.
Defined.

(** ** The objective: degenerate measurements, sign and errors *)

Lemma mapM_inv (A B : Type) (f : A -> result B) (l : list A) (bs : list B) :
  mapM f l = Ok bs -> Forall2 (fun a b => f a = Ok b) l bs.
Proof.
  revert bs. induction l as [|a l IH]; intros bs; cbn [mapM].
  - intros H. injection H as <-. constructor.
  - destruct (f a) as [b|e] eqn:Ha; [|discriminate]. cbn [bind].
    destruct (mapM f l) as [bs'|e]; [|discriminate]. cbn [bind].
    intros H. injection H as <-. constructor; auto.
Qed.

Lemma mapM_raise (A B : Type) (f : A -> result B) (l : list A) (e : exn) :
  mapM f l = Raise e -> exists a, In a l /\ f a = Raise e.
Proof.
  induction l as [|a l IH]; cbn [mapM]; [discriminate|].
  destruct (f a) as [b|e'] eqn:Ha; cbn [bind].
  - destruct (mapM f l) as [bs'|e'']; cbn [bind]; [discriminate|].
    intros H. injection H as ->. destruct (IH eq_refl) as (a' & Hin & Ha').
    exists a'. split; [now right | exact Ha'].
  - intros H. injection H as ->. exists a. split; [now left | exact Ha].
Qed.

Lemma products_zero_or_nan_l (a b : list float) :
  Forall zero_or_nan a ->
  Forall zero_or_nan (map (fun p => (fst p * snd p)%float) (combine a b)).
Proof.
  intros Ha. revert b. induction Ha as [|z a Hz _ IH]; intros [|b0 b];
    cbn [combine map]; constructor.
  - cbn [fst snd]. now apply zero_or_nan_mul_l.
  - apply IH.
Qed.

(** With centred measurements that are all zero, [tf_pearsonr] divides a
    zero by a zero whatever the column of the model is. *)
Lemma tf_pearsonr_flat_measurements (x y : list float) (corr : float) :
  Forall zero_or_nan (center y) -> tf_pearsonr x y = Ok corr ->
  Prim2SF corr = S754_nan.
Proof.
  intros Hy. unfold tf_pearsonr, Tf.tensordot.
  destruct (Nat.eqb (length (center y)) (length (center x))); [|discriminate].
  cbn [bind]. intros H. injection H as <-.
  apply div_degenerate.
  - apply reduce_sum_zero_or_nan, products_zero_or_nan_l, Hy.
  - apply zero_or_nan_sqrt, zero_or_nan_mul_r, reduce_sum_zero_or_nan,
      squares_zero_or_nan, Hy.
Qed.

(** When the measured reliabilities have no variance as computed (their
    centred vector is zero: always so when every measured reliability is 0,
    and so on a noise-free PUF whose rows are all unanimous as long as the
    mean is computed exactly), [objective] returns NaN for every candidate
    of every population: the search gets no signal at all. *)
Theorem objective_flat_measurements (n : nat) (chal : list (list float))
    (y : list float) (state : list (list float)) :
  Forall (fun c => length c = n) chal ->
  length y = length chal ->
  Forall (fun cand => length cand = S n) state ->
  Forall (eq 0%float) y \/ Forall zero_or_nan (center y) ->
  exists out, objective n chal y state = Ok out
    /\ length out = length state
    /\ Forall (fun r => PrimFloat.is_nan r = true) out.
Proof.
  intros Hchal Hy Hstate Hflat.
  assert (Hc : Forall zero_or_nan (center y)).
  { destruct Hflat as [H0 | Hc]; [now apply center_all_unreliable | exact Hc]. }
  unfold objective.
  destruct (@mapM_ok _ _ (objective1 n chal y) state) as (out & Hout & Hlen & _).
  { eapply Forall_impl; [|exact Hstate]. cbv beta. intros cand Hcand.
    now apply objective1_ok. }
  exists out. split; [exact Hout|]. split; [exact Hlen|].
  apply mapM_inv in Hout. clear Hlen Hstate.
  induction Hout as [|cand r state out Hr _ IH]; constructor; [|exact IH].
  unfold objective1 in Hr.
  destruct (model_reliabilities n chal cand) as [x|e]; [|discriminate].
  cbn [bind] in Hr.
  destruct (tf_pearsonr x y) as [corr|e] eqn:Hcorr; [|discriminate].
  cbn [bind] in Hr. injection Hr as <-.
  apply is_nan_spec, abs_one_minus_nan.
  exact (@tf_pearsonr_flat_measurements x y corr Hc Hcorr).
Qed.

(** Five measurements of a noise-free PUF: every row is unanimous and every
    measured reliability is 2.5. *)
Lemma objective_flat_measurements_witness :
  exists out,
    objective 2 Examples.challenges4 [2.5; 2.5; 2.5; 2.5]%float
      [Examples.varied; Examples.all_unreliable] = Ok out
    /\ Forall (fun r => PrimFloat.is_nan r = true) out.
Proof.
  destruct (@objective_flat_measurements 2 Examples.challenges4
              [2.5; 2.5; 2.5; 2.5]%float
              [Examples.varied; Examples.all_unreliable])
    as (out & Hout & _ & Hnan).
  - repeat (constructor; [reflexivity|]). constructor.
  - reflexivity.
  - repeat (constructor; [reflexivity|]). constructor.
  - right. repeat (constructor; [exact I|]). constructor.
  - exists out. split; [exact Hout | exact Hnan].
Defined.

Lemma abs_not_negative (v : float) :
  PrimFloat.ltb (abs v) 0 = false
  /\ (PrimFloat.is_nan (abs v) = true \/ PrimFloat.leb 0 (abs v) = true).
Proof.
  unfold PrimFloat.is_nan.
  rewrite ltb_spec, leb_spec, eqb_spec, abs_spec.
  change (Prim2SF 0) with (S754_zero false).
  destruct (Prim2SF v) as [s|s| |s m e]; cbn; auto.
Qed.

(** No value returned by [objective] is negative: each one is NaN or at
    least 0. *)
Theorem objective_not_negative (n : nat) (chal : list (list float))
    (y : list float) (state : list (list float)) (out : list float) :
  objective n chal y state = Ok out ->
  Forall (fun r => PrimFloat.ltb r 0 = false
                   /\ (PrimFloat.is_nan r = true \/ PrimFloat.leb 0 r = true))
         out.
Proof.
  unfold objective. intros H. apply mapM_inv in H.
  induction H as [|cand r state out Hr _ IH]; constructor; [|exact IH].
  unfold objective1 in Hr.
  destruct (model_reliabilities n chal cand) as [x|e]; [|discriminate].
  cbn [bind] in Hr.
  destruct (tf_pearsonr x y) as [corr|e]; [|discriminate].
  cbn [bind] in Hr. injection Hr as <-. apply abs_not_negative.
Qed.

Lemma objective_not_negative_witness :
  exists out,
    objective 2 Examples.challenges4 Examples.rels4
      [Examples.all_unreliable; Examples.varied] = Ok out
    /\ Forall (fun r => PrimFloat.ltb r 0 = false
                   /\ (PrimFloat.is_nan r = true \/ PrimFloat.leb 0 r = true))
         out.
Proof.
  eexists. split; [vm_compute; reflexivity|].
  eapply (@objective_not_negative 2 Examples.challenges4 Examples.rels4
            [Examples.all_unreliable; Examples.varied]).
  vm_compute. reflexivity.
Defined.

Lemma delay_diffs_cases (chal : list (list float)) (w : list float) :
  (Forall (fun c => length c = length w) chal
   /\ exists d, delay_diffs chal w = Ok d /\ length d = length chal)
  \/ (Exists (fun c => length c <> length w) chal
      /\ delay_diffs chal w = Raise ShapeError).
Proof.
  unfold delay_diffs. induction chal as [|c chal IH]; cbn [mapM].
  - left. split; [constructor|]. exists []. auto.
  - destruct (Tf.tensordot w c) as [v|e] eqn:Hc; unfold Tf.tensordot in Hc;
      destruct (Nat.eqb (length w) (length c)) eqn:E; try discriminate.
    + apply Nat.eqb_eq in E. cbn [bind].
      destruct IH as [(Hall & d & Hd & Hlen) | (Hex & Hraise)].
      * left. split; [constructor; auto|]. rewrite Hd. cbn [bind].
        eexists. split; [reflexivity|]. cbn [length]. now rewrite Hlen.
      * right. split; [now apply Exists_cons_tl|]. now rewrite Hraise.
    + apply Nat.eqb_neq in E. injection Hc as <-. right.
      split; [|reflexivity]. apply Exists_cons_hd. congruence.
Qed.

Lemma tf_pearsonr_cases (x y : list float) :
  (length y = length x /\ exists corr, tf_pearsonr x y = Ok corr)
  \/ (length y <> length x /\ tf_pearsonr x y = Raise ShapeError).
Proof.
  unfold tf_pearsonr, Tf.tensordot. rewrite !center_length.
  destruct (Nat.eqb (length y) (length x)) eqn:E.
  - apply Nat.eqb_eq in E. left. split; [exact E|]. cbn [bind]. eauto.
  - apply Nat.eqb_neq in E. right. split; [exact E | reflexivity].
Qed.

Lemma Forall_Exists_neg_length (chal : list (list float)) (k : nat) :
  Forall (fun c => length c = k) chal ->
  Exists (fun c => length c <> k) chal -> False.
Proof.
  intros Hall Hex. apply Exists_exists in Hex as (c & Hin & Hne).
  rewrite Forall_forall in Hall. auto.
Qed.

Ltac outcome_case :=
  repeat match goal with
         | H : _ /\ _ |- _ => destruct H
         | H : exists _, _ |- _ => destruct H
         | H : _ \/ _ |- _ => destruct H
         end;
  try discriminate; try congruence; try assumption;
  try (exfalso; eapply Forall_Exists_neg_length; eassumption);
  try (left; assumption); try (right; assumption);
  eauto.

(** The three outcomes of [objective] on one candidate.  A candidate with no
    entry at all raises an index error ([state[:, -1]]); otherwise the
    evaluation succeeds exactly when every challenge has as many entries as
    the weights taken from the candidate (its first n entries, or all of
    them when it has fewer) and there is one measured reliability per
    challenge, and it raises a shape error in every other case. *)
Theorem objective1_outcomes (n : nat) (chal : list (list float))
    (y cand : list float) :
  (objective1 n chal y cand = Raise IndexError <-> cand = [])
  /\ (objective1 n chal y cand = Raise ShapeError
      <-> cand <> []
          /\ (Exists (fun c => length c <> Nat.min n (length cand)) chal
              \/ length y <> length chal))
  /\ ((exists r, objective1 n chal y cand = Ok r)
      <-> cand <> []
          /\ Forall (fun c => length c = Nat.min n (length cand)) chal
          /\ length y = length chal).
Proof.
  unfold objective1, model_reliabilities, last_entry, chain_reliabilities.
  destruct cand as [|c0 cand'].
  - cbn [bind]. repeat split; intros; outcome_case.
  - cbn [bind]. set (cand := c0 :: cand').
    assert (Hne : cand <> []) by discriminate.
    assert (Hw : length (firstn n cand) = Nat.min n (length cand))
      by apply length_firstn.
    destruct (delay_diffs_cases chal (firstn n cand))
      as [(Hall & d & Hd & Hlen) | (Hex & Hraise)].
    + rewrite Hd. cbn [bind]. rewrite Hw in Hall.
      destruct (tf_pearsonr_cases (reliabilities_model d (last cand 0%float)) y)
        as [(Hy & corr & Hcorr) | (Hy & Hcorr)];
        rewrite Hcorr; cbn [bind];
        unfold reliabilities_model in Hy; rewrite length_map, Hlen in Hy;
        repeat split; intros; outcome_case.
    + rewrite Hraise. cbn [bind]. rewrite Hw in Hex.
      repeat split; intros; outcome_case.
Qed.

(** ** The modelled reliability as a function of epsilon *)

Lemma SFleb_ltb_trans (a b c : spec_float) :
  SFleb a b = true -> SFltb b c = true -> SFltb a c = true.
Proof.
  unfold SFleb, SFltb.
  destruct a as [sa|sa| |sa ma ea], b as [sb|sb| |sb mb eb],
           c as [sc|sc| |sc mc ec];
    cbn [SFcompare]; try discriminate;
    try (destruct sa, sb, sc; cbn; congruence).
  all: destruct sa, sb, sc; cbn [CompOpp]; try congruence; try discriminate.
  all: compare_cases; cbn [CompOpp]; try congruence; try discriminate; try lia.
Qed.

Lemma leb_ltb_trans (a b c : float) :
  PrimFloat.leb a b = true -> PrimFloat.ltb b c = true ->
  PrimFloat.ltb a c = true.
Proof. rewrite leb_spec, !ltb_spec. apply SFleb_ltb_trans. Qed.

(** Raising epsilon never makes a challenge reliable: every challenge that
    is marked reliable under the larger of two thresholds is marked
    reliable under the smaller one. *)
Theorem reliabilities_model_monotone (delay_margins : list float)
    (epsilon epsilon' : float) :
  PrimFloat.leb epsilon epsilon' = true ->
  forall i r', nth_error (reliabilities_model delay_margins epsilon') i = Some r' ->
    r' = 1%float ->
    nth_error (reliabilities_model delay_margins epsilon) i = Some 1%float.
Proof.
  intros Hle i r'. unfold reliabilities_model. rewrite !nth_error_map.
  destruct (nth_error delay_margins i) as [d|]; [|discriminate].
  cbn [option_map]. intros H Hone. injection H as <-.
  apply cast_double_one in Hone. unfold Tf.greater in *.
  now rewrite (leb_ltb_trans Hle Hone).
Qed.

Lemma reliabilities_model_monotone_witness :
  nth_error (reliabilities_model [0.5; -4; 3]%float 2%float) 1 = Some 1%float.
Proof.
  apply (@reliabilities_model_monotone [0.5; -4; 3]%float 2%float 3%float
           eq_refl 1 1%float); reflexivity.
Defined.

Lemma ltb_negative_abs (e d : float) :
  PrimFloat.ltb e 0 = true -> PrimFloat.is_nan d = false ->
  PrimFloat.ltb e (abs d) = true.
Proof.
  intros He Hd.
  assert (Hd' : Prim2SF d <> S754_nan).
  { intros H. apply is_nan_spec in H. congruence. }
  revert He. rewrite !ltb_spec, abs_spec.
  change (Prim2SF 0) with (S754_zero false). unfold SFltb.
  destruct (Prim2SF e) as [se|se| |se me ee],
           (Prim2SF d) as [sd|sd| |sd md ed];
    cbn [SFcompare SFabs]; try congruence; try (destruct se; congruence).
Qed.

Lemma ltb_nan_l (e d : float) :
  PrimFloat.is_nan e = true -> PrimFloat.ltb e d = false.
Proof.
  intros He. apply is_nan_iff in He. rewrite ltb_spec, He. reflexivity.
Qed.

Lemma ltb_abs_nan_r (e d : float) :
  PrimFloat.is_nan d = true -> PrimFloat.ltb e (abs d) = false.
Proof.
  intros Hd. apply is_nan_iff in Hd. rewrite ltb_spec, abs_spec, Hd.
  unfold SFltb. destruct (Prim2SF e); reflexivity.
Qed.

(** The thresholds at the edge: with a negative epsilon every challenge
    whose delay margin is a number is marked reliable, whatever the
    margin; with an epsilon that is NaN no challenge is marked reliable;
    and a challenge whose delay margin is NaN is never marked reliable.  In
    the first two cases the modelled reliability is constant. *)
Theorem reliabilities_model_edges (delay_margins : list float) (epsilon : float) :
  (PrimFloat.ltb epsilon 0 = true ->
   Forall (fun d => PrimFloat.is_nan d = false) delay_margins ->
   reliabilities_model delay_margins epsilon
   = map (fun _ => 1%float) delay_margins)
  /\ (PrimFloat.is_nan epsilon = true ->
      reliabilities_model delay_margins epsilon
      = map (fun _ => 0%float) delay_margins)
  /\ (forall i d, nth_error delay_margins i = Some d ->
        PrimFloat.is_nan d = true ->
        nth_error (reliabilities_model delay_margins epsilon) i = Some 0%float).
Proof.
  unfold reliabilities_model, Tf.greater. repeat split.
  - intros He Hd. induction Hd as [|d ds Hd _ IH]; cbn [map]; [reflexivity|].
    now rewrite IH, (@ltb_negative_abs epsilon d He Hd).
  - intros He. apply map_ext. intros d. now rewrite (@ltb_nan_l epsilon (abs d) He).
  - intros i d Hi Hd. rewrite nth_error_map, Hi. cbn [option_map].
    now rewrite (@ltb_abs_nan_r epsilon d Hd).
Qed.

Lemma reliabilities_model_edges_witness :
  reliabilities_model [0.5; -4; 0]%float (-1)%float = [1; 1; 1]%float.
Proof.
  apply (proj1 (reliabilities_model_edges [0.5; -4; 0]%float (-1)%float)).
  - reflexivity.
  - repeat (constructor; [reflexivity|]). constructor.
Defined.

(** ** The canonical sign as a choice of representative *)

Lemma Qopp_twice (q : Q) : (- - q)%Q = q.
Proof. destruct q as [a b]. unfold Qopp. cbn. now rewrite Z.opp_involutive. Qed.

Lemma neg_involutive (w : chain) : neg (neg w) = w.
Proof.
  unfold neg. rewrite map_map. rewrite <- (map_id w) at 2.
  apply map_ext. exact Qopp_twice.
Qed.

Lemma Qltb_opp_pos (q : Q) : (0 < q)%Q -> Qltb (- q) 0 = true.
Proof.
  intros H. apply Qltb_lt. apply Qopp_lt_compat in H. exact H.
Qed.

Lemma Qltb_opp_neg (q : Q) : Qltb q 0 = true -> Qltb (- q) 0 = false.
Proof.
  intros H. apply Qltb_lt in H. apply Qltb_ge.
  apply Qlt_le_weak, Qopp_le_compat in H. exact H.
Qed.

Lemma Qltb_zero (q : Q) : (q == 0)%Q -> Qltb q 0 = false /\ Qltb (- q) 0 = false.
Proof.
  intros H. split; apply Qltb_ge.
  - rewrite H. apply Qle_refl.
  - rewrite H. apply Qle_refl.
Qed.

(** The sign convention picks one representative per pair {w, -w}: it is
    idempotent, and a weight vector and its negation get the same
    canonical chain as soon as the first weight is not zero.  When the
    first weight is zero neither vector is changed, so the two signs stay
    apart. *)
Theorem canonical_sign_representative (w0 : Q) (rest : list Q) (c : chain) :
  canonical_sign (w0 :: rest) = Ok c ->
  canonical_sign c = Ok c
  /\ (~ (w0 == 0)%Q -> canonical_sign (neg (w0 :: rest)) = Ok c)
  /\ ((w0 == 0)%Q ->
      c = w0 :: rest
      /\ canonical_sign (neg (w0 :: rest)) = Ok (neg (w0 :: rest))).
Proof.
  cbn [canonical_sign neg map]. fold (neg rest).
  destruct (Qltb w0 0) eqn:E; intros H; injection H as <-.
  - pose proof (@Qltb_opp_neg w0 E) as E'. apply Qltb_lt in E.
    cbn [canonical_sign neg map]. rewrite E'.
    split; [reflexivity|]. split; [reflexivity|].
    intros Hz. rewrite Hz in E. now apply Qlt_irrefl in E.
  - cbn [canonical_sign]. rewrite E. split; [reflexivity|]. split.
    + intros Hnz. apply Qltb_ge in E.
      assert (Hpos : (0 < w0)%Q).
      { apply Qlt_leneq. split; [exact E|]. intros H. apply Hnz. now symmetry. }
      rewrite (Qltb_opp_pos Hpos). cbn [neg map]. fold (neg rest).
      f_equal. rewrite Qopp_twice. f_equal. apply (neg_involutive rest).
    + intros Hz. split; [reflexivity|].
      now rewrite (proj2 (Qltb_zero Hz)).
Qed.

Lemma canonical_sign_representative_witness :
  canonical_sign (neg [-1 # 2; 3]%Q) = Ok (neg [-1 # 2; 3]%Q)
  /\ canonical_sign (neg [-1 # 2; 3]%Q) = canonical_sign [-1 # 2; 3]%Q.
Proof.
  destruct (@canonical_sign_representative (-1 # 2)%Q [3%Q]
              (neg [-1 # 2; 3]%Q) eq_refl) as (_ & Hsame & _).
  split; [apply Hsame; discriminate|].
  rewrite Hsame by discriminate. reflexivity.
Defined.

(** ** The bookkeeping of the assembly loop *)

Lemma append_at_length (i x : nat) (d : list (list nat)) :
  length (append_at i x d) = length d.
Proof.
  revert i. induction d as [|l d IH]; intros [|i]; cbn [append_at length];
    auto.
Qed.

Lemma append_at_total (i x : nat) (d : list (list nat)) :
  i < length d -> total_entries (append_at i x d) = S (total_entries d).
Proof.
  unfold total_entries. revert i.
  induction d as [|l d IH]; intros [|i] Hi; cbn [append_at length] in *;
    try lia; cbn [concat]; rewrite !length_app.
  - cbn [length]. lia.
  - rewrite IH by lia. lia.
Qed.

Lemma append_at_same (i x : nat) (d : list (list nat)) (l : list nat) :
  nth_error d i = Some l -> nth_error (append_at i x d) i = Some (l ++ [x]).
Proof.
  revert i. induction d as [|l' d IH]; intros [|i]; cbn [append_at nth_error];
    try discriminate.
  - intros H. now injection H as ->.
  - apply IH.
Qed.

Lemma append_at_other (i j x : nat) (d : list (list nat)) :
  i <> j -> nth_error (append_at i x d) j = nth_error d j.
Proof.
  revert i j. induction d as [|l' d IH]; intros [|i] [|j] Hne;
    cbn [append_at nth_error]; try reflexivity; try congruence.
  apply IH. congruence.
Qed.

Section Bookkeeping.

Variable k : nat.
Variable search : nat -> nat -> list Q * nat.
Variable pearsonr : chain -> chain -> float.

(** What one iteration writes into [meta_data]. *)
Lemma attempt_meta (st st' : loop_state) :
  attempt search pearsonr st = Ok st' ->
  attempts st' = S (attempts st)
  /\ iteration_count (meta st')
     = append_at (n_chain st) (snd (search (attempts st) (n_chain st)))
         (iteration_count (meta st))
  /\ ((n_chain st' = S (n_chain st)
       /\ discard_count (meta st') = discard_count (meta st))
      \/ (n_chain st' = n_chain st
          /\ exists j, j < length (pool st)
               /\ discard_count (meta st')
                  = append_at (n_chain st) j (discard_count (meta st)))).
Proof.
  unfold attempt. destruct (search (attempts st) (n_chain st)) as [w0 gen].
  cbn [snd]. destruct (canonical_sign (removelast w0)) as [w|e]; [|discriminate].
  cbn [bind].
  destruct (first_correlated pearsonr w (pool st) 0) as [j|] eqn:E;
    intros Hst; injection Hst as <-;
    cbn [attempts n_chain meta iteration_count discard_count].
  - split; [reflexivity|]. split; [reflexivity|]. right.
    split; [reflexivity|]. exists j. split; [|reflexivity].
    destruct (first_correlated_some _ _ _ _ E) as (v & Hv & _ & _).
    rewrite Nat.sub_0_r in Hv. apply nth_error_Some. congruence.
  - split; [reflexivity|]. split; [reflexivity|]. left. auto.
Qed.

Lemma repeat_nil_total (n : nat) : total_entries (repeat (@nil nat) n) = 0.
Proof. unfold total_entries. induction n; cbn; auto. Qed.

Lemma bookkeeping_initial : bookkeeping k (initial_state k).
Proof.
  unfold bookkeeping, initial_state.
  cbn [meta discard_count iteration_count attempts n_chain].
  rewrite !repeat_length, !repeat_nil_total.
  repeat split; try reflexivity;
    apply nth_error_In, repeat_spec in H; apply nth_error_In, repeat_spec in H0;
    subst; auto.
Qed.

Lemma bookkeeping_step (st st' : loop_state) :
  length (pool st) = n_chain st -> n_chain st < k ->
  attempt search pearsonr st = Ok st' ->
  bookkeeping k st -> bookkeeping k st'.
Proof.
  intros Hpool Hlt Hstep (Hd & Hi & Hti & Htd & Hrows).
  destruct (attempt_meta _ Hstep) as (Hatt & Hiter & Hcase).
  unfold bookkeeping. rewrite Hatt, Hiter.
  rewrite append_at_length, append_at_total by lia.
  destruct Hcase as [(Hn & Hdisc) | (Hn & j & Hj & Hdisc)];
    rewrite Hn, Hdisc.
  - repeat split; try lia.
    + destruct (Nat.eq_dec i (n_chain st)) as [-> | Hne].
      * destruct (nth_error (iteration_count (meta st)) (n_chain st))
          as [ii0|] eqn:Hii0.
        -- eapply Hrows; eauto.
        -- apply nth_error_None in Hii0. lia.
      * rewrite append_at_other in H0 by congruence. eapply Hrows; eauto.
    + destruct (Nat.eq_dec i (n_chain st)) as [-> | Hne].
      * destruct (nth_error (iteration_count (meta st)) (n_chain st))
          as [ii0|] eqn:Hii0; [|apply nth_error_None in Hii0; lia].
        rewrite (append_at_same _ _ _ Hii0) in H0. injection H0 as <-.
        destruct (Hrows _ _ _ H Hii0) as (_ & Hlen & _).
        rewrite Nat.ltb_irrefl in Hlen.
        rewrite length_app. cbn [length].
        replace (Nat.ltb (n_chain st) (S (n_chain st))) with true
          by (symmetry; apply Nat.ltb_lt; lia).
        lia.
      * rewrite append_at_other in H0 by congruence.
        destruct (Hrows _ _ _ H H0) as (_ & Hlen & _). rewrite Hlen.
        destruct (Nat.ltb i (n_chain st)) eqn:E1,
                 (Nat.ltb i (S (n_chain st))) eqn:E2;
          try reflexivity;
          [apply Nat.ltb_lt in E1; apply Nat.ltb_ge in E2
          |apply Nat.ltb_ge in E1; apply Nat.ltb_lt in E2]; lia.
    + intros Hgt.
      destruct (Nat.eq_dec i (n_chain st)) as [-> | Hne]; [lia|].
      rewrite append_at_other in H0 by congruence.
      destruct (Hrows _ _ _ H H0) as (_ & _ & Hempty). apply Hempty. lia.
  - rewrite append_at_length, append_at_total by lia.
    repeat split; try lia.
    + destruct (Nat.eq_dec i (n_chain st)) as [-> | Hne].
      * destruct (nth_error (discard_count (meta st)) (n_chain st))
          as [di0|] eqn:Hdi0; [|apply nth_error_None in Hdi0; lia].
        destruct (nth_error (iteration_count (meta st)) (n_chain st))
          as [ii0|] eqn:Hii0; [|apply nth_error_None in Hii0; lia].
        rewrite (append_at_same _ _ _ Hdi0) in H. injection H as <-.
        apply Forall_app. split; [eapply Hrows; eauto|].
        constructor; [lia | constructor].
      * rewrite append_at_other in H, H0 by congruence. eapply Hrows; eauto.
    + destruct (Nat.eq_dec i (n_chain st)) as [-> | Hne].
      * destruct (nth_error (discard_count (meta st)) (n_chain st))
          as [di0|] eqn:Hdi0; [|apply nth_error_None in Hdi0; lia].
        destruct (nth_error (iteration_count (meta st)) (n_chain st))
          as [ii0|] eqn:Hii0; [|apply nth_error_None in Hii0; lia].
        rewrite (append_at_same _ _ _ Hdi0) in H. injection H as <-.
        rewrite (append_at_same _ _ _ Hii0) in H0. injection H0 as <-.
        destruct (Hrows _ _ _ Hdi0 Hii0) as (_ & Hlen & _).
        rewrite !length_app. cbn [length]. lia.
      * rewrite append_at_other in H, H0 by congruence.
        eapply Hrows; eauto.
    + intros Hgt.
      destruct (Nat.eq_dec i (n_chain st)) as [-> | Hne]; [lia|].
      rewrite append_at_other in H, H0 by congruence.
      destruct (Hrows _ _ _ H H0) as (_ & _ & Hempty). apply Hempty. lia.
Qed.

End Bookkeeping.

(** In every state of the assembly loop the two dicts of [meta_data] have
    their k keys; one generation count has been recorded per attempt and
    one discard per attempt that did not enter the pool; a discard recorded
    for chain i names a pool member below i, and chain i has one generation
    count per discard plus one once it is accepted; nothing is recorded for
    chains the loop has not reached. *)
Theorem meta_data_bookkeeping (k : nat) (search : nat -> nat -> list Q * nat)
    (pearsonr : chain -> chain -> float) (st : loop_state) :
  reachable k search pearsonr st -> bookkeeping k st.
Proof.
  induction 1 as [|st st' Hr IH Hlt Hstep].
  - apply bookkeeping_initial.
  - destruct (reachable_invariant Hr) as (_ & Hlen & _).
    exact (@bookkeeping_step k search pearsonr st st' Hlen Hlt Hstep IH).
Qed.

Lemma meta_data_bookkeeping_witness :
  bookkeeping 2 Examples.final3.
Proof.
  apply (@meta_data_bookkeeping 2 Examples.search3 pearsonr_ref).
  assert (Hloop : learn_loop 2 Examples.search3 pearsonr_ref 3 (initial_state 2)
                  = Some (Ok Examples.final3)) by (vm_compute; reflexivity).
  exact (proj1 (learn_loop_exit 3 (reach_init 2 Examples.search3 pearsonr_ref)
                  Hloop)).
Defined.

(** ** Runs of the assembly loop *)

Section Runs.

Variable k : nat.
Variable search : nat -> nat -> list Q * nat.
Variable pearsonr : chain -> chain -> float.

Lemma attempt_accepts (st : loop_state) (c : chain) :
  canonical_sign
    (removelast (fst (search (attempts st) (n_chain st)))) = Ok c ->
  (forall v, In v (pool st) -> correlated pearsonr c v = false) ->
  exists st', attempt search pearsonr st = Ok st'
    /\ attempts st' = S (attempts st)
    /\ n_chain st' = S (n_chain st)
    /\ pool st' = pool st ++ [c].
Proof.
  intros Hc Hnew. unfold attempt.
  destruct (search (attempts st) (n_chain st)) as [w0 gen].
  cbn [fst] in Hc. rewrite Hc. cbn [bind].
  rewrite (proj2 (first_correlated_none pearsonr c (pool st) 0) Hnew).
  eexists. split; [reflexivity|]. auto.
Qed.

Lemma attempt_discards (st : loop_state) (c v : chain) :
  canonical_sign
    (removelast (fst (search (attempts st) (n_chain st)))) = Ok c ->
  In v (pool st) -> correlated pearsonr c v = true ->
  exists st', attempt search pearsonr st = Ok st'
    /\ attempts st' = S (attempts st)
    /\ n_chain st' = n_chain st
    /\ pool st' = pool st.
Proof.
  intros Hc Hin Hcor. unfold attempt.
  destruct (search (attempts st) (n_chain st)) as [w0 gen].
  cbn [fst] in Hc. rewrite Hc. cbn [bind].
  destruct (first_correlated pearsonr c (pool st) 0) as [j|] eqn:E.
  - eexists. split; [reflexivity|]. auto.
  - rewrite first_correlated_none in E. rewrite (E v Hin) in Hcor.
    discriminate.
Qed.

(** A run without discards, from the state reached after [j] accepted
    chains. *)
Lemma run_without_discards (m : nat) :
  forall (j : nat) (st : loop_state),
    j + m = k -> attempts st = j -> n_chain st = j ->
    Forall2 (fun a c => candidate search a = Ok c) (seq 0 j) (pool st) ->
    (forall a, a < k -> exists c, candidate search a = Ok c) ->
    (forall a b ca cb, a < b -> b < k ->
       candidate search a = Ok ca -> candidate search b = Ok cb ->
       correlated pearsonr cb ca = false) ->
    forall fuel, m <= fuel ->
    exists st', learn_loop k search pearsonr fuel st = Some (Ok st')
      /\ attempts st' = k /\ n_chain st' = k
      /\ Forall2 (fun a c => candidate search a = Ok c) (seq 0 k) (pool st').
Proof.
  induction m as [|m IH]; intros j st Hjm Hatt Hn Hpool Hcand Hnew fuel Hfuel.
  - exists st. replace j with k in * by lia.
    destruct fuel; cbn [learn_loop]; rewrite Hn, Nat.ltb_irrefl; auto.
  - destruct fuel as [|fuel]; [lia|]. cbn [learn_loop].
    assert (Hlt : j < k) by lia.
    rewrite Hn. replace (Nat.ltb j k) with true
      by (symmetry; now apply Nat.ltb_lt).
    destruct (Hcand j Hlt) as [c Hc].
    destruct (@attempt_accepts st c) as (st1 & Hst1 & Hatt1 & Hn1 & Hpool1).
    { rewrite Hatt, Hn. exact Hc. }
    { intros v Hv. apply In_nth_error in Hv as [a Ha].
      assert (Hsome : nth_error (seq 0 j) a <> None).
      { apply nth_error_Some.
        rewrite (Forall2_length Hpool). apply nth_error_Some. congruence. }
      destruct (nth_error (seq 0 j) a) as [a'|] eqn:Ha'; [|congruence].
      assert (Ha'j : a' < j).
      { apply nth_error_In, in_seq in Ha'. lia. }
      assert (Hva : candidate search a' = Ok v).
      { clear - Hpool Ha Ha'. revert a Ha Ha'.
        induction Hpool as [|x y l l' Hxy _ IHl]; intros [|a] Ha Ha';
          cbn [nth_error] in *; try discriminate.
        - injection Ha as <-. injection Ha' as <-. exact Hxy.
        - eauto. }
      exact (Hnew a' j v c Ha'j Hlt Hva Hc). }
    rewrite Hst1.
    apply (IH (S j) st1); try lia; try assumption.
    rewrite Hpool1, seq_S. cbn [Nat.add].
    apply Forall2_app; [exact Hpool|]. constructor; [exact Hc | constructor].
Qed.

End Runs.

(** When every search result has n weights and epsilon, with n at least 2
    (so that scipy accepts every pair of chains), and no candidate chain is
    correlated beyond the threshold with an earlier one, the loop ends
    after exactly k attempts, whatever fuel of at least k is given: attempt
    a learns chain a and the pool holds the k candidates, of n weights
    each, in their order. *)
Theorem learn_loop_without_discards (k n : nat)
    (search : nat -> nat -> list Q * nat)
    (pearsonr : chain -> chain -> float) (fuel : nat) :
  2 <= n ->
  (forall a, a < k -> length (fst (search a a)) = S n) ->
  (forall a b ca cb, a < b -> b < k ->
     candidate search a = Ok ca -> candidate search b = Ok cb ->
     correlated pearsonr cb ca = false) ->
  k <= fuel ->
  exists st, learn_loop k search pearsonr fuel (initial_state k) = Some (Ok st)
    /\ attempts st = k /\ n_chain st = k
    /\ Forall2 (fun a c => candidate search a = Ok c /\ length c = n)
               (seq 0 k) (pool st).
Proof.
  intros Hn Hlen Hnew Hfuel.
  assert (Hcand : forall a, a < k ->
            exists c, candidate search a = Ok c /\ length c = n).
  { intros a Ha. unfold candidate.
    assert (Hl : length (removelast (fst (search a a))) = n).
    { rewrite removelast_firstn_len, length_firstn, (Hlen a Ha). lia. }
    destruct (removelast (fst (search a a))) as [|w0 rest] eqn:E;
      [cbn [length] in Hl; lia|].
    cbn [canonical_sign]. eexists. split; [reflexivity|].
    destruct (Qltb w0 0); [unfold neg; rewrite length_map|]; exact Hl. }
  destruct (@run_without_discards k search pearsonr k 0 (initial_state k))
    with (fuel := fuel) as (st & Hst & Hatt & Hnc & Hpool);
    auto; try constructor.
  { intros a Ha. destruct (Hcand a Ha) as (c & Hc & _). eauto. }
  exists st. split; [exact Hst|]. split; [exact Hatt|]. split; [exact Hnc|].
  assert (Hin : forall a, In a (seq 0 k) -> a < k)
    by (intros a Ha; apply in_seq in Ha; lia).
  revert Hin. induction Hpool as [|a c l l' Hac _ IH]; intros Hin;
    constructor.
  - split; [exact Hac|]. destruct (Hcand a (Hin a (or_introl eq_refl)))
      as (c' & Hc' & Hl). congruence.
  - apply IH. intros b Hb. apply Hin. now right.
Qed.

Lemma learn_loop_without_discards_witness :
  exists st,
    learn_loop 3 Examples.search3 MoreExamples.pearsonr_small 5 (initial_state 3)
    = Some (Ok st)
    /\ attempts st = 3.
Proof.
  destruct (@learn_loop_without_discards 3 16 Examples.search3
              MoreExamples.pearsonr_small 5) as (st & Hst & Hatt & _).
  - lia.
  - intros a Ha.
    destruct a as [|[|[|a]]]; [reflexivity .. | lia].
  - intros a b ca cb _ _ _ _. reflexivity.
  - lia.
  - exists st. split; [exact Hst | exact Hatt].
Defined.

Lemma removelast_length (A : Type) (l : list A) :
  length (removelast l) = Nat.pred (length l).
Proof.
  rewrite removelast_firstn_len, length_firstn. lia.
Qed.

Lemma canonical_sign_ok (v c : chain) :
  canonical_sign v = Ok c -> canonical c /\ length c = length v.
Proof.
  destruct v as [|w0 rest]; [discriminate|].
  cbn [canonical_sign]. destruct (Qltb w0 0) eqn:E;
    intros H; injection H as <-.
  - split; [|unfold neg; cbn [map length]; now rewrite length_map].
    cbn [neg map canonical].
    apply Qltb_lt, Qlt_le_weak, Qopp_le_compat in E. exact E.
  - split; [|reflexivity]. cbn [canonical]. now apply Qltb_ge.
Qed.

Section RunsThatFail.

Variable k : nat.
Variable search : nat -> nat -> list Q * nat.
Variable pearsonr : chain -> chain -> float.

Lemma stuck_forever (c0 : chain) (fuel : nat) :
  2 <= k ->
  (forall a, 1 <= a ->
     exists c, canonical_sign (removelast (fst (search a 1))) = Ok c
               /\ correlated pearsonr c c0 = true) ->
  forall st, 1 <= attempts st -> n_chain st = 1 -> pool st = [c0] ->
    learn_loop k search pearsonr fuel st = None.
Proof.
  intros Hk Hdup. induction fuel as [|fuel IH]; intros st Hatt Hn Hpool;
    cbn [learn_loop]; rewrite Hn;
    replace (Nat.ltb 1 k) with true by (symmetry; apply Nat.ltb_lt; lia).
  - reflexivity.
  - destruct (Hdup (attempts st) Hatt) as (c & Hc & Hcor).
    destruct (@attempt_discards search pearsonr st c c0)
      as (st' & Hst' & Hatt' & Hn' & Hpool').
    + now rewrite Hn.
    + rewrite Hpool. now left.
    + exact Hcor.
    + rewrite Hst'. apply IH; [lia | congruence | congruence].
Qed.

Lemma pool_canonical (n : nat) (st : loop_state) :
  (forall a i, length (fst (search a i)) = S n) ->
  reachable k search pearsonr st ->
  Forall (fun c => canonical c /\ length c = n) (pool st).
Proof.
  intros Hn. induction 1 as [|st st' _ IH Hlt Hstep].
  - constructor.
  - destruct (attempt_cases _ _ _ Hstep) as (w & Hw & _ & Hcase).
    destruct Hcase as [(_ & -> & _) | (_ & -> & _)]; [|exact IH].
    apply Forall_app. split; [exact IH|]. constructor; [|constructor].
    destruct (canonical_sign_ok _ Hw) as (Hc & Hlen).
    split; [exact Hc|]. rewrite Hlen, removelast_length, Hn. reflexivity.
Qed.

End RunsThatFail.

(** The loop has no bound: when k is at least 2, the first chain has been
    accepted and every later search for the second chain comes back with a
    candidate correlated with the first beyond the threshold, [learn] does
    not return, whatever fuel is given. *)
Theorem learn_never_returns (k : nat) (search : nat -> nat -> list Q * nat)
    (pearsonr : chain -> chain -> float)
    (ltf_eval : list chain -> list (list Z) -> list Z)
    (challenges : list (list Z)) (responses : ndarray2) (c0 : chain) :
  2 <= k ->
  candidate search 0 = Ok c0 ->
  (forall a, 1 <= a ->
     exists c, canonical_sign (removelast (fst (search a 1))) = Ok c
               /\ correlated pearsonr c c0 = true) ->
  forall fuel,
    learn k search pearsonr ltf_eval challenges responses fuel = None.
Proof.
  intros Hk Hc0 Hdup fuel. unfold learn.
  assert (Hloop : learn_loop k search pearsonr fuel (initial_state k) = None).
  { destruct fuel as [|fuel]; cbn [learn_loop initial_state n_chain];
      replace (Nat.ltb 0 k) with true by (symmetry; apply Nat.ltb_lt; lia);
      [reflexivity|].
    destruct (@attempt_accepts search pearsonr (initial_state k) c0)
      as (st1 & Hst1 & Hatt1 & Hn1 & Hpool1).
    - exact Hc0.
    - intros v [].
    - fold (initial_state k). rewrite Hst1.
      apply (@stuck_forever k search pearsonr c0 fuel Hk Hdup st1).
      + rewrite Hatt1. cbn. lia.
      + rewrite Hn1. reflexivity.
      + rewrite Hpool1. reflexivity. }
  now rewrite Hloop.
Qed.

(** The duplicated weight vector of the spec, found again by every search. *)
Lemma learn_never_returns_witness :
  learn 2 MoreExamples.search_dup pearsonr_ref Examples.eval_zero
    Examples.challenges3 Examples.responses3 100 = None.
Proof.
  apply (@learn_never_returns 2 MoreExamples.search_dup pearsonr_ref
           Examples.eval_zero Examples.challenges3 Examples.responses3
           Examples.dup_chain).
  - lia.
  - reflexivity.
  - intros a _. exists Examples.dup_chain. split; [reflexivity|].
    vm_compute. reflexivity.
Defined.

(** A search result that holds epsilon only (n = 0) leaves no weights after
    the last entry is dropped: [w[0]] raises an index error in the first
    attempt, and [learn] fails with it as soon as k is positive. *)
Theorem learn_without_weights (k : nat) (search : nat -> nat -> list Q * nat)
    (pearsonr : chain -> chain -> float)
    (ltf_eval : list chain -> list (list Z) -> list Z)
    (challenges : list (list Z)) (responses : ndarray2) (fuel : nat) :
  0 < k -> length (fst (search 0 0)) <= 1 ->
  learn k search pearsonr ltf_eval challenges responses (S fuel)
  = Some (Raise IndexError).
Proof.
  intros Hk Hlen. unfold learn. cbn [learn_loop initial_state n_chain].
  replace (Nat.ltb 0 k) with true by (symmetry; now apply Nat.ltb_lt).
  unfold attempt.
  change (attempts (initial_state k)) with 0.
  change (n_chain (initial_state k)) with 0.
  destruct (search 0 0) as [w gen]. cbn [fst] in Hlen.
  assert (Hw : removelast w = []).
  { destruct w as [|a [|b w]]; cbn in Hlen; try reflexivity. lia. }
  rewrite Hw. reflexivity.
Qed.

Lemma learn_without_weights_witness :
  learn 1 MoreExamples.search_no_weights pearsonr_ref Examples.eval_zero
    Examples.challenges3 Examples.responses3 1
  = Some (Raise IndexError).
Proof.
  apply learn_without_weights; cbn; lia.
Defined.

Lemma resolve_polarity_cases
    (ltf_eval : list chain -> list (list Z) -> list Z)
    (challenges : list (list Z)) (responses : ndarray2)
    (p model : list chain) :
  resolve_polarity ltf_eval challenges responses p = Ok model ->
  model = p \/ exists c rest, p = c :: rest /\ model = neg c :: rest.
Proof.
  unfold resolve_polarity.
  destruct (test_model ltf_eval challenges responses p) as [acc|e];
    [|discriminate].
  cbn [bind]. destruct (lt_half acc).
  - destruct p as [|c rest]; [discriminate|]. cbn [flip_first].
    intros H. injection H as <-. right. eauto.
  - intros H. injection H as <-. now left.
Qed.

Lemma canonical_neg_length (c : chain) : length (neg c) = length c.
Proof. unfold neg. apply length_map. Qed.

(** The model returned by [learn] is a k x n weight array when every search
    result has n weights and epsilon: it has exactly k chains of n weights;
    every chain but the first is in canonical sign, and the first chain is
    canonical itself or the negation of a canonical chain. *)
Theorem learn_model_shape (k n : nat) (search : nat -> nat -> list Q * nat)
    (pearsonr : chain -> chain -> float)
    (ltf_eval : list chain -> list (list Z) -> list Z)
    (challenges : list (list Z)) (responses : ndarray2)
    (fuel : nat) (model : list chain) (md : meta_data) :
  (forall a i, length (fst (search a i)) = S n) ->
  learn k search pearsonr ltf_eval challenges responses fuel
  = Some (Ok (model, md)) ->
  length model = k
  /\ Forall (fun c => length c = n) model
  /\ Forall canonical (tl model)
  /\ (forall c, hd_error model = Some c -> canonical c \/ canonical (neg c)).
Proof.
  intros Hn. unfold learn.
  destruct (learn_loop k search pearsonr fuel (initial_state k))
    as [[st|e]|] eqn:Hloop; try discriminate.
  cbn [bind].
  destruct (resolve_polarity ltf_eval challenges responses (pool st))
    as [m|e] eqn:Hpol; [|discriminate].
  cbn [bind]. intros H. injection H as <- <-.
  destruct (learn_loop_exit fuel (reach_init k search pearsonr) Hloop)
    as (Hr & Hk).
  destruct (reachable_invariant Hr) as (_ & Hlen & Hle).
  pose proof (pool_canonical Hn Hr) as Hcan.
  destruct (resolve_polarity_cases _ _ _ _ Hpol)
    as [-> | (c & rest & Hp & ->)].
  - split; [lia|]. split; [|split].
    + eapply Forall_impl; [|exact Hcan]. cbv beta. tauto.
    + destruct (pool st) as [|c rest]; [constructor|].
      apply Forall_cons_iff in Hcan as [_ Hrest]. cbn [tl].
      eapply Forall_impl; [|exact Hrest]. cbv beta. tauto.
    + intros c Hc. left. destruct (pool st) as [|c' rest]; [discriminate|].
      injection Hc as <-. apply Forall_cons_iff in Hcan as [[H _] _]. exact H.
  - rewrite Hp in *. apply Forall_cons_iff in Hcan as [[Hc Hcn] Hrest].
    cbn [length] in *. split; [lia|]. split; [|split].
    + constructor; [now rewrite canonical_neg_length|].
      eapply Forall_impl; [|exact Hrest]. cbv beta. tauto.
    + cbn [tl]. eapply Forall_impl; [|exact Hrest]. cbv beta. tauto.
    + intros c' Hc'. injection Hc' as <-. right.
      now rewrite neg_involutive.
Qed.

Lemma learn_model_shape_witness :
  length [neg Examples.dup_chain; neg Examples.other_chain] = 2
  /\ Forall (fun c => length c = 16)
       [neg Examples.dup_chain; neg Examples.other_chain].
Proof.
  destruct (@learn_model_shape 2 16 Examples.search3 pearsonr_ref
              Examples.eval_zero Examples.challenges3 Examples.responses3 3
              [neg Examples.dup_chain; neg Examples.other_chain]
              (meta Examples.final3)) as (Hk & Hn & _).
  - intros [|[|a]] i; reflexivity.
  - vm_compute. reflexivity.
  - split; [exact Hk | exact Hn].
Defined.

(** ** The accuracy and the polarity step *)

Lemma count_true_le (l : list bool) : count_true l <= length l.
Proof. unfold count_true. apply filter_length_le. Qed.

Lemma ratio_range (a n : nat) :
  a <= n -> 0 < n ->
  (0 <= inject_Z (Z.of_nat a) / inject_Z (Z.of_nat n) <= 1)%Q.
Proof.
  intros Ha Hn.
  assert (Hpos : (0 < inject_Z (Z.of_nat n))%Q).
  { change 0%Q with (inject_Z 0). rewrite <- Zlt_Qlt. lia. }
  split.
  - apply Qle_shift_div_l; [exact Hpos|]. rewrite Qmult_0_l.
    change 0%Q with (inject_Z 0). rewrite <- Zle_Qle. lia.
  - apply Qle_shift_div_r; [exact Hpos|]. rewrite Qmult_1_l.
    rewrite <- Zle_Qle. lia.
Qed.

Lemma count_true_all (l : list bool) :
  count_true l = length l <-> Forall (fun b => b = true) l.
Proof.
  induction l as [|b l IH]; [split; constructor|].
  rewrite count_true_cons. cbn [length]. pose proof (count_true_le l) as Hle.
  destruct b; split; intros H.
  - constructor; [reflexivity|]. apply IH. lia.
  - apply Forall_cons_iff in H as [_ H]. apply IH in H. lia.
  - lia.
  - apply Forall_cons_iff in H as [H _]. discriminate.
Qed.

Lemma eq_bits_all (a b : list Z) :
  length a = length b ->
  (Forall (fun x => x = true) (eq_bits a b) <-> a = b).
Proof.
  unfold eq_bits. revert b. induction a as [|x a IH]; intros [|y b] Hlen;
    try discriminate; [split; [reflexivity | constructor]|].
  cbn [combine map fst snd]. rewrite Forall_cons_iff, Z.eqb_eq, IH
    by now injection Hlen.
  split; [intros [-> ->]; reflexivity | intros H; now injection H].
Qed.

(** The accuracy that [test_model] computes, on two vectors of one length:
    NaN when there is nothing to compare, and otherwise the share of the
    positions on which the two vectors agree, a number between 0 and 1
    that is 1 exactly when the model answers as the ground truth
    everywhere. *)
Theorem agreement_accuracy (y_true y_test : list Z) :
  length y_true = length y_test ->
  (y_true = [] -> agreement y_true y_test = Ok MeanNaN)
  /\ (y_true <> [] ->
      exists q,
        agreement y_true y_test = Ok (Ratio q)
        /\ (q == inject_Z (Z.of_nat (count_true (eq_bits y_true y_test)))
                 / inject_Z (Z.of_nat (length y_true)))%Q
        /\ (0 <= q <= 1)%Q
        /\ ((q == 1)%Q <-> y_true = y_test)).
Proof.
  intros Hlen. split.
  - intros ->. destruct y_test; [reflexivity | discriminate].
  - intros Hne.
    assert (Hl : length (eq_bits y_true y_test) = length y_true).
    { unfold eq_bits. rewrite length_map, length_combine. lia. }
    assert (Hn : 0 < length y_true).
    { destruct y_true; [congruence | cbn [length]; lia]. }
    pose proof (count_true_le (eq_bits y_true y_test)) as Hm.
    rewrite Hl in Hm.
    eexists. split; [apply agreement_same_length; assumption|].
    split; [reflexivity|]. split; [now apply ratio_range|].
    rewrite <- (@eq_bits_all y_true y_test Hlen), <- count_true_all, Hl.
    set (m := count_true (eq_bits y_true y_test)) in *.
    set (n := length y_true) in *.
    assert (Hnz : ~ (inject_Z (Z.of_nat n) == 0)%Q).
    { intros H.
      assert (Z.of_nat n = 0)%Z by (apply inject_Z_injective; exact H). lia. }
    split.
    + intros H.
      assert (Hmn : (inject_Z (Z.of_nat m) == inject_Z (Z.of_nat n))%Q).
      { rewrite <- (Qmult_1_l (inject_Z (Z.of_nat n))), <- H. now field. }
      assert (Z.of_nat m = Z.of_nat n)%Z
        by (apply inject_Z_injective; exact Hmn).
      lia.
    + intros ->. now field.
Qed.

Lemma agreement_accuracy_witness :
  exists q,
    agreement [1; -1; 1]%Z [1; 1; 1]%Z = Ok (Ratio q) /\ (0 <= q <= 1)%Q.
Proof.
  destruct (@agreement_accuracy [1; -1; 1]%Z [1; 1; 1]%Z eq_refl)
    as (_ & H).
  destruct (H ltac:(discriminate)) as (q & Hq & _ & Hr & _).
  exists q. split; [exact Hq | exact Hr].
Defined.

Lemma half_le_ratio (a n : nat) :
  0 < n -> n <= 2 * a ->
  (1 # 2 <= inject_Z (Z.of_nat a) / inject_Z (Z.of_nat n))%Q.
Proof.
  intros Hn Ha. apply Qle_shift_div_l.
  - change 0%Q with (inject_Z 0). rewrite <- Zlt_Qlt. lia.
  - unfold Qle, Qmult, inject_Z. cbn [Qnum Qden]. lia.
Qed.

Lemma ratio_lt_half (a n : nat) :
  0 < n ->
  (inject_Z (Z.of_nat a) / inject_Z (Z.of_nat n) < 1 # 2)%Q -> 2 * a < n.
Proof.
  intros Hn Hlt. destruct (Nat.lt_ge_cases (2 * a) n) as [H | H]; [exact H|].
  exfalso. apply (Qlt_not_le _ _ Hlt). now apply half_le_ratio.
Qed.

(** The polarity step does what it is there for whenever flipping the first
    chain inverts every answer of the model and the answers are signed
    bits: the model that [learn] ends with agrees with the majority vote on
    at least half of the challenges. *)
Theorem resolve_polarity_majority
    (ltf_eval : list chain -> list (list Z) -> list Z)
    (challenges : list (list Z)) (responses : ndarray2)
    (c : chain) (rest : list chain) :
  mode_axis1 responses <> [] ->
  Forall pm1 (mode_axis1 responses) ->
  length (mode_axis1 responses) = length (ltf_eval (c :: rest) challenges) ->
  Forall pm1 (ltf_eval (c :: rest) challenges) ->
  ltf_eval (neg c :: rest) challenges
  = map Z.opp (ltf_eval (c :: rest) challenges) ->
  exists model q,
    resolve_polarity ltf_eval challenges responses (c :: rest) = Ok model
    /\ test_model ltf_eval challenges responses model = Ok (Ratio q)
    /\ (1 # 2 <= q)%Q.
Proof.
  intros Hne Hy Hlen Ho Hodd.
  unfold resolve_polarity, test_model.
  set (y := mode_axis1 responses) in *.
  set (o := ltf_eval (c :: rest) challenges) in *.
  rewrite (@agreement_same_length y o Hlen Hne). cbn [bind lt_half].
  assert (HN : 0 < length y) by (destruct y; [congruence | cbn; lia]).
  destruct (Qltb _ (1 # 2)) eqn:E.
  - cbn [flip_first]. do 2 eexists. split; [reflexivity|].
    rewrite Hodd. fold o.
    rewrite agreement_same_length by (rewrite ?length_map; assumption).
    split; [reflexivity|].
    apply Qltb_lt in E. apply (@ratio_lt_half _ _ HN) in E.
    pose proof (@count_true_flip y o Hlen Hy Ho) as Hsum.
    apply half_le_ratio; lia.
  - do 2 eexists. split; [reflexivity|]. fold o.
    rewrite (@agreement_same_length y o Hlen Hne).
    split; [reflexivity|]. now apply Qltb_ge.
Qed.

Lemma resolve_polarity_majority_witness :
  exists model q,
    resolve_polarity ltfarray_eval_xor Examples.challenges3
      PolarityExample.responses_opposite Examples.pool2 = Ok model
    /\ test_model ltfarray_eval_xor Examples.challenges3
         PolarityExample.responses_opposite model = Ok (Ratio q)
    /\ (1 # 2 <= q)%Q.
Proof.
  apply (@resolve_polarity_majority ltfarray_eval_xor Examples.challenges3
           PolarityExample.responses_opposite [1; 2]%Q [[3; -1]%Q]).
  - discriminate.
  - repeat (constructor; [unfold pm1; cbn; lia|]). constructor.
  - reflexivity.
  - repeat (constructor; [unfold pm1; cbn; lia|]). constructor.
  - reflexivity.
Defined.

(** ** The majority vote and the order of the measurements *)

Lemma count_perm (v : Z) (a b : list Z) :
  Permutation a b -> count v a = count v b.
Proof.
  intros H. unfold count. f_equal.
  now apply (Permutation_count_occ Z.eq_dec).
Qed.

Lemma preferred_perm (a b : list Z) (v u : Z) :
  Permutation a b -> preferred a v u = preferred b v u.
Proof.
  intros H. unfold preferred. now rewrite !(count_perm _ H).
Qed.

Lemma mode_perm (a b : list Z) : Permutation a b -> mode a = mode b.
Proof.
  intros H. destruct a as [|x a'].
  - apply Permutation_nil in H. now subst.
  - assert (Ha : x :: a' <> []) by discriminate.
    assert (Hb : b <> []).
    { intros ->. apply Permutation_sym, Permutation_nil in H. discriminate. }
    destruct (mode_best Ha) as (Hina & Hbesta).
    destruct (mode_best Hb) as (Hinb & Hbestb).
    assert (H1 : preferred (x :: a') (mode b) (mode (x :: a')) = false).
    { apply Hbesta. eapply Permutation_in; [apply Permutation_sym|]; eauto. }
    assert (H2 : preferred b (mode (x :: a')) (mode b) = false).
    { apply Hbestb. eapply Permutation_in; eauto. }
    rewrite (preferred_perm _ _ H) in H1.
    apply preferred_false in H1, H2. lia.
Qed.

(** The majority vote, and with it the accuracy computed by [test_model],
    does not depend on the order of the repeated measurements. *)
Theorem test_model_reorder
    (ltf_eval : list chain -> list (list Z) -> list Z)
    (challenges : list (list Z)) (responses : ndarray2)
    (p : list nat) (model : list chain) :
  well_shaped responses -> Permutation p (seq 0 (ncols responses)) ->
  mode_axis1 (reorder p responses) = mode_axis1 responses
  /\ test_model ltf_eval challenges (reorder p responses) model
     = test_model ltf_eval challenges responses model.
Proof.
  intros Hshape Hp.
  assert (Hmode : mode_axis1 (reorder p responses) = mode_axis1 responses).
  { unfold mode_axis1, reorder. cbn [rows]. rewrite map_map.
    unfold well_shaped in Hshape.
    induction Hshape as [|row rs Hlen _ IH]; cbn [map]; [reflexivity|].
    rewrite IH. f_equal. apply mode_perm, reorder_row_perm.
    now rewrite Hlen. }
  split; [exact Hmode|]. unfold test_model. now rewrite Hmode.
Qed.

Lemma test_model_reorder_witness :
  mode_axis1 (reorder [3; 0; 2; 1] test_responses) = mode_axis1 test_responses.
Proof.
  apply (@test_model_reorder Examples.eval_zero Examples.challenges3
           test_responses [3; 0; 2; 1] []).
  - exact test_responses_shaped.
  - cbn [ncols test_responses seq]. apply Permutation_sym.
    apply perm_trans with (l' := [3; 0; 1; 2]).
    + change [0; 1; 2; 3] with ([0; 1; 2] ++ [3]).
      change [3; 0; 1; 2] with ([3] ++ [0; 1; 2]).
      apply Permutation_app_comm.
    + do 2 apply perm_skip. apply perm_swap.
Defined.

(** * Properties of the experiment on pairs read from a file *)

(** ** Indexing with arrays of indices *)

Lemma take_gather (A : Type) (l : list A) (indices : list nat) :
  Forall (fun i => i < length l) indices ->
  FromFile.take l indices = FromFile.Return (FromFile.gather l indices)
  /\ length (FromFile.gather l indices) = length indices.
Proof.
  induction 1 as [|i rest Hi _ [IH IHlen]]; [split; reflexivity|].
  cbn [FromFile.take FromFile.gather flat_map].
  destruct (nth_error l i) as [x|] eqn:E.
  - fold (FromFile.gather l rest). rewrite IH. cbn [FromFile.and_then].
    split; [reflexivity|]. cbn [app length]. now rewrite IHlen.
  - apply nth_error_None in E. lia.
Qed.

Lemma take_out_of_bounds (A : Type) (l : list A) (indices : list nat) :
  Exists (fun i => length l <= i) indices ->
  FromFile.take l indices = FromFile.Throw FromFile.IndexError.
Proof.
  induction indices as [|i rest IH]; intros H;
    [now apply Exists_nil in H|].
  cbn [FromFile.take]. destruct (nth_error l i) as [x|] eqn:E;
    [|reflexivity].
  apply Exists_cons in H as [H | H].
  - apply nth_error_None in H. congruence.
  - now rewrite (IH H).
Qed.

Lemma gather_shift (A : Type) (a : A) (l : list A) (indices : list nat) :
  FromFile.gather (a :: l) (map S indices) = FromFile.gather l indices.
Proof.
  unfold FromFile.gather. induction indices as [|i rest IH];
    cbn [map flat_map nth_error]; [reflexivity|]. now rewrite IH.
Qed.

Lemma gather_all (A : Type) (l : list A) :
  FromFile.gather l (seq 0 (length l)) = l.
Proof.
  induction l as [|a l IH]; [reflexivity|].
  cbn [length seq]. rewrite <- seq_shift.
  change (FromFile.gather (a :: l) (0 :: map S (seq 0 (length l))))
    with (a :: FromFile.gather (a :: l) (map S (seq 0 (length l)))).
  now rewrite gather_shift, IH.
Qed.

Lemma gather_app (A : Type) (l : list A) (i j : list nat) :
  FromFile.gather l (i ++ j) = FromFile.gather l i ++ FromFile.gather l j.
Proof. unfold FromFile.gather. apply flat_map_app. Qed.

Lemma gather_perm (A : Type) (l : list A) (i j : list nat) :
  Permutation i j -> Permutation (FromFile.gather l i) (FromFile.gather l j).
Proof. unfold FromFile.gather. apply Permutation_flat_map. Qed.

Lemma nth_error_pairs (A B : Type) (a : list A) (b : list B) (i : nat) :
  length a = length b ->
  nth_error (combine a b) i
  = match nth_error a i, nth_error b i with
    | Some x, Some y => Some (x, y)
    | _, _ => None
    end.
Proof.
  revert b i. induction a as [|x a IH]; intros [|y b] [|i] Hlen;
    try discriminate; cbn [combine nth_error]; try reflexivity.
  apply IH. now injection Hlen.
Qed.

Lemma gather_pairs (A B : Type) (a : list A) (b : list B) (indices : list nat) :
  length a = length b ->
  FromFile.gather (combine a b) indices
  = combine (FromFile.gather a indices) (FromFile.gather b indices).
Proof.
  intros Hlen. unfold FromFile.gather.
  induction indices as [|i rest IH]; cbn [flat_map]; [reflexivity|].
  rewrite IH, (nth_error_pairs _ _ i Hlen).
  destruct (nth_error a i) as [x|] eqn:Ea, (nth_error b i) as [y|] eqn:Eb;
    try reflexivity.
  - apply nth_error_None in Eb.
    assert (i < length a) by (apply nth_error_Some; congruence). lia.
  - apply nth_error_None in Ea.
    assert (i < length b) by (apply nth_error_Some; congruence). lia.
Qed.

(** ** Removing positions *)

Lemma among_In (indices : list nat) (i : nat) :
  FromFile.among indices i = true <-> In i indices.
Proof.
  unfold FromFile.among. rewrite existsb_exists. split.
  - intros (j & Hj & E). apply Nat.eqb_eq in E. now subst.
  - intros H. exists i. split; [exact H | apply Nat.eqb_refl].
Qed.

Lemma filter_diagonal (f : nat -> bool) (s : list nat) :
  map snd (filter (fun p : nat * nat => f (fst p)) (combine s s)) = filter f s.
Proof.
  induction s as [|i s IH]; [reflexivity|].
  cbn [combine filter fst]. destruct (f i); cbn [map snd]; now rewrite IH.
Qed.

Lemma np_delete_range (n : nat) (indices : list nat) :
  Forall (fun i => i < n) indices ->
  FromFile.np_delete (seq 0 n) indices
  = FromFile.Return
      (filter (fun i => negb (FromFile.among indices i)) (seq 0 n)).
Proof.
  intros H. unfold FromFile.np_delete. rewrite length_seq.
  replace (forallb (fun i => Nat.ltb i n) indices) with true.
  - f_equal. apply (filter_diagonal (fun i => negb (FromFile.among indices i))).
  - symmetry. apply forallb_forall. rewrite Forall_forall in H.
    intros i Hi. apply Nat.ltb_lt. auto.
Qed.

Lemma kept_and_removed (n : nat) (indices : list nat) :
  NoDup indices -> Forall (fun i => i < n) indices ->
  Permutation
    (indices ++ filter (fun i => negb (FromFile.among indices i)) (seq 0 n))
    (seq 0 n).
Proof.
  intros Hnd Hin. rewrite Forall_forall in Hin. apply NoDup_Permutation.
  - apply NoDup_app; [exact Hnd | apply NoDup_filter, seq_NoDup|].
    intros i Hi Hf. apply filter_In in Hf as [_ Hf].
    apply negb_true_iff in Hf. apply among_In in Hi. congruence.
  - apply seq_NoDup.
  - intros i. rewrite in_app_iff, filter_In, in_seq, negb_true_iff. split.
    + intros [H | [H _]]; [specialize (Hin i H) |]; lia.
    + intros H. destruct (FromFile.among indices i) eqn:E.
      * left. now apply among_In.
      * right. split; [lia | reflexivity].
Qed.

Lemma removed_length (n : nat) (indices : list nat) :
  NoDup indices -> Forall (fun i => i < n) indices ->
  length (filter (fun i => negb (FromFile.among indices i)) (seq 0 n))
  = n - length indices.
Proof.
  intros Hnd Hin. pose proof (kept_and_removed Hnd Hin) as H.
  apply Permutation_length in H. rewrite length_app, length_seq in H. lia.
Qed.

(** ** The training set and the test set *)

Lemma take_throws (A : Type) (l : list A) (indices : list nat)
    (e : FromFile.exception) :
  FromFile.take l indices = FromFile.Throw e -> e = FromFile.IndexError.
Proof.
  induction indices as [|i rest IH]; cbn [FromFile.take]; [discriminate|].
  destruct (nth_error l i); [|intros H; now injection H].
  destruct (FromFile.take l rest); cbn [FromFile.and_then];
    [discriminate|]. intros H. injection H as <-. now apply IH.
Qed.

Lemma np_delete_throws (A : Type) (arr : list A) (indices : list nat)
    (e : FromFile.exception) :
  FromFile.np_delete arr indices = FromFile.Throw e ->
  e = FromFile.IndexError.
Proof.
  unfold FromFile.np_delete. destruct (forallb _ _); [discriminate|].
  intros H. now injection H.
Qed.

Section FileExperiment.

Variable choice : Z -> nat -> nat -> bool -> option (list nat).

Lemma training_set_value (cs : list (list Z)) (rs : list Z) (n : nat)
    (seed : Z) (indices : list nat) :
  length cs = length rs -> cs <> [] ->
  choice seed (length cs) n false = Some indices ->
  Forall (fun i => i < length cs) indices ->
  let rest := filter (fun i => negb (FromFile.among indices i))
                     (seq 0 (length cs)) in
  FromFile.TrainingSet_init choice cs rs n seed
  = FromFile.Return
      (FromFile.mk_training_set
         (FromFile.gather cs indices) (FromFile.gather cs rest)
         (FromFile.gather rs indices) (FromFile.gather rs rest) n).
Proof.
  intros Hlen Hne Hdraw Hrange rest.
  unfold FromFile.TrainingSet_init, FromFile.draw.
  rewrite <- Hlen, Nat.eqb_refl. cbn [negb]. rewrite Hdraw.
  cbn [FromFile.and_then].
  rewrite (np_delete_range Hrange). cbn [FromFile.and_then]. fold rest.
  assert (Hint : FromFile.range_is_integer (length cs) = true).
  { unfold FromFile.range_is_integer. destruct cs; [congruence | reflexivity]. }
  rewrite Hint. cbn [FromFile.take_as].
  assert (Hrest : Forall (fun i => i < length cs) rest).
  { apply Forall_forall. intros i Hi. apply filter_In in Hi as [Hi _].
    apply in_seq in Hi. lia. }
  assert (Hrange' : Forall (fun i => i < length rs) indices)
    by now rewrite <- Hlen.
  assert (Hrest' : Forall (fun i => i < length rs) rest)
    by now rewrite <- Hlen.
  destruct (take_gather cs Hrange) as (-> & _).
  cbn [FromFile.and_then].
  destruct (take_gather cs Hrest) as (-> & _).
  cbn [FromFile.and_then].
  destruct (take_gather rs Hrange') as (-> & _).
  cbn [FromFile.and_then].
  destruct (take_gather rs Hrest') as (-> & _).
  reflexivity.
Qed.

Lemma gather_length (A : Type) (l : list A) (indices : list nat) :
  Forall (fun i => i < length l) indices ->
  length (FromFile.gather l indices) = length indices.
Proof. intros H. now destruct (take_gather l H) as (_ & ?). Qed.

(** The split is a partition: on a file that is not empty, with as many
    responses as challenges and a draw of N different numbers,
    [TrainingSet] keeps N pairs for training and the other pairs for
    testing; every pair of the file is in exactly one of the two sets, and
    a challenge stays with its response.  On an empty file the constructor
    raises an index error instead: the positions left by [delete] are then
    an array of doubles, which cannot index an array. *)
Theorem training_set_partition (cs : list (list Z)) (rs : list Z) (n : nat)
    (seed : Z) (indices : list nat) :
  length cs = length rs ->
  choice seed (length cs) n false = Some indices ->
  FromFile.draw_ok (length cs) n false indices ->
  (cs = [] ->
   FromFile.TrainingSet_init choice cs rs n seed
   = FromFile.Throw FromFile.IndexError)
  /\ (cs <> [] ->
      exists ts,
        FromFile.TrainingSet_init choice cs rs n seed = FromFile.Return ts
        /\ FromFile.N ts = n
        /\ length (FromFile.challenges ts) = n
        /\ length (FromFile.responses ts) = n
        /\ length (FromFile.test_challenges ts) = length cs - n
        /\ length (FromFile.test_responses ts) = length cs - n
        /\ Permutation
             (combine (FromFile.challenges ts) (FromFile.responses ts)
              ++ combine (FromFile.test_challenges ts)
                         (FromFile.test_responses ts))
             (combine cs rs)).
Proof.
  intros Hlen Hdraw (Hsize & Hrange & Hnd). specialize (Hnd eq_refl). split.
  - intros ->. destruct rs; [|discriminate].
    destruct indices as [|i rest];
      [|apply Forall_cons_iff in Hrange as [Hi _]; cbn [length] in Hi; lia].
    unfold FromFile.TrainingSet_init, FromFile.draw. cbn [length] in *.
    cbn [Nat.eqb negb]. rewrite Hdraw. reflexivity.
  - intros Hne.
    eexists. split;
      [exact (@training_set_value cs rs n seed indices Hlen Hne Hdraw Hrange)|].
    cbn [FromFile.N FromFile.challenges FromFile.responses
         FromFile.test_challenges FromFile.test_responses].
    set (rest := filter (fun i => negb (FromFile.among indices i))
                        (seq 0 (length cs))).
    assert (Hrest : Forall (fun i => i < length cs) rest).
    { apply Forall_forall. intros i Hi. apply filter_In in Hi as [Hi _].
      apply in_seq in Hi. lia. }
    pose proof (removed_length Hnd Hrange) as Hrl. fold rest in Hrl.
    rewrite !gather_length by (rewrite <- ?Hlen; assumption).
    repeat split; try lia.
    rewrite <- !(gather_pairs _ _ _ Hlen), <- gather_app.
    rewrite <- (gather_all (combine cs rs)) at 2.
    rewrite length_combine, <- Hlen, Nat.min_id.
    apply gather_perm. exact (kept_and_removed Hnd Hrange).
Qed.

(** The two ways in which [TrainingSet] refuses its arguments: an assertion
    error exactly when the numbers of challenges and of responses differ,
    whatever N and the seed are; and, when the two numbers agree, the value
    error of [choice] whenever the draw is refused (more numbers wanted
    than there are pairs). *)
Theorem training_set_errors (cs : list (list Z)) (rs : list Z) (n : nat)
    (seed : Z) :
  (FromFile.TrainingSet_init choice cs rs n seed
   = FromFile.Throw FromFile.AssertionError
   <-> length cs <> length rs)
  /\ (length cs = length rs ->
      choice seed (length cs) n false = None ->
      FromFile.TrainingSet_init choice cs rs n seed
      = FromFile.Throw FromFile.ValueError).
Proof.
  split.
  - unfold FromFile.TrainingSet_init, FromFile.draw.
    destruct (Nat.eqb (length cs) (length rs)) eqn:E; cbn [negb].
    + apply Nat.eqb_eq in E. split; [|congruence].
      intros H. exfalso. revert H.
      destruct (choice seed (length cs) n false) as [indices|];
        cbn [FromFile.and_then]; [|discriminate].
      destruct (FromFile.np_delete _ _) as [ni|e] eqn:Hd;
        cbn [FromFile.and_then];
        [|apply np_delete_throws in Hd; subst; discriminate].
      destruct (FromFile.range_is_integer (length cs));
        cbn [FromFile.take_as];
        repeat match goal with
               | |- context [FromFile.take ?l ?i] =>
                   let Ht := fresh "Ht" in
                   destruct (FromFile.take l i) eqn:Ht;
                   cbn [FromFile.and_then];
                   [|apply take_throws in Ht; subst; discriminate]
               end;
        discriminate.
    + apply Nat.eqb_neq in E. tauto.
  - intros Hlen Hdraw. unfold FromFile.TrainingSet_init, FromFile.draw.
    rewrite <- Hlen, Nat.eqb_refl. cbn [negb]. now rewrite Hdraw.
Qed.

End FileExperiment.

Lemma choice_top_draw (seed : Z) (a size : nat) (replace : bool) :
  size <= a ->
  exists indices,
    FileExamples.choice_top seed a size replace = Some indices
    /\ FromFile.draw_ok a size replace indices.
Proof.
  intros Hle. unfold FromFile.draw_ok, FileExamples.choice_top.
  replace (Nat.leb size a) with true by (symmetry; now apply Nat.leb_le).
  eexists. split; [reflexivity|].
  split; [now rewrite length_map, length_seq|]. split.
  - apply Forall_forall. intros i Hi. apply in_map_iff in Hi as (j & <- & Hj).
    apply in_seq in Hj. lia.
  - intros _. apply Finite.Injective_map_NoDup_in; [|apply seq_NoDup].
    intros i j Hi Hj H. apply in_seq in Hi, Hj. lia.
Qed.

Lemma training_set_partition_witness :
  exists ts,
    FromFile.TrainingSet_init FileExamples.choice_top
      FileExamples.file_challenges FileExamples.file_responses 3 5%Z
    = FromFile.Return ts
    /\ length (FromFile.challenges ts) = 3
    /\ length (FromFile.test_challenges ts) = 1.
Proof.
  destruct (@choice_top_draw 5%Z 4 3 false) as (indices & Hdraw & Hok);
    [lia|].
  destruct (proj2 (@training_set_partition FileExamples.choice_top
                     FileExamples.file_challenges FileExamples.file_responses
                     3 5%Z indices eq_refl Hdraw Hok))
    as (ts & Hts & _ & Hc & _ & Ht & _); [discriminate|].
  exists ts. split; [exact Hts|]. split; [exact Hc | exact Ht].
Defined.

(** ** The accuracy on the test set *)

Section Accuracy.

Variable choice : Z -> nat -> nat -> bool -> option (list nat).
Variable python_int_count : bool.
Variable eval : list (list Z) -> list Z.

(** Under its name of a distance, [approx_distance] returns an accuracy:
    on a test set that is not empty, with a model that gives one answer
    per challenge, the value is the share of the drawn test pairs on
    which the model gives the response of the file; it lies between 0 and
    1 and is 1 exactly when the model is right on every drawn pair. *)
Theorem approx_distance_is_accuracy (ts : FromFile.TrainingSet) (seed : Z)
    (indices : list nat) :
  let n := length (FromFile.test_challenges ts) in
  let answers := eval (FromFile.gather (FromFile.test_challenges ts) indices) in
  let expected := FromFile.gather (FromFile.test_responses ts) indices in
  length (FromFile.test_responses ts) = n -> 0 < n ->
  choice seed n n true = Some indices ->
  FromFile.draw_ok n n true indices ->
  (forall cs, length (eval cs) = length cs) ->
  exists q,
    FromFile.approx_distance choice python_int_count eval ts seed
    = FromFile.Return (Ratio q)
    /\ (q == inject_Z (Z.of_nat (count_true (eq_bits answers expected)))
             / inject_Z (Z.of_nat n))%Q
    /\ (0 <= q <= 1)%Q
    /\ ((q == 1)%Q <-> answers = expected).
Proof.
  intros n answers expected Hrs Hn Hdraw (Hsize & Hrange & _) Heval.
  change (Forall (fun i => i < length (FromFile.test_challenges ts)) indices)
    in Hrange.
  unfold FromFile.approx_distance, FromFile.draw.
  change (length (FromFile.test_challenges ts)) with n at 1 2.
  rewrite Hdraw. cbn [FromFile.and_then].
  destruct (take_gather (FromFile.test_challenges ts) Hrange) as (-> & L1).
  cbn [FromFile.and_then]. fold answers.
  assert (Hrange' : Forall (fun i => i < length (FromFile.test_responses ts))
                           indices) by now rewrite Hrs.
  destruct (take_gather (FromFile.test_responses ts) Hrange') as (-> & L2).
  cbn [FromFile.and_then]. fold expected.
  assert (La : length answers = n).
  { unfold answers. rewrite Heval, L1. exact Hsize. }
  assert (Le : length expected = n) by (unfold expected; congruence).
  unfold FromFile.compare, eq_broadcast. rewrite La, Le, Nat.eqb_refl.
  cbn [FromFile.and_then].
  replace (Nat.eqb n 0) with false by (symmetry; apply Nat.eqb_neq; lia).
  set (m := count_true (eq_bits answers expected)).
  assert (Hl : length (eq_bits answers expected) = n).
  { unfold eq_bits. rewrite length_map, length_combine. lia. }
  assert (Hm : m <= n).
  { unfold m. rewrite <- Hl. apply count_true_le. }
  assert (Hnz : ~ (inject_Z (Z.of_nat n) == 0)%Q).
  { intros H.
    assert (Z.of_nat n = 0)%Z by (apply inject_Z_injective; exact H). lia. }
  assert (Hq : (1 - inject_Z (Z.of_nat n - Z.of_nat m) / inject_Z (Z.of_nat n)
                == inject_Z (Z.of_nat m) / inject_Z (Z.of_nat n))%Q).
  { unfold Zminus. rewrite inject_Z_plus, inject_Z_opp. now field. }
  eexists. split; [reflexivity|]. split; [exact Hq|]. split.
  - rewrite Hq. now apply ratio_range.
  - rewrite Hq.
    rewrite <- (@eq_bits_all answers expected) by congruence.
    rewrite <- count_true_all, Hl. fold m. split.
    + intros H.
      assert (Hmn : (inject_Z (Z.of_nat m) == inject_Z (Z.of_nat n))%Q).
      { rewrite <- (Qmult_1_l (inject_Z (Z.of_nat n))), <- H. now field. }
      assert (Z.of_nat m = Z.of_nat n)%Z
        by (apply inject_Z_injective; exact Hmn).
      lia.
    + intros ->. now field.
Qed.

End Accuracy.

Lemma approx_distance_is_accuracy_witness :
  exists q,
    FromFile.approx_distance FileExamples.choice_top true
      FileExamples.eval_one
      (FromFile.mk_training_set [] FileExamples.file_challenges
         [] FileExamples.file_responses 0) 7%Z
    = FromFile.Return (Ratio q)
    /\ (0 <= q <= 1)%Q.
Proof.
  destruct (@choice_top_draw 7%Z 4 4 true) as (indices & Hdraw & Hok);
    [lia|].
  destruct (@approx_distance_is_accuracy FileExamples.choice_top true
              FileExamples.eval_one
              (FromFile.mk_training_set [] FileExamples.file_challenges
                 [] FileExamples.file_responses 0) 7%Z indices)
    as (q & Hq & _ & Hrange & _).
  - reflexivity.
  - cbn. lia.
  - exact Hdraw.
  - exact Hok.
  - intros cs. apply length_map.
  - exists q. split; [exact Hq | exact Hrange].
Defined.

(** Training on every pair of a file that is not empty leaves no pair for
    testing: [TrainingSet] succeeds with an empty test set, and
    [approx_distance], which [analyze] calls, then returns no accuracy.  It
    ends with the value error of a draw from an empty population where
    numpy refuses that draw; otherwise with a division by zero where
    [count_nonzero] is a Python int, and with the value NaN where it is a
    numpy integer. *)
Theorem approx_distance_without_test_pairs
    (choice : Z -> nat -> nat -> bool -> option (list nat))
    (python_int_count : bool)
    (eval : list (list Z) -> list Z)
    (cs : list (list Z)) (rs : list Z) (seed seed' : Z)
    (indices : list nat) :
  length cs = length rs -> cs <> [] ->
  choice seed (length cs) (length cs) false = Some indices ->
  FromFile.draw_ok (length cs) (length cs) false indices ->
  (forall drawn, choice seed' 0 0 true = Some drawn -> drawn = []) ->
  eval [] = [] ->
  exists ts,
    FromFile.TrainingSet_init choice cs rs (length cs) seed = FromFile.Return ts
    /\ FromFile.test_challenges ts = []
    /\ FromFile.test_responses ts = []
    /\ FromFile.approx_distance choice python_int_count eval ts seed'
       = match choice seed' 0 0 true with
         | None => FromFile.Throw FromFile.ValueError
         | Some _ =>
             if python_int_count
             then FromFile.Throw FromFile.ZeroDivisionError
             else FromFile.Return MeanNaN
         end
    /\ forall q,
         FromFile.approx_distance choice python_int_count eval ts seed'
         <> FromFile.Return (Ratio q).
Proof.
  intros Hlen Hne Hdraw (Hsize & Hrange & Hnd) Hempty Heval.
  specialize (Hnd eq_refl).
  pose proof (removed_length Hnd Hrange) as Hrl.
  rewrite Hsize, Nat.sub_diag in Hrl. apply length_zero_iff_nil in Hrl.
  eexists. split;
    [exact (@training_set_value choice cs rs (length cs) seed indices
              Hlen Hne Hdraw Hrange)|].
  cbn [FromFile.test_challenges FromFile.test_responses]. rewrite Hrl.
  split; [reflexivity|]. split; [reflexivity|].
  unfold FromFile.approx_distance, FromFile.draw.
  cbn [FromFile.test_challenges FromFile.test_responses].
  change (FromFile.gather cs []) with (@nil (list Z)).
  change (FromFile.gather rs []) with (@nil Z).
  cbn [length].
  destruct (choice seed' 0 0 true) as [drawn|] eqn:E.
  - rewrite (Hempty drawn eq_refl).
    cbn [FromFile.take FromFile.and_then]. rewrite Heval.
    cbn [length Nat.eqb FromFile.compare eq_broadcast FromFile.and_then].
    destruct python_int_count; split; try reflexivity; discriminate.
  - cbn [FromFile.and_then]. split; [reflexivity | discriminate].
Qed.

Lemma approx_distance_without_test_pairs_witness :
  exists ts,
    FromFile.TrainingSet_init FileExamples.choice_top
      FileExamples.file_challenges FileExamples.file_responses 4 5%Z
    = FromFile.Return ts
    /\ FromFile.approx_distance FileExamples.choice_top true
         FileExamples.eval_one ts 7%Z
       = FromFile.Throw FromFile.ZeroDivisionError
    /\ FromFile.approx_distance FileExamples.choice_top false
         FileExamples.eval_one ts 7%Z
       = FromFile.Return MeanNaN.
Proof.
  destruct (@choice_top_draw 5%Z 4 4 false) as (indices & Hdraw & Hok);
    [lia|].
  assert (Hempty : forall drawn,
             FileExamples.choice_top 7%Z 0 0 true = Some drawn -> drawn = []).
  { intros drawn H. now injection H as <-. }
  destruct (@approx_distance_without_test_pairs FileExamples.choice_top true
              FileExamples.eval_one FileExamples.file_challenges
              FileExamples.file_responses 5%Z 7%Z indices eq_refl
              ltac:(discriminate) Hdraw Hok Hempty eq_refl)
    as (ts & Hts & Htc & Htr & Hdiv & _).
  exists ts. split; [exact Hts|]. split; [exact Hdiv|].
  unfold FromFile.approx_distance, FromFile.draw. rewrite Htc, Htr.
  reflexivity.
Defined.

(** * The pool after the polarity step *)

(** ** The reference coefficient and the negation of a chain *)

Lemma SFdiv_opp_l (x y : spec_float) :
  SF64div (SFopp x) y = SFopp (SF64div x y).
Proof.
  unfold SF64div, SFdiv.
  destruct x as [s|s| |s m e], y as [s'|s'| |s' m' e']; cbn [SFopp];
    rewrite <- ?negb_xorb_l; try reflexivity.
  destruct (SFdiv_core_binary prec emax (Z.pos m) e (Z.pos m') e')
    as [[mz ez] lz].
  apply binary_round_aux_opp.
Qed.

Lemma mirror_div_l (a b c : float) : mirror a b -> mirror (a / c) (b / c).
Proof.
  unfold mirror, mirror_sf. rewrite !div_spec. intros [-> | [Ha Hb]].
  - left. apply SFdiv_opp_l.
  - destruct (Prim2SF a) as [sa| | |]; try tauto.
    destruct (Prim2SF b) as [sb| | |]; try tauto.
    unfold SF64div, SFdiv.
    destruct (Prim2SF c) as [sc|sc| |sc mc ec];
      try (left; reflexivity); right; split; exact I.
Qed.

Lemma SFmul_opp_r (x y : spec_float) :
  SF64mul x (SFopp y) = SFopp (SF64mul x y).
Proof.
  unfold SF64mul, SFmul.
  destruct x as [s|s| |s m e], y as [s'|s'| |s' m' e']; cbn [SFopp];
    rewrite <- ?negb_xorb_r; try reflexivity.
  apply binary_round_aux_opp.
Qed.

Lemma mirror_mul_r (a b b' : float) : mirror b' b -> mirror (a * b') (a * b).
Proof.
  unfold mirror, mirror_sf. rewrite !mul_spec. intros [-> | [Hb' Hb]].
  - left. apply SFmul_opp_r.
  - destruct (Prim2SF b') as [s'| | |]; try tauto.
    destruct (Prim2SF b) as [s| | |]; try tauto.
    unfold SF64mul, SFmul.
    destruct (Prim2SF a) as [sa|sa| |sa ma ea];
      try (left; reflexivity); right; split; exact I.
Qed.

Lemma mirror_square (a b : float) : mirror a b -> Tf.square a = Tf.square b.
Proof.
  unfold mirror, mirror_sf, Tf.square. intros H. apply Prim2SF_inj.
  rewrite !mul_spec. destruct H as [-> | [Ha Hb]].
  - rewrite SFmul_opp_l, SFmul_opp_r.
    destruct (SF64mul (Prim2SF b) (Prim2SF b)) as [s|s| |s m e];
      cbn [SFopp]; now rewrite ?negb_involutive.
  - destruct (Prim2SF a) as [sa| | |]; try tauto.
    destruct (Prim2SF b) as [sb| | |]; try tauto.
    unfold SF64mul, SFmul. now rewrite !xorb_nilpotent.
Qed.

Lemma cond_Zopp_negb_sub (s s' : bool) (x y : Z) :
  (cond_Zopp (negb s) x - cond_Zopp (negb s') y
   = - (cond_Zopp s x - cond_Zopp s' y))%Z.
Proof. destruct s, s'; cbn [cond_Zopp negb]; lia. Qed.

Lemma mirror_sf_sub (a a' b b' : spec_float) :
  mirror_sf a b -> mirror_sf a' b' ->
  mirror_sf (SF64sub a a') (SF64sub b b').
Proof.
  unfold mirror_sf at 1 2.
  intros [-> | [Ha Hb]] [-> | [Ha' Hb']].
  - destruct b as [s|s| |s m e], b' as [s'|s'| |s' m' e'];
      try (left; reflexivity);
      try (destruct s, s'; (left; reflexivity) || (right; split; exact I)).
    unfold SF64sub, SFsub. cbn [SFopp]. rewrite cond_Zopp_negb_sub.
    apply binary_normalize_opp.
  - destruct a' as [sa| | |]; try tauto. destruct b' as [sb| | |]; try tauto.
    destruct b as [s|s| |s m e]; try (left; reflexivity).
    right. cbn. destruct (negb s), s, sa, sb; split; exact I.
  - destruct a as [sa| | |]; try tauto. destruct b as [sb| | |]; try tauto.
    destruct b' as [s|s| |s m e]; try (left; reflexivity);
      try (left; cbn; now rewrite ?negb_involutive).
    right. cbn. destruct (negb s), s, sa, sb; split; exact I.
  - destruct a as [sa| | |]; try tauto. destruct b as [sb| | |]; try tauto.
    destruct a' as [sa'| | |]; try tauto. destruct b' as [sb'| | |]; try tauto.
    right. cbn. destruct sa, sa', sb, sb'; split; exact I.
Qed.

Lemma mirror_sub (a a' b b' : float) :
  mirror a b -> mirror a' b' -> mirror (a - a') (b - b').
Proof.
  unfold mirror. rewrite !sub_spec. apply mirror_sf_sub.
Qed.

Lemma mirror_opp (a : float) : mirror (- a) a.
Proof. unfold mirror. left. apply opp_spec. Qed.

Lemma opp_opp (a : float) : (- - a)%float = a.
Proof.
  apply Prim2SF_inj. rewrite !opp_spec.
  destruct (Prim2SF a); cbn [SFopp]; now rewrite ?negb_involutive.
Qed.

Lemma Z2float_opp (z : Z) : mirror (Z2float (- z)) (Z2float z).
Proof.
  unfold Z2float. destruct z as [|p|p]; cbn [Z.opp Z.ltb Z.compare].
  - right. split; exact I.
  - apply mirror_opp.
  - unfold mirror. left. rewrite opp_spec.
    destruct (Prim2SF _); cbn [SFopp]; now rewrite ?negb_involutive.
Qed.

Lemma Q2float_opp (q : Q) : mirror (Q2float (- q)) (Q2float q).
Proof.
  unfold Q2float. destruct q as [a d]. cbn [Qopp Qnum Qden].
  apply mirror_div_l, Z2float_opp.
Qed.

Lemma Forall2_mirror_neg (v : chain) :
  Forall2 mirror (map Q2float (neg v)) (map Q2float v).
Proof.
  unfold neg. induction v as [|q v IH]; cbn [map]; constructor;
    [apply Q2float_opp | exact IH].
Qed.

Lemma reduce_sum_mirror (l l' : list float) :
  Forall2 mirror l l' -> mirror (Tf.reduce_sum l) (Tf.reduce_sum l').
Proof.
  intros H. unfold Tf.reduce_sum. apply mirror_fold; [exact H|].
  right. split; exact I.
Qed.

Lemma center_mirror (l l' : list float) :
  Forall2 mirror l l' -> Forall2 mirror (center l) (center l').
Proof.
  intros H. unfold center, Tf.reduce_mean.
  rewrite (Forall2_length H).
  assert (Hm : mirror (Tf.reduce_sum l / Tf.of_nat (length l'))
                      (Tf.reduce_sum l' / Tf.of_nat (length l')))
    by (apply mirror_div_l, reduce_sum_mirror, H).
  revert Hm. generalize (Tf.reduce_sum l / Tf.of_nat (length l'))%float as m.
  generalize (Tf.reduce_sum l' / Tf.of_nat (length l'))%float as m'.
  intros m' m Hm. induction H as [|a b l l' Hab _ IH]; cbn [map];
    constructor; [now apply mirror_sub | exact IH].
Qed.

Lemma squares_mirror (l l' : list float) :
  Forall2 mirror l l' -> map Tf.square l = map Tf.square l'.
Proof.
  induction 1 as [|a b l l' Hab _ IH]; cbn [map]; [reflexivity|].
  now rewrite IH, (mirror_square Hab).
Qed.

Lemma products_mirror_r (x l l' : list float) :
  Forall2 mirror l l' ->
  Forall2 mirror
    (map (fun p => (fst p * snd p)%float) (combine x l))
    (map (fun p => (fst p * snd p)%float) (combine x l')).
Proof.
  intros H. revert x. induction H as [|a b l l' Hab _ IH]; intros [|x0 x];
    cbn [combine map]; constructor.
  - cbn [fst snd]. now apply mirror_mul_r.
  - apply IH.
Qed.

(** The reference coefficient changes its sign, not its size, when the
    second chain is negated. *)
Lemma pearsonr_ref_neg (w v : chain) :
  abs (pearsonr_ref w (neg v)) = abs (pearsonr_ref w v).
Proof.
  apply mirror_abs. unfold pearsonr_ref.
  pose proof (center_mirror (Forall2_mirror_neg v)) as Hc.
  rewrite (squares_mirror Hc).
  apply mirror_div_l, reduce_sum_mirror, products_mirror_r, Hc.
Qed.

Lemma flip_keeps_no_duplicates (pearsonr : chain -> chain -> float)
    (c : chain) (rest : list chain) :
  (forall w, abs (pearsonr w (neg c)) = abs (pearsonr w c)) ->
  no_duplicates pearsonr (c :: rest) ->
  no_duplicates pearsonr (neg c :: rest).
Proof.
  intros Hsym Hnd i j v w Hij Hi Hj.
  destruct j as [|j]; [lia|]. cbn [nth_error] in Hj.
  destruct i as [|i]; cbn [nth_error] in Hi.
  - injection Hi as <-. unfold correlated. rewrite Hsym.
    exact (Hnd 0 (S j) c w Hij eq_refl Hj).
  - exact (Hnd (S i) (S j) v w Hij Hi Hj).
Qed.

(** The invariant of the pool survives the polarity step: as long as the
    size of the coefficient of [pearsonr] does not change when its second
    argument is negated, the model [learn] returns has k chains none of which
    is correlated beyond the threshold with an earlier one, whether or not
    its first chain was flipped. *)
Theorem learn_model_no_duplicates (k : nat)
    (search : nat -> nat -> list Q * nat)
    (pearsonr : chain -> chain -> float)
    (ltf_eval : list chain -> list (list Z) -> list Z)
    (challenges : list (list Z)) (responses : ndarray2)
    (fuel : nat) (model : list chain) (md : meta_data) :
  (forall w v, abs (pearsonr w (neg v)) = abs (pearsonr w v)) ->
  learn k search pearsonr ltf_eval challenges responses fuel
  = Some (Ok (model, md)) ->
  length model = k /\ no_duplicates pearsonr model.
Proof.
  intros Hsym. unfold learn.
  destruct (learn_loop k search pearsonr fuel (initial_state k))
    as [[st|e]|] eqn:Hloop; try discriminate.
  cbn [bind].
  destruct (resolve_polarity ltf_eval challenges responses (pool st))
    as [m|e] eqn:Hpol; [|discriminate].
  cbn [bind]. intros H. injection H as <- <-.
  destruct (learn_loop_exit fuel (reach_init k search pearsonr) Hloop)
    as (Hr & Hk).
  destruct (reachable_invariant Hr) as (Hnd & Hlen & Hle).
  destruct (resolve_polarity_cases _ _ _ _ Hpol)
    as [-> | (c & rest & Hp & ->)].
  - split; [lia | exact Hnd].
  - rewrite Hp in *. cbn [length] in *. split; [lia|].
    apply flip_keeps_no_duplicates; [intros w; apply Hsym | exact Hnd].
Qed.

Lemma learn_model_no_duplicates_witness :
  no_duplicates pearsonr_ref
    [neg Examples.dup_chain; neg Examples.other_chain].
Proof.
  apply (@learn_model_no_duplicates 2 Examples.search3 pearsonr_ref
           Examples.eval_zero Examples.challenges3 Examples.responses3 3
           [neg Examples.dup_chain; neg Examples.other_chain]
           (meta Examples.final3)).
  - exact pearsonr_ref_neg.
  - vm_compute. reflexivity.
Defined.

(** * Sign blindness of the objective, odd numbers of measurements *)

Lemma firstn_exact (A : Type) (n : nat) (a b : list A) :
  length a = n -> firstn n (a ++ b) = a.
Proof.
  intros <-. rewrite firstn_app, Nat.sub_diag, firstn_all. cbn [firstn].
  apply app_nil_r.
Qed.

(** The objective cannot tell a chain from its negation: a candidate and
    the candidate with all n weights negated (and the same epsilon) get the
    same modelled reliabilities and the same objective value, or fail in the
    same way. *)
Theorem objective_sign_blind (n : nat) (chal : list (list float))
    (y w : list float) (epsilon : float) :
  length w = n ->
  model_reliabilities n chal (map PrimFloat.opp w ++ [epsilon])
  = model_reliabilities n chal (w ++ [epsilon])
  /\ objective1 n chal y (map PrimFloat.opp w ++ [epsilon])
     = objective1 n chal y (w ++ [epsilon]).
Proof.
  intros Hn.
  assert (Hm : model_reliabilities n chal (map PrimFloat.opp w ++ [epsilon])
               = model_reliabilities n chal (w ++ [epsilon])).
  { unfold model_reliabilities, last_entry.
    rewrite !firstn_exact by (rewrite ?length_map; exact Hn).
    rewrite !last_last.
    destruct (map PrimFloat.opp w ++ [epsilon]) eqn:E1;
      [now apply app_eq_nil in E1 as [_ E1]|].
    destruct (w ++ [epsilon]) eqn:E2;
      [now apply app_eq_nil in E2 as [_ E2]|].
    cbn [bind]. apply chain_reliabilities_opp. }
  split; [exact Hm|]. unfold objective1. now rewrite Hm.
Qed.

Lemma objective_sign_blind_witness :
  objective1 2 Examples.challenges4 Examples.rels4 [-3; -1; 2]%float
  = objective1 2 Examples.challenges4 Examples.rels4 [3; 1; 2]%float.
Proof.
  exact (proj2 (@objective_sign_blind 2 Examples.challenges4 Examples.rels4
                  [3; 1]%float 2%float eq_refl)).
Defined.

Lemma spec_reliability_odd (row : list Z) :
  Nat.odd (length row) = true ->
  (1 # 2 <= spec_reliability (length row) row)%Q.
Proof.
  intros Hodd. unfold spec_reliability.
  set (R := Z.of_nat (length row)). set (c := count 1 row).
  apply Nat.odd_spec in Hodd as [k Hk].
  assert (Hne : (R - 2 * c <> 0)%Z) by (unfold R; lia).
  assert (Heq : (inject_Z R / 2 - inject_Z c == (R - 2 * c) # 2)%Q).
  { unfold Qeq, Qminus, Qplus, Qdiv, Qmult, Qinv, Qopp, inject_Z.
    cbn [Qnum Qden]. lia. }
  rewrite Heq. unfold Qabs, Qle. cbn [Qnum Qden]. lia.
Qed.

(** With an odd number of measurements no challenge can split evenly: every
    measured reliability of a signed response matrix is at least 1/2. *)
Theorem reliabilities_puf_odd (to01 : Z -> Z) (m : ndarray2) :
  recodes_bits to01 -> well_shaped m -> entries pm1 m ->
  Nat.odd (ncols m) = true ->
  Forall (fun r => (1 # 2 <= r)%Q) (reliabilities_puf to01 m).
Proof.
  intros Hrec Hshape Hent Hodd.
  pose proof (reliabilities_puf_signed Hrec Hshape Hent) as H.
  unfold well_shaped in Hshape. revert H Hshape.
  generalize (reliabilities_puf to01 m) as out, (rows m) as rs.
  intros out rs H. induction rs as [|row rs IH] in out, H |- *;
    inversion H as [|r ? out' ? Hr Hrest]; subst; intros Hshape;
    constructor.
  - apply Forall_cons_iff in Hshape as [Hlen _].
    rewrite Hr, <- Hlen. apply spec_reliability_odd. now rewrite Hlen.
  - apply IH; [exact Hrest | now apply Forall_cons_iff in Hshape as [_ ?]].
Qed.

Lemma reliabilities_puf_odd_witness :
  Forall (fun r => (1 # 2 <= r)%Q)
    (reliabilities_puf minus_is_one
       (mk_ndarray2 3 [[1; 1; -1]; [-1; -1; -1]]%Z)).
Proof.
  apply reliabilities_puf_odd.
  - right; split; reflexivity.
  - repeat (constructor; [reflexivity|]). constructor.
  - repeat (constructor; [repeat (constructor; [unfold pm1; lia|]);
                          constructor|]). constructor.
  - reflexivity.
Defined.
